(** * MeerAI CLI client: process-orchestration core

    A shallow embedding of [src/meerAiClient.ts] (class [MeerAiClient]):
    the command resolver [parseCommand], the bounded stream accumulator
    [appendWithLimit], the process runner [ask] with its stdout / stderr /
    error / close handlers, and the error normalizer [normalizeError].

    Around it: the callers of [ask], which are the two commands of
    [src/extension.ts] and [handleAsk] of [src/chatViewProvider.ts], and the
    configuration file of [src/configManager.ts] that [ask] has ensured
    before it spawns ([ensureMeerConfig], [deepMerge]).

    JavaScript strings are sequences of UTF-16 code units; they are modelled
    as [list Z].  Byte buffers ([Buffer]) are lists of octets, also [list Z]. *)

From Stdlib Require Import ZArith List String Ascii Bool Lia DecimalString.
From Stdlib Require QArith.
From Equations Require Import Equations.
From Equations.Prop Require Import Logic.
Import ListNotations.

Local Open Scope Z_scope.
Local Abbreviation length := Datatypes.length.

(* ===================================================================== *)
(** ** JavaScript strings *)
(* ===================================================================== *)

Module Js.

Abbreviation code_unit := Z.
Abbreviation JsString := (list Z).

(** A source-code string literal (ASCII only) as a [JsString]. *)
Definition lit (s : string) : JsString :=
  map (fun a => Z.of_N (N_of_ascii a)) (list_ascii_of_string s).

Arguments lit s%_string.

(** [a === b] on strings *)
Fixpoint eqb (a b : JsString) : bool :=
  match a, b with
  | [], [] => true
  | x :: a', y :: b' => (x =? y) && eqb a' b'
  | _, _ => false
  end.

Lemma eqb_eq a b : eqb a b = true <-> a = b.
Proof.
  revert b. induction a as [|x a IH]; intros [|y b]; simpl;
    try (split; [discriminate | congruence]); [tauto|].
  rewrite andb_true_iff, Z.eqb_eq, IH. split.
  - intros [-> ->]. reflexivity.
  - intros H. injection H as -> ->. split; reflexivity.
Qed.

Lemma eqb_refl a : eqb a a = true.
Proof. now apply eqb_eq. Qed.

(** [!s] on a string: true exactly for the empty string. *)
Definition falsy (s : JsString) : bool :=
  match s with [] => true | _ => false end.

(** ECMAScript WhiteSpace and LineTerminator code points: the set stripped
    by [String.prototype.trim] and matched by [\s] in a regular expression. *)
Definition isWhiteSpace (c : code_unit) : bool :=
  ((9 <=? c) && (c <=? 13)) || (c =? 32) || (c =? 160) || (c =? 5760)
  || ((8192 <=? c) && (c <=? 8202)) || (c =? 8232) || (c =? 8233)
  || (c =? 8239) || (c =? 8287) || (c =? 12288) || (c =? 65279).

Fixpoint dropWhile {A} (p : A -> bool) (l : list A) : list A :=
  match l with
  | [] => []
  | x :: t => if p x then dropWhile p t else l
  end.

Definition trimStart (s : JsString) : JsString := dropWhile isWhiteSpace s.
Definition trimEnd (s : JsString) : JsString :=
  rev (dropWhile isWhiteSpace (rev s)).
Definition trim (s : JsString) : JsString := trimEnd (trimStart s).

(** [s.startsWith(c)] and [s.endsWith(c)] for a one-unit search string. *)
Definition startsWith1 (s : JsString) (c : code_unit) : bool :=
  match s with x :: _ => x =? c | [] => false end.
Definition endsWith1 (s : JsString) (c : code_unit) : bool :=
  startsWith1 (rev s) c.

(** [s.endsWith(suffix)] *)
Definition endsWith (s suffix : JsString) : bool :=
  let n := length s in
  let m := length suffix in
  (m <=? n)%nat && eqb (skipn (n - m) s) suffix.

(** [s.slice(start, end)] with the relative-index rules of ECMAScript. *)
Definition slice (s : JsString) (start end_ : Z) : JsString :=
  let len := Z.of_nat (length s) in
  let from := if start <? 0 then Z.max (len + start) 0 else Z.min start len in
  let to := if end_ <? 0 then Z.max (len + end_) 0 else Z.min end_ len in
  firstn (Z.to_nat (Z.max (to - from) 0)) (skipn (Z.to_nat from) s).

(** [s.toLowerCase()], on the ASCII letters.  The only use in the source
    is a test against the suffixes [.cmd], [.exe], [.bat], [.com]; no
    non-ASCII code point lower-cases to one of their characters, so the
    test is not affected by the remainder of the Unicode case mapping. *)
Definition toLowerCase (s : JsString) : JsString :=
  map (fun c => if (65 <=? c) && (c <=? 90) then c + 32 else c) s.

(** [`${n}`] for an integral number. *)
Definition ofZ (n : Z) : JsString := lit (NilZero.string_of_int (Z.to_int n)).

(** [`${code}`] for [code : number | null]. *)
Definition ofCode (code : option Z) : JsString :=
  match code with Some n => ofZ n | None => lit "null" end.

(** [a.join(sep)] on an array of strings. *)
Fixpoint join (sep : JsString) (l : list JsString) : JsString :=
  match l with
  | [] => []
  | [x] => x
  | x :: t => x ++ sep ++ join sep t
  end.

(** [s.split(sep)] for a one-unit separator. *)
Fixpoint split1_aux (sep : code_unit) (cur : JsString) (s : JsString)
  : list JsString :=
  match s with
  | [] => [rev cur]
  | c :: t => if c =? sep then rev cur :: split1_aux sep [] t
              else split1_aux sep (c :: cur) t
  end.
Definition split1 (sep : code_unit) (s : JsString) : list JsString :=
  split1_aux sep [] s.

(** [x] occurs in [s] as a contiguous substring. *)
Definition contains (s x : JsString) : Prop :=
  exists pre post, s = pre ++ x ++ post.

(** [t] is what remains of [s] after dropping some leading code units. *)
Definition suffix_of (t s : JsString) : Prop := exists k, s = k ++ t.

End Js.

(* ===================================================================== *)
(** ** UTF-8 transcoding: [Buffer.from(s, 'utf8')] and [buf.toString('utf8')] *)
(* ===================================================================== *)

Module Utf8.
Import Js.

Abbreviation Buffer := (list Z).

Definition byteLength (b : Buffer) : Z := Z.of_nat (length b).

Definition isHighSurrogate (c : Z) : bool := (55296 <=? c) && (c <=? 56319).
Definition isLowSurrogate (c : Z) : bool := (56320 <=? c) && (c <=? 57343).

(** the three octets of U+FFFD REPLACEMENT CHARACTER *)
Definition replacementBytes : Buffer := [239; 191; 189].

Definition encode_bmp (c : Z) : Buffer :=
  if c <? 128 then [c]
  else if c <? 2048 then [Z.lor 192 (Z.shiftr c 6); Z.lor 128 (Z.land c 63)]
  else [Z.lor 224 (Z.shiftr c 12);
        Z.lor 128 (Z.land (Z.shiftr c 6) 63);
        Z.lor 128 (Z.land c 63)].

Definition encode_supplementary (hi lo : Z) : Buffer :=
  let cp := 65536 + Z.shiftl (hi - 55296) 10 + (lo - 56320) in
  [Z.lor 240 (Z.shiftr cp 18);
   Z.lor 128 (Z.land (Z.shiftr cp 12) 63);
   Z.lor 128 (Z.land (Z.shiftr cp 6) 63);
   Z.lor 128 (Z.land cp 63)].

(** [Buffer.from(s, 'utf8')]: a surrogate pair becomes four octets, an
    unpaired surrogate is written as U+FFFD. *)
Fixpoint from (s : JsString) : Buffer :=
  match s with
  | [] => []
  | c :: t =>
      if isHighSurrogate c then
        match t with
        | lo :: t' =>
            if isLowSurrogate lo then encode_supplementary c lo ++ from t'
            else replacementBytes ++ from t
        | [] => replacementBytes
        end
      else if isLowSurrogate c then replacementBytes ++ from t
      else encode_bmp c ++ from t
  end.

(** [buf.subarray(start)] for [0 <= start]. *)
Definition subarray (b : Buffer) (start : Z) : Buffer :=
  skipn (Z.to_nat start) b.

(** The decoder state of the WHATWG UTF-8 decode algorithm, which
    [toString('utf8')] follows: ill-formed input is not an error, each
    maximal ill-formed subsequence decodes to one U+FFFD. *)
Record DecoderState := mkDecoder {
  code_point : Z;
  bytes_seen : Z;
  bytes_needed : Z;
  lower_boundary : Z;
  upper_boundary : Z
}.

Definition decoder_init : DecoderState := mkDecoder 0 0 0 128 191.

(** a byte read while no sequence is open *)
Definition lead_byte (b : Z) : list Z * DecoderState :=
  if b <=? 127 then ([b], decoder_init)
  else if (194 <=? b) && (b <=? 223) then
    ([], mkDecoder (Z.land b 31) 0 1 128 191)
  else if (224 <=? b) && (b <=? 239) then
    ([], mkDecoder (Z.land b 15) 0 2
           (if b =? 224 then 160 else 128) (if b =? 237 then 159 else 191))
  else if (240 <=? b) && (b <=? 244) then
    ([], mkDecoder (Z.land b 7) 0 3
           (if b =? 240 then 144 else 128) (if b =? 244 then 143 else 191))
  else ([65533], decoder_init).

Definition decoder_step (st : DecoderState) (b : Z) : list Z * DecoderState :=
  if bytes_needed st =? 0 then lead_byte b
  else if negb ((lower_boundary st <=? b) && (b <=? upper_boundary st)) then
    (* the open sequence is ill-formed; the byte is read again as a lead *)
    let (out, st') := lead_byte b in (65533 :: out, st')
  else
    let cp := Z.lor (Z.shiftl (code_point st) 6) (Z.land b 63) in
    let seen := bytes_seen st + 1 in
    if seen =? bytes_needed st then ([cp], decoder_init)
    else ([], mkDecoder cp seen (bytes_needed st) 128 191).

Fixpoint decode_from (st : DecoderState) (b : Buffer) : list Z :=
  match b with
  | [] => if bytes_needed st =? 0 then [] else [65533]
  | x :: t => let (out, st') := decoder_step st x in out ++ decode_from st' t
  end.

(** a decoded code point as UTF-16 code units *)
Definition utf16_of (cp : Z) : JsString :=
  if cp <? 65536 then [cp]
  else let v := cp - 65536 in [55296 + Z.shiftr v 10; 56320 + Z.land v 1023].

(** [buf.toString('utf8')] *)
Definition toString (b : Buffer) : JsString :=
  flat_map utf16_of (decode_from decoder_init b).

(** the code point of a surrogate pair *)
Definition pair_value (hi lo : Z) : Z :=
  65536 + (hi - 55296) * 1024 + (lo - 56320).

(** a string without unpaired surrogates, every unit in the 16-bit range *)
Fixpoint wellFormed (s : JsString) : bool :=
  match s with
  | [] => true
  | c :: t =>
      if isHighSurrogate c then
        match t with
        | lo :: t' => isLowSurrogate lo && wellFormed t'
        | [] => false
        end
      else (0 <=? c) && (c <? 65536) && negb (isLowSurrogate c) && wellFormed t
  end.


(** text of ASCII characters only *)
Definition isAscii (s : JsString) : Prop := Forall (fun c => 0 <= c < 128) s.

End Utf8.

(* ===================================================================== *)
(** ** The bounded stream accumulator *)
(* ===================================================================== *)

Module Accumulator.
Import Js Utf8.

(** [MeerAiClient.appendWithLimit] *)
Definition appendWithLimit (current incoming : JsString) (limitBytes : Z)
  : JsString :=
  if falsy incoming then current
  else
    let combined := current ++ incoming in
    let asBuffer := from combined in
    if byteLength asBuffer <=? limitBytes then combined
    else
      let truncated :=
        subarray asBuffer (Z.max 0 (byteLength asBuffer - limitBytes)) in
      toString truncated.

(** The buffer after a sequence of chunks, as the [data] handlers build it. *)
Definition accumulate (limitBytes : Z) (start : JsString)
  (chunks : list JsString) : JsString :=
  fold_left (fun buf chunk => appendWithLimit buf chunk limitBytes) chunks start.

(** The cut of one append falls between two code points of well-formed
    text: nothing is cut at all (an empty chunk, or the result fits), or
    the octets dropped are exactly those of a prefix [a] of the text. *)
Definition cleanCut (current incoming : JsString) (limitBytes : Z) : Prop :=
  let combined := current ++ incoming in
  incoming = [] \/
  byteLength (from combined) <= limitBytes \/
  exists a b, combined = a ++ b /\ wellFormed a = true /\ wellFormed b = true
              /\ byteLength (from a) = byteLength (from combined) - limitBytes.

(** every append of the sequence cuts cleanly *)
Fixpoint cleanRun (limitBytes : Z) (current : JsString)
  (chunks : list JsString) : Prop :=
  match chunks with
  | [] => True
  | chunk :: rest =>
      cleanCut current chunk limitBytes /\
      cleanRun limitBytes (appendWithLimit current chunk limitBytes) rest
  end.


(** [k] times U+00E9 and a letter: [2 k + 1] octets *)
Definition accented (k : nat) : JsString := repeat 233 k ++ [97].

End Accumulator.

(* ===================================================================== *)
(** ** The command resolver *)
(* ===================================================================== *)

Module Resolver.
Import Js.

Definition dquote : code_unit := 34.
Definition squote : code_unit := 39.

(** the character class of the first alternative: any code unit that is
    neither white space nor a double quote nor a single quote *)
Definition isPlain (c : code_unit) : bool :=
  negb (isWhiteSpace c) && negb (c =? dquote) && negb (c =? squote).

(** longest prefix satisfying [p], and the remainder *)
Fixpoint span {A} (p : A -> bool) (l : list A) : list A * list A :=
  match l with
  | [] => ([], [])
  | x :: t => if p x then let (a, b) := span p t in (x :: a, b) else ([], l)
  end.

(** first alternative: one or more plain code units, greedy *)
Definition alt_plain (s : JsString) : option (JsString * JsString) :=
  match span isPlain s with
  | ([], _) => None
  | (m, r) => Some (m, r)
  end.

(** second and third alternative, for the quote [q]: an opening quote,
    every code unit up to the next quote of the same kind, and that quote *)
Definition alt_quoted (q : code_unit) (s : JsString)
  : option (JsString * JsString) :=
  match s with
  | c :: t =>
      if c =? q then
        match span (fun x => negb (x =? q)) t with
        | (inside, c' :: r) => Some (q :: inside ++ [c'], r)
        | (_, []) => None
        end
      else None
  | [] => None
  end.

(** one iteration of the non-capturing group (plain run | double-quoted |
    single-quoted), the alternatives tried from left to right *)
Definition group (s : JsString) : option (JsString * JsString) :=
  match alt_plain s with
  | Some x => Some x
  | None =>
      match alt_quoted dquote s with
      | Some x => Some x
      | None => alt_quoted squote s
      end
  end.

Lemma span_length {A} (p : A -> bool) l a b :
  span p l = (a, b) -> (length a + length b = length l)%nat.
Proof.
  revert a b. induction l as [|x t IH]; simpl; intros a b H.
  - injection H as <- <-. reflexivity.
  - destruct (p x).
    + destruct (span p t) as [a' b'] eqn:E. injection H as <- <-.
      simpl. rewrite (IH a' b' eq_refl). reflexivity.
    + injection H as <- <-. reflexivity.
Qed.

Lemma span_app {A} (p : A -> bool) l a b : span p l = (a, b) -> l = a ++ b.
Proof.
  revert a b. induction l as [|x t IH]; simpl; intros a b H.
  - injection H as <- <-. reflexivity.
  - destruct (p x).
    + destruct (span p t) as [a' b'] eqn:E. injection H as <- <-.
      simpl. now rewrite (IH a' b' eq_refl).
    + injection H as <- <-. reflexivity.
Qed.

Lemma alt_plain_shorter s m r :
  alt_plain s = Some (m, r) -> (length r < length s)%nat.
Proof.
  unfold alt_plain. destruct (span isPlain s) as [a b] eqn:E.
  apply span_length in E. destruct a; [discriminate|].
  intros H. injection H as <- <-. simpl in E. lia.
Qed.

Lemma alt_quoted_shorter q s m r :
  alt_quoted q s = Some (m, r) -> (length r < length s)%nat.
Proof.
  unfold alt_quoted. destruct s as [|c t]; [discriminate|].
  destruct (c =? q); [|discriminate].
  destruct (span (fun x => negb (x =? q)) t) as [a b] eqn:E.
  apply span_length in E.
  destruct b; [discriminate|]. intros H. injection H as <- <-.
  simpl in *. lia.
Qed.

Lemma group_shorter s m r :
  group s = Some (m, r) -> (length r < length s)%nat.
Proof.
  unfold group. destruct (alt_plain s) as [[a b]|] eqn:E1.
  - intros H. injection H as <- <-. eapply alt_plain_shorter; eauto.
  - destruct (alt_quoted dquote s) as [[a b]|] eqn:E2.
    + intros H. injection H as <- <-. eapply alt_quoted_shorter; eauto.
    + apply alt_quoted_shorter.
Qed.

(** [(?: ... )+] from the second iteration on: the quantifier is greedy and
    nothing follows it in the pattern, so the matcher takes iterations as
    long as one matches and never has to give one back. *)
Equations group_star (s : JsString) : JsString * JsString
  by wf (length s) lt :=
  group_star s with inspect (group s) := {
    | exist _ (Some (m, r)) H =>
        let (m', r') := group_star r in (m ++ m', r')
    | exist _ None _ => ([], s)
  }.
Next Obligation. eapply group_shorter; eauto. Defined.

(** the whole pattern, anchored at the start of [s]: at least one iteration *)
Definition match_here (s : JsString) : option (JsString * JsString) :=
  match group s with
  | Some (m, r) => let (m', r') := group_star r in Some (m ++ m', r')
  | None => None
  end.

Lemma group_star_eq s :
  group_star s =
  match group s with
  | Some (m, r) => let (m', r') := group_star r in (m ++ m', r')
  | None => ([], s)
  end.
Proof.
  funelim (group_star s);
    try (match goal with Hc : _ = group_star _ |- _ => rewrite <- Hc end);
    match goal with Hg : group _ = _ |- _ => now rewrite Hg end.
Qed.

Lemma group_star_shorter s :
  forall m r, group_star s = (m, r) -> (length r <= length s)%nat.
Proof.
  induction s as [s IH] using (induction_ltof1 _ (@length Z)).
  unfold ltof in IH. intros m r. rewrite group_star_eq.
  destruct (group s) as [[a b]|] eqn:E.
  - apply group_shorter in E.
    destruct (group_star b) as [m' r'] eqn:E'.
    intros H. injection H as <- <-.
    specialize (IH b E _ _ E'). lia.
  - intros H. injection H as <- <-. lia.
Qed.

Lemma match_here_shorter s m r :
  match_here s = Some (m, r) -> (length r < length s)%nat.
Proof.
  unfold match_here. destruct (group s) as [[a b]|] eqn:E; [|discriminate].
  destruct (group_star b) as [m' r'] eqn:E'. intros H. injection H as <- <-.
  apply group_shorter in E. apply group_star_shorter in E'. lia.
Qed.

(** [s.match(/.../g)]: every match from left to right; after a match the
    search resumes where it ended, and where nothing matches it moves on
    by one code unit.  [[]] stands for the [null] of no match at all. *)
Equations match_all (s : JsString) : list JsString by wf (length s) lt :=
  match_all [] := [];
  match_all (c :: t) with inspect (match_here (c :: t)) := {
    | exist _ (Some (m, r)) H => m :: match_all r
    | exist _ None _ => match_all t
  }.
Next Obligation. apply match_here_shorter in H. exact H. Defined.

(** the callback of [.map]: surrounding quotes of one kind are removed *)
Definition unquote (segment : JsString) : JsString :=
  let trimmed := trim segment in
  if (startsWith1 trimmed dquote && endsWith1 trimmed dquote)
     || (startsWith1 trimmed squote && endsWith1 trimmed squote)
  then slice trimmed 1 (-1)
  else trimmed.

(** [commandLine.match(...)?.map(...)]: [None] is [undefined] *)
Definition segmentsOf (commandLine : JsString) : option (list JsString) :=
  match match_all commandLine with
  | [] => None
  | ms => Some (map unquote ms)
  end.









End Resolver.

(* ===================================================================== *)
(** ** The client: errors, host, effects *)
(* ===================================================================== *)

Module Client.
Import Js Utf8 Accumulator Resolver.

(** An [Error] object.  [oid] is the identity of the object on the heap:
    two records with the same [oid] are the same object.  [code] is the
    optional [code] property that spawn failures carry. *)
Record ErrorObj := mkError {
  oid : nat;
  message : JsString;
  code : option JsString
}.

(** [interface CommandParts] *)
Record CommandParts := mkParts {
  executable : JsString;
  args : list JsString
}.

(** [interface AskOptions].  [token] is [None] when no token is passed and
    otherwise holds [isCancellationRequested] as it is at the call;
    [onData] tells whether a callback is passed. *)
Record AskOptions := mkOptions {
  cwd : option JsString;
  token : option bool;
  onData : bool
}.

Definition Env := JsString -> option JsString.

Definition setenv (k v : JsString) (e : Env) : Env :=
  fun x => if eqb x k then Some v else e x.

(** What the code reads from its surroundings: the [meerai] settings, the
    [process], [path] and [fs] modules, the editor's workspace, and how the
    configuration collaborator answers. *)
Record Host := mkHost {
  cliCommand : option JsString;        (* setting meerai.cliCommand *)
  maxBuffer : option Z;                (* setting meerai.maxBuffer *)
  win32 : bool;                        (* process.platform === 'win32' *)
  process_env : Env;                   (* process.env *)
  delimiter : code_unit;               (* path.delimiter *)
  isAbsolute : JsString -> bool;       (* path.isAbsolute *)
  path_join : JsString -> JsString -> JsString;
  existsSync : JsString -> bool;       (* fs.existsSync *)
  activeEditorFolder : option JsString;
    (* fsPath of the workspace folder of the active editor's document *)
  workspaceFolders : option (list JsString);
  ensureMeerConfigError : option JsString
    (* message of the error ensureMeerConfig rejects with, if it does *)
}.

(** arguments of [spawn(executable, spawnArgs, { cwd, env, shell })] *)
Record SpawnRequest := mkSpawn {
  spawn_file : JsString;
  spawn_args : list JsString;
  spawn_cwd : JsString;
  spawn_env : Env;
  spawn_shell : bool
}.

(** calls that leave the client, in the order they are made *)
Inductive Effect :=
| EnsureConfig
| Spawn (req : SpawnRequest)
| Kill
| OnData (chunk : JsString)
| OutputAppend (chunk : JsString).

Record World := mkWorld {
  next_oid : nat;
  effects : list Effect
}.

(** Computations that may throw, allocate errors and call out. *)
Definition M (A : Type) : Type := World -> (ErrorObj + A) * World.

Definition ret {A} (a : A) : M A := fun w => (inr a, w).

Definition bind {A B} (m : M A) (k : A -> M B) : M B :=
  fun w => match m w with
           | (inl e, w') => (inl e, w')
           | (inr a, w') => k a w'
           end.

Notation "x <- m ;; k" := (bind m (fun x => k))
  (at level 61, m at next level, right associativity).

(** [new Error(msg)]: a fresh object *)
Definition alloc (msg : JsString) (w : World) : ErrorObj * World :=
  (mkError (next_oid w) msg None, mkWorld (S (next_oid w)) (effects w)).

Definition new_Error (msg : JsString) : M ErrorObj :=
  fun w => let (e, w') := alloc msg w in (inr e, w').

Definition throw {A} (e : ErrorObj) : M A := fun w => (inl e, w).

Definition throw_new {A} (msg : JsString) : M A :=
  e <- new_Error msg ;; throw e.

(** a call that leaves the client *)
Definition call (eff : Effect) (w : World) : World :=
  mkWorld (next_oid w) (effects w ++ [eff]).

Definition perform (eff : Effect) : M unit := fun w => (inr tt, call eff w).

(** [MeerAiClient.hasExecutableExtension] *)
Definition hasExecutableExtension (command : JsString) : bool :=
  existsb (fun ext => endsWith (toLowerCase command) ext)
          [lit ".cmd"; lit ".exe"; lit ".bat"; lit ".com"].

(** [MeerAiClient.normalizeError] *)
Definition normalizeError (error : ErrorObj) (executable cwd : JsString)
  (originalCommand : JsString) (args : list JsString) (w : World)
  : ErrorObj * World :=
  if match code error with Some c => eqb c (lit "ENOENT") | None => false end
  then
    alloc (lit "MeerAI CLI command not found: " ++ [dquote] ++ executable
           ++ [dquote] ++ lit ". Update the " ++ [dquote]
           ++ lit "meerai.cliCommand" ++ [dquote]
           ++ lit " setting or ensure the MeerAI CLI is installed. (cwd: "
           ++ cwd ++ lit ")") w
  else if
    match code error with Some c => eqb c (lit "EINVAL") | None => false end
  then
    let renderedArgs :=
      join (lit " ") (map (fun arg => [dquote] ++ arg ++ [dquote]) args) in
    alloc (lit "MeerAI could not start the CLI (spawn EINVAL). Verify the "
           ++ [dquote] ++ lit "meerai.cliCommand" ++ [dquote]
           ++ lit " setting is correct (currently " ++ [dquote]
           ++ originalCommand ++ [dquote]
           ++ lit ") and points to an executable. Try running:"
           ++ [10; 10] ++ executable ++ lit " " ++ renderedArgs
           ++ [10; 10] ++ lit "from a terminal in " ++ cwd ++ lit ".") w
  else (error, w).

Section WithHost.
Variable h : Host.

(** [MeerAiClient.commandExists] *)
Definition commandExists (candidate : JsString) : bool :=
  if isAbsolute h candidate then existsSync h candidate
  else
    let pathEntries :=
      match process_env h (lit "PATH") with
      | Some p => split1 (delimiter h) p
      | None => []
      end in
    existsb (fun entry => existsSync h (path_join h entry candidate))
            pathEntries.

(** [MeerAiClient.parseCommand] *)
Definition parseCommand (commandLine : JsString) : M CommandParts :=
  if falsy commandLine then throw_new (lit "MeerAI CLI command is empty.")
  else
    match segmentsOf commandLine with
    | None | Some [] =>
        throw_new (lit "Unable to parse MeerAI CLI command: " ++ [dquote]
                   ++ commandLine ++ [dquote])
    | Some (first :: rest) =>
        let executable :=
          if win32 h && negb (hasExecutableExtension first) then
            let candidate := first ++ lit ".cmd" in
            if commandExists candidate then candidate else first
          else first in
        ret (mkParts executable rest)
    end.

(** [MeerAiClient.resolveWorkspaceRoot] *)
Definition resolveWorkspaceRoot : option JsString :=
  match activeEditorFolder h with
  | Some folder => Some folder
  | None =>
      match workspaceFolders h with
      | Some (firstFolder :: _) => Some firstFolder
      | _ => None
      end
  end.

(** [ensureMeerConfig], the configuration collaborator, seen from here *)
Definition ensureMeerConfig : M unit :=
  _ <- perform EnsureConfig ;;
  match ensureMeerConfigError h with
  | Some msg => throw_new msg
  | None => ret tt
  end.

(* --------------------------------------------------------------------- *)
(** *** [ask]: up to the spawn *)

(** what the handlers of one invocation close over *)
Record Closure := mkClosure {
  cl_executable : JsString;
  cl_spawnArgs : list JsString;
  cl_workingDirectory : JsString;
  cl_commandLine : JsString;
  cl_maxBufferBytes : Z;
  cl_options : AskOptions
}.

Inductive Outcome :=
| Resolved (value : JsString)
| Rejected (reason : ErrorObj).

(** The mutable state of one invocation: the two buffers, the promise
    ([None] while pending), the token's flag, whether the cancellation
    listener is still registered, and [child.killed]. *)
Record Invocation := mkInvocation {
  stdoutBuffer : JsString;
  stderrBuffer : JsString;
  settled : option Outcome;
  isCancellationRequested : bool;
  listening : bool;
  killed : bool
}.

(** [configuration.get('cliCommand', 'meer').trim()] *)
Definition commandLineOf : JsString :=
  trim (match cliCommand h with Some c => c | None => lit "meer" end).

(** [Math.max(128, configuration.get('maxBuffer', 1024)) * 1024] *)
Definition maxBufferBytesOf : Z :=
  let maxBufferKb := match maxBuffer h with Some n => n | None => 1024 end in
  Z.max 128 maxBufferKb * 1024.

(** [ask] from its first line to the end of the promise executor: the
    settings are read, the command resolved, the working directory chosen,
    the configuration ensured, the child spawned and the handlers
    registered.  A [throw] on the way rejects the returned promise. *)
Definition ask_start (question : JsString) (options : AskOptions)
  : M (Closure * Invocation) :=
  let commandLine := commandLineOf in
  let maxBufferBytes := maxBufferBytesOf in
  parts <- parseCommand commandLine ;;
  let spawnArgs := args parts ++ [lit "ask"; question] in
  let workingDirectory :=
    match cwd options with
    | Some d => Some d
    | None => resolveWorkspaceRoot
    end in
  workingDirectory <-
    match workingDirectory with
    | Some d =>
        if falsy d then throw_new (lit "MeerAI requires an open workspace folder.")
        else ret d
    | None => throw_new (lit "MeerAI requires an open workspace folder.")
    end ;;
  _ <- ensureMeerConfig ;;
  let env :=
    setenv (lit "FORCE_COLOR") (lit "0")
      (setenv (lit "NO_COLOR") (lit "1") (process_env h)) in
  _ <- perform (Spawn (mkSpawn (executable parts) spawnArgs workingDirectory
                               env false)) ;;
  ret (mkClosure (executable parts) spawnArgs workingDirectory commandLine
                 maxBufferBytes options,
       mkInvocation [] [] None
         (match token options with Some b => b | None => false end)
         (match token options with Some _ => true | None => false end)
         false).

(* --------------------------------------------------------------------- *)
(** *** [ask]: the handlers *)

(** what reaches the invocation after the spawn *)
Inductive Event :=
| StdoutData (data : JsString)       (* child.stdout 'data' *)
| StderrData (data : JsString)       (* child.stderr 'data' *)
| ChildError (error : ErrorObj)      (* child 'error' *)
| ChildClose (exitCode : option Z)   (* child 'close'; [None] is null *)
| CancellationRequested.             (* the token fires *)

Definition set_stdoutBuffer (b : JsString) (i : Invocation) : Invocation :=
  mkInvocation b (stderrBuffer i) (settled i) (isCancellationRequested i)
    (listening i) (killed i).

Definition set_stderrBuffer (b : JsString) (i : Invocation) : Invocation :=
  mkInvocation (stdoutBuffer i) b (settled i) (isCancellationRequested i)
    (listening i) (killed i).

(** [resolve] and [reject] act on a pending promise only *)
Definition settle (o : Outcome) (i : Invocation) : Invocation :=
  match settled i with
  | Some _ => i
  | None => mkInvocation (stdoutBuffer i) (stderrBuffer i) (Some o)
              (isCancellationRequested i) (listening i) (killed i)
  end.

(** [disposeCancellation?.dispose()] *)
Definition dispose (i : Invocation) : Invocation :=
  mkInvocation (stdoutBuffer i) (stderrBuffer i) (settled i)
    (isCancellationRequested i) false (killed i).

(** [child.stdout.on('data', ...)] *)
Definition on_stdout (c : Closure) (data : JsString) (i : Invocation)
  (w : World) : Invocation * World :=
  (set_stdoutBuffer
     (appendWithLimit (stdoutBuffer i) data (cl_maxBufferBytes c)) i,
   if onData (cl_options c) then call (OnData data) w else w).

(** [child.stderr.on('data', ...)] *)
Definition on_stderr (c : Closure) (data : JsString) (i : Invocation)
  (w : World) : Invocation * World :=
  (set_stderrBuffer
     (appendWithLimit (stderrBuffer i) data (cl_maxBufferBytes c)) i,
   call (OutputAppend data) w).

(** [child.on('error', ...)] *)
Definition on_error (c : Closure) (error : ErrorObj) (i : Invocation)
  (w : World) : Invocation * World :=
  let i' := dispose i in
  let (e, w') :=
    normalizeError error (cl_executable c) (cl_workingDirectory c)
      (cl_commandLine c) (cl_spawnArgs c) w in
  (settle (Rejected e) i', w').

(** [child.on('close', ...)] *)
Definition on_close (c : Closure) (exitCode : option Z) (i : Invocation)
  (w : World) : Invocation * World :=
  let i' := dispose i in
  if match exitCode with Some n => n =? 0 | None => false end then
    (settle (Resolved (trim (stdoutBuffer i'))) i', w)
  else if isCancellationRequested i' then
    let (e, w') := alloc (lit "Request cancelled.") w in
    (settle (Rejected e) i', w')
  else
    let message :=
      if falsy (trim (stderrBuffer i'))
      then lit "MeerAI CLI exited with code " ++ ofCode exitCode ++ lit "."
      else trim (stderrBuffer i') in
    let (e, w') := alloc message w in
    (settle (Rejected e) i', w').

(** The token fires: its flag is set, and the listener, if it is still
    registered, kills a child that is not yet killed.  Without a token
    there is nothing that could fire. *)
Definition on_cancel (c : Closure) (i : Invocation) (w : World)
  : Invocation * World :=
  match token (cl_options c) with
  | None => (i, w)
  | Some _ =>
      let i' := mkInvocation (stdoutBuffer i) (stderrBuffer i) (settled i)
                  true (listening i) (killed i) in
      if listening i' && negb (killed i') then
        (mkInvocation (stdoutBuffer i') (stderrBuffer i') (settled i')
           true (listening i') true,
         call Kill w)
      else (i', w)
  end.

Definition handle (c : Closure) (ev : Event) (i : Invocation) (w : World)
  : Invocation * World :=
  match ev with
  | StdoutData data => on_stdout c data i w
  | StderrData data => on_stderr c data i w
  | ChildError error => on_error c error i w
  | ChildClose exitCode => on_close c exitCode i w
  | CancellationRequested => on_cancel c i w
  end.

Fixpoint deliver (c : Closure) (evs : list Event) (i : Invocation)
  (w : World) : Invocation * World :=
  match evs with
  | [] => (i, w)
  | ev :: rest => let (i', w') := handle c ev i w in deliver c rest i' w'
  end.

(** the invocation gets as far as spawning the child *)
Definition starts (question : JsString) (options : AskOptions) (w : World)
  : bool :=
  match fst (ask_start question options w) with
  | inr _ => true
  | inl _ => false
  end.

(** [ask], with the events that reach the invocation: how the returned
    promise ends ([None]: still pending), and the world afterwards *)
Definition ask (question : JsString) (options : AskOptions)
  (evs : list Event) (w : World) : option Outcome * World :=
  match ask_start question options w with
  | (inl e, w') => (Some (Rejected e), w')
  | (inr (c, i), w') =>
      let (i', w'') := deliver c evs i w' in (settled i', w'')
  end.

End WithHost.

(** the [onData] calls among the effects, in order *)
Definition onDataCalls (effs : list Effect) : list JsString :=
  flat_map (fun eff => match eff with OnData d => [d] | _ => [] end) effs.

Definition spawnRequests (effs : list Effect) : list SpawnRequest :=
  flat_map (fun eff => match eff with Spawn r => [r] | _ => [] end) effs.

Definition stdoutChunks (evs : list Event) : list JsString :=
  flat_map (fun ev => match ev with StdoutData d => [d] | _ => [] end) evs.

Definition stderrChunks (evs : list Event) : list JsString :=
  flat_map (fun ev => match ev with StderrData d => [d] | _ => [] end) evs.

(** events of a child that has been spawned and has not closed yet *)
Definition streaming (ev : Event) : bool :=
  match ev with
  | StdoutData _ | StderrData _ | CancellationRequested => true
  | ChildError _ | ChildClose _ => false
  end.

Definition isCancel (ev : Event) : bool :=
  match ev with CancellationRequested => true | _ => false end.

(** cancellation has been requested on the token by the end of [evs] *)
Definition cancelledBy (options : AskOptions) (evs : list Event) : bool :=
  match token options with
  | None => false
  | Some b => b || existsb isCancel evs
  end.

Definition world0 : World := mkWorld 0 [].

(** the command line of the tokenization example *)
Definition example_command : JsString :=
  lit "meer ask " ++ [dquote] ++ lit "hello world" ++ [dquote] ++ lit " 'x y'".

(** a POSIX host with the default settings and one workspace folder *)
Definition posix_host : Host :=
  mkHost None None false (fun _ => None) 58 (fun p => startsWith1 p 47)
         (fun a b => a ++ [47] ++ b) (fun _ => false)
         None (Some [lit "/work"]) None.

(** a Windows host on which [meer.cmd] is on the search path *)
Definition windows_host : Host :=
  mkHost None None true
         (fun k => if eqb k (lit "PATH") then Some (lit "C:\tools;C:\bin")
                   else None)
         59 (fun _ => false) (fun a b => a ++ [92] ++ b)
         (fun p => eqb p (lit "C:\bin\meer.cmd"))
         None (Some [lit "C:\work"]) None.

End Client.

(* ===================================================================== *)
(** ** Observations on the client: what a trace of effects holds *)
(* ===================================================================== *)

Module Observe.
Import Js Resolver Client.

(** the [child.kill()] calls among the effects *)
Definition killCalls (effs : list Effect) : nat :=
  List.length
    (filter (fun eff => match eff with Kill => true | _ => false end) effs).

(** the [outputChannel.append] calls among the effects, in order *)
Definition outputAppends (effs : list Effect) : list JsString :=
  flat_map (fun eff => match eff with OutputAppend d => [d] | _ => [] end) effs.

(** the extensions [hasExecutableExtension] looks for *)
Definition executableExtensions : list JsString :=
  [lit ".cmd"; lit ".exe"; lit ".bat"; lit ".com"].

(** a character other than white space and the two quotes occurs in [s] *)
Definition hasPlain (s : JsString) : bool := existsb isPlain s.

(** [options.cwd ?? this.resolveWorkspaceRoot()] *)
Definition workingDirectoryOf (h : Host) (options : AskOptions)
  : option JsString :=
  match cwd options with
  | Some d => Some d
  | None => resolveWorkspaceRoot h
  end.

(** the configured command line is not empty and the pattern finds a token *)
Definition parses (h : Host) : bool :=
  negb (falsy (commandLineOf h))
  && match segmentsOf (commandLineOf h) with
     | Some (_ :: _) => true
     | _ => false
     end.

(** [`"${arg}"`] *)
Definition quoted (arg : JsString) : JsString := [dquote] ++ arg ++ [dquote].

(** a host whose configuration cannot be initialized *)
Definition readonly_host : Host :=
  mkHost None None false (fun _ => None) 58 (fun p => startsWith1 p 47)
         (fun a b => a ++ [47] ++ b) (fun _ => false)
         None (Some [lit "/work"])
         (Some (lit "Unable to read MeerAI config (/home/dev/.meer/config.yaml): EACCES")).

(** a Windows host with a drive-letter notion of absolute paths, on which
    [meer.cmd] is in the second entry of PATH *)
Definition search_host : Host :=
  mkHost None None true
         (fun k => if eqb k (lit "PATH") then Some (lit "C:\tools;D:\bin")
                   else None)
         59 (fun p => endsWith1 (firstn 2 p) 58) (fun a b => a ++ [92] ++ b)
         (fun p => eqb p (lit "D:\bin\meer.cmd"))
         None None None.

(** 1 when [child.killed] is set *)
Definition killedCount (i : Invocation) : nat := if killed i then 1 else 0.

(** what the handler of one event calls *)
Definition emitted (c : Closure) (ev : Event) (i : Invocation)
  : list Effect :=
  match ev with
  | StdoutData data => if onData (cl_options c) then [OnData data] else []
  | StderrData data => [OutputAppend data]
  | ChildError _ | ChildClose _ => []
  | CancellationRequested =>
      match token (cl_options c) with
      | Some _ => if listening i && negb (killed i) then [Kill] else []
      | None => []
      end
  end.

End Observe.

(* ===================================================================== *)
(** ** The commands of the extension: [meerai.askWorkspace] and
       [meerai.explainSelection] *)
(* ===================================================================== *)

Module Extension.
Import Js Client.

Inductive ProgressLocation := Notification | Window.

(** What a command does to the window and to the output channel, in
    order.  The client was built on the same output channel, and the
    [onData] the commands pass appends to it too, so the calls of the
    client are part of the trace. *)
Inductive UiEffect :=
| WithProgress (title : JsString) (location : ProgressLocation)
| AppendLine (value : JsString)          (* outputChannel.appendLine *)
| FromClient (eff : Effect)              (* a call made by [client.ask] *)
| ChannelShow                            (* outputChannel.show(true) *)
| ShowErrorMessage (message : JsString)
| ShowInformationMessage (message : JsString).

(** [resolveWorkspaceFolder], a folder being known by its [uri.fsPath] *)
Definition resolveWorkspaceFolder (h : Host) : option JsString :=
  match activeEditorFolder h with
  | Some folder => Some folder
  | None =>
      match workspaceFolders h with
      | Some (first :: _) => Some first
      | _ => None
      end
  end.

(** the events up to the one that settles the promise of [ask]; what the
    child does later is not part of the command *)
Fixpoint untilSettled (evs : list Event) : list Event :=
  match evs with
  | [] => []
  | ev :: rest => if streaming ev then ev :: untilSettled rest else [ev]
  end.

(** the options both commands pass: the folder, the token of the progress
    and an [onData] *)
Definition commandOptions (folder : JsString) : AskOptions :=
  mkOptions (Some folder) (Some false) true.

(** The [try] statement of both commands: under a cancellable progress
    the prompt is echoed and [ask] awaited; when it resolves an empty line
    is appended and the channel shown, when it rejects the message of the
    error is shown, and while it is pending nothing follows. *)
Definition askInChannel (h : Host) (title : JsString)
  (location : ProgressLocation) (prompt folder : JsString)
  (evs : list Event) : list UiEffect :=
  let (outcome, w) :=
    ask h prompt (commandOptions folder) (untilSettled evs) world0 in
  let during :=
    WithProgress title location
    :: AppendLine ([10] ++ lit "> " ++ prompt)
    :: map FromClient (effects w) in
  match outcome with
  | None => during
  | Some (Resolved _) => during ++ [AppendLine []; ChannelShow]
  | Some (Rejected error) =>
      during ++ [ShowErrorMessage (lit "MeerAI: " ++ message error)]
  end.

(** the command [meerai.askWorkspace]; [input] is what the input box
    returns, [None] when it is dismissed *)
Definition askWorkspace (h : Host) (input : option JsString)
  (evs : list Event) : list UiEffect :=
  match input with
  | None => []
  | Some question =>
      if falsy question then []
      else
        match resolveWorkspaceFolder h with
        | None =>
            [ShowErrorMessage
               (lit "MeerAI: open a workspace folder to ask questions.")]
        | Some folder =>
            askInChannel h (lit "MeerAI is thinking" ++ [8230]) Notification
              question folder evs
        end
  end.


(** the text the output channel holds after a trace *)
Definition channelText (trace : list UiEffect) : JsString :=
  flat_map (fun eff =>
              match eff with
              | AppendLine value => value ++ [10]
              | FromClient (OnData chunk) => chunk
              | FromClient (OutputAppend chunk) => chunk
              | _ => []
              end) trace.

(** the chunks of both streams, in the order of arrival *)
Definition dataChunks (evs : list Event) : list JsString :=
  flat_map (fun ev =>
              match ev with
              | StdoutData d | StderrData d => [d]
              | _ => []
              end) evs.

Definition errorMessages (trace : list UiEffect) : list JsString :=
  flat_map (fun eff =>
              match eff with ShowErrorMessage m => [m] | _ => [] end) trace.

Definition shows (trace : list UiEffect) : nat :=
  List.length (filter (fun eff =>
                    match eff with ChannelShow => true | _ => false end)
                 trace).

(** the calls of the client in a trace *)
Definition clientCalls (trace : list UiEffect) : list Effect :=
  flat_map (fun eff => match eff with FromClient e => [e] | _ => [] end) trace.

End Extension.

(* ===================================================================== *)
(** ** The configuration file: [ensureMeerConfig] and [deepMerge] *)
(* ===================================================================== *)

Module Config.
Import Js.

(** a number of the configuration, as a fraction *)
Abbreviation Number := QArith_base.Q.

(** the values a YAML document parses to *)
#[local] Unset Elimination Schemes.
Inductive Value :=
| VUndefined
| VNull
| VBoolean (b : bool)
| VNumber (n : Number)
| VString (s : JsString)
| VArray (items : list Value)
| VObject (fields : list (JsString * Value)).
#[local] Set Elimination Schemes.

(** [Record<string, unknown>]: the own properties in the order of
    [Object.entries] *)
Abbreviation Fields := (list (JsString * Value)).

(** [record[key]], [None] when there is no such property *)
Fixpoint get (key : JsString) (record : Fields) : option Value :=
  match record with
  | [] => None
  | (k, v) :: rest => if eqb k key then Some v else get key rest
  end.

(** [record[key] = value]: an existing property keeps its place, a new one
    comes last *)
Fixpoint set (key : JsString) (value : Value) (record : Fields) : Fields :=
  match record with
  | [] => [(key, value)]
  | (k, v) :: rest =>
      if eqb k key then (k, value) :: rest else (k, v) :: set key value rest
  end.

(** [v && typeof v === 'object' && !Array.isArray(v)], and the record
    that is merged into when it holds *)
Definition recordOf (v : option Value) : Fields :=
  match v with
  | Some (VObject fields) => fields
  | _ => []
  end.

(** [deepMerge(base, override)], by recursion on the override *)
Fixpoint mergeInto (override : Value) (base : Fields) {struct override}
  : Fields :=
  match override with
  | VObject entries =>
      (fix loop (entries : Fields) (result : Fields) {struct entries}
         : Fields :=
         match entries with
         | [] => result
         | (key, value) :: rest =>
             loop rest
               match value with
               | VUndefined => result
               | VObject _ =>
                   let baseRecord := recordOf (get key result) in
                   set key (VObject (mergeInto value baseRecord)) result
               | _ => set key value result
               end
         end) entries base
  | _ => base
  end.

Definition deepMerge (base override : Fields) : Fields :=
  mergeInto (VObject override) base.

(** what is thrown: an [Error] with its message and, for a failure of the
    file system, its code *)
Record Thrown := mkThrown {
  thrown_message : JsString;
  thrown_code : option JsString
}.

(** [isEnoent] *)
Definition isEnoent (error : Thrown) : bool :=
  match thrown_code error with
  | Some c => eqb c (lit "ENOENT")
  | None => false
  end.

(** [formatError], on an [Error] *)
Definition formatError (error : Thrown) : JsString := thrown_message error.

Definition text (s : string) : Value := VString (lit s).
Arguments text s%_string.

Definition whole (n : Z) : Value := VNumber (QArith_base.Qmake n 1).

(** [DEFAULT_CONFIG] *)
Definition DEFAULT_CONFIG : Fields :=
  [ (lit "provider", text "ollama");
    (lit "model", text "mistral:7b-instruct");
    (lit "temperature", VNumber (QArith_base.Qmake 7 10));
    (lit "maxIterations", whole 25);
    (lit "ollama",
     VObject [ (lit "host", text "http://127.0.0.1:11434");
               (lit "options", VObject []) ]);
    (lit "openai",
     VObject [ (lit "apiKey", text "");
               (lit "baseURL", text "https://api.openai.com/v1");
               (lit "organization", text "") ]);
    (lit "gemini", VObject [ (lit "apiKey", text "") ]);
    (lit "anthropic",
     VObject [ (lit "apiKey", text "");
               (lit "baseURL", text "https://api.anthropic.com");
               (lit "maxTokens", whole 4096) ]);
    (lit "openrouter",
     VObject [ (lit "apiKey", text "");
               (lit "baseURL", text "https://openrouter.ai/api");
               (lit "siteName", text "MeerAI CLI");
               (lit "siteUrl", text "https://github.com/meer-ai/meer") ]);
    (lit "meer",
     VObject [ (lit "apiKey", text "");
               (lit "apiUrl", text "https://api.meerai.dev") ]);
    (lit "zai",
     VObject [ (lit "apiKey", text "");
               (lit "baseURL", text "https://api.z.ai/api/coding/paas/v4") ]);
    (lit "context",
     VObject [ (lit "autoCollect", VBoolean false);
               (lit "embedding",
                VObject [ (lit "enabled", VBoolean false);
                          (lit "dimensions", whole 256);
                          (lit "maxFileSize", whole 200000) ]) ]) ].

(** what [ensureMeerConfig] finds: the two paths, the outcome of reading
    the file, the YAML library, and how [mkdir] and [writeFile] end *)
Record Disk := mkDisk {
  CONFIG_DIR : JsString;
  CONFIG_PATH : JsString;
  readFile : Thrown + JsString;
  parse : JsString -> Thrown + Value;
  stringify : Value -> JsString;
  mkdir : option Thrown;
  writeFile : option Thrown
}.

Inductive FsEffect :=
| Mkdir (dir : JsString)
| WriteFile (path content : JsString).

(** the [catch] clause of [ensureMeerConfig] *)
Definition recover (d : Disk) (error : Thrown)
  : (Thrown + Fields) * list FsEffect :=
  if isEnoent error then
    match mkdir d with
    | Some failure => (inl failure, [Mkdir (CONFIG_DIR d)])
    | None =>
        let config := DEFAULT_CONFIG in
        let written :=
          WriteFile (CONFIG_PATH d) (stringify d (VObject config) ++ [10]) in
        match writeFile d with
        | Some failure => (inl failure, [Mkdir (CONFIG_DIR d); written])
        | None => (inr config, [Mkdir (CONFIG_DIR d); written])
        end
    end
  else
    (inl (mkThrown (lit "Unable to read MeerAI config (" ++ CONFIG_PATH d
                    ++ lit "): " ++ formatError error) None), []).

(** [ensureMeerConfig] *)
Definition ensureMeerConfig (d : Disk) : (Thrown + Fields) * list FsEffect :=
  match readFile d with
  | inl error => recover d error
  | inr content =>
      match parse d content with
      | inl error => recover d error
      | inr value =>
          let parsed :=
            match value with
            | VUndefined | VNull => VObject []
            | other => other
            end in
          match parsed with
          | VObject fields => (inr (deepMerge DEFAULT_CONFIG fields), [])
          | _ =>
              recover d (mkThrown (lit "MeerAI config must be a YAML object.")
                           None)
          end
      end
  end.



(** a configuration file that is there and parses to [value] *)
Definition disk_with (value : Value) : Disk :=
  mkDisk (lit "/home/dev/.meer") (lit "/home/dev/.meer/config.yaml")
         (inr (lit "provider: openai")) (fun _ => inr value)
         (fun _ => lit "{}") None None.

(** no configuration file yet *)
Definition disk_without : Disk :=
  mkDisk (lit "/home/dev/.meer") (lit "/home/dev/.meer/config.yaml")
         (inl (mkThrown (lit "ENOENT: no such file or directory")
                 (Some (lit "ENOENT"))))
         (fun _ => inr VNull) (fun _ => lit "provider: ollama") None None.


End Config.

(* ===================================================================== *)
(** ** The chat view: [handleAsk] and [cancelRequest] *)
(* ===================================================================== *)

(** [MeerAiChatViewProvider.handleAsk] of [src/chatViewProvider.ts], the
    other caller of [ask], with [createMessage] and [saveSessions] of
    [src/sessionStore.ts].  One request is followed from the message of the
    webview to the end of [handleAsk]: the events are those of its child
    and the [cancel] message for it; no other message of the webview is
    handled in between. *)

Module Chat.
Import Js Client.

(** [type ChatRole] *)
Inductive ChatRole := User | Assistant.

(** [interface ChatMessage] *)
Record ChatMessage := mkMessage {
  message_id : JsString;
  role : ChatRole;
  content : JsString;
  message_createdAt : Z
}.

(** [interface ChatSession] *)
Record ChatSession := mkSession {
  session_id : JsString;
  title : JsString;
  createdAt : Z;
  updatedAt : Z;
  messages : list ChatMessage
}.

(** [interface PendingRequest]; its [dispose] cancels the token of the
    request *)
Record PendingRequest := mkPending {
  pending_sessionId : JsString;
  responseBuffer : JsString
}.

(** what the provider sends out: messages to the webview (only when there
    is a view), the sessions it saves, the error it shows *)
Inductive Posted :=
| PostStream (sessionId requestId chunk : JsString)
| PostDone (requestId : JsString)
| PostError (requestId message : JsString)
| PostState (sessions : list ChatSession) (activeSessionId : option JsString)
| Saved (sessions : list ChatSession)
| ErrorMessage (message : JsString).

(** what [Date.now()] and [randomUUID()] return, reading after reading *)
Record Oracle := mkOracle {
  dateNow : nat -> Z;
  randomUUID : nat -> JsString
}.

(** the provider: its fields, how often the clock was read and an id
    drawn, and what it has sent out so far *)
Record Provider := mkProvider {
  sessions : list ChatSession;
  activeSessionId : option JsString;
  pendingRequests : list (JsString * PendingRequest);
  hasView : bool;
  readings : nat;
  drawn : nat;
  posted : list Posted
}.

Definition set_sessions (l : list ChatSession) (p : Provider) : Provider :=
  mkProvider l (activeSessionId p) (pendingRequests p) (hasView p)
    (readings p) (drawn p) (posted p).

Definition set_pending (m : list (JsString * PendingRequest)) (p : Provider)
  : Provider :=
  mkProvider (sessions p) (activeSessionId p) m (hasView p) (readings p)
    (drawn p) (posted p).

(** a call that leaves the provider *)
Definition post (x : Posted) (p : Provider) : Provider :=
  mkProvider (sessions p) (activeSessionId p) (pendingRequests p) (hasView p)
    (readings p) (drawn p) (posted p ++ [x]).

(** [this.view?.webview.postMessage(...)] *)
Definition postMessage (x : Posted) (p : Provider) : Provider :=
  if hasView p then post x p else p.

(** [Date.now()] *)
Definition now (o : Oracle) (p : Provider) : Z * Provider :=
  (dateNow o (readings p),
   mkProvider (sessions p) (activeSessionId p) (pendingRequests p) (hasView p)
     (S (readings p)) (drawn p) (posted p)).

(** [generateId()], where [randomUUID] is a function *)
Definition generateId (o : Oracle) (p : Provider) : JsString * Provider :=
  (randomUUID o (drawn p),
   mkProvider (sessions p) (activeSessionId p) (pendingRequests p) (hasView p)
     (readings p) (S (drawn p)) (posted p)).

(** [createMessage(role, content)] *)
Definition createMessage (o : Oracle) (r : ChatRole) (text : JsString)
  (p : Provider) : ChatMessage * Provider :=
  let (i, p1) := generateId o p in
  let (t, p2) := now o p1 in
  (mkMessage i r text t, p2).

(** [this.sessions.find((item) => item.id === sessionId)] *)
Definition findSession (sessionId : JsString) (l : list ChatSession)
  : option ChatSession :=
  find (fun item => eqb (session_id item) sessionId) l.

(** a change made to the session that [find] returned, which is the first
    one of the list with that id *)
Fixpoint update (sessionId : JsString) (f : ChatSession -> ChatSession)
  (l : list ChatSession) : list ChatSession :=
  match l with
  | [] => []
  | item :: rest =>
      if eqb (session_id item) sessionId then f item :: rest
      else item :: update sessionId f rest
  end.

(** a session after [session.messages.push(m); session.updatedAt = t] *)
Definition pushed (m : ChatMessage) (t : Z) (s : ChatSession) : ChatSession :=
  mkSession (session_id s) (title s) (createdAt s) t (messages s ++ [m]).

(** [session.messages.push(message); session.updatedAt = Date.now()] *)
Definition pushMessage (o : Oracle) (sessionId : JsString) (m : ChatMessage)
  (p : Provider) : Provider :=
  let (t, p1) := now o p in
  set_sessions (update sessionId (pushed m t) (sessions p1)) p1.

(** [saveSessions(this.context.workspaceState, this.sessions)] *)
Definition saveSessions (p : Provider) : Provider := post (Saved (sessions p)) p.

(** [postState()], without the provider part of the state *)
Definition postState (p : Provider) : Provider :=
  postMessage (PostState (sessions p) (activeSessionId p)) p.

(** [Map.prototype.get], [set] and [delete] *)
Fixpoint pending_get (requestId : JsString)
  (m : list (JsString * PendingRequest)) : option PendingRequest :=
  match m with
  | [] => None
  | (k, v) :: rest => if eqb k requestId then Some v else pending_get requestId rest
  end.

Fixpoint pending_delete (requestId : JsString)
  (m : list (JsString * PendingRequest)) : list (JsString * PendingRequest) :=
  match m with
  | [] => []
  | (k, v) :: rest =>
      if eqb k requestId then pending_delete requestId rest
      else (k, v) :: pending_delete requestId rest
  end.

Definition pending_set (requestId : JsString) (v : PendingRequest)
  (m : list (JsString * PendingRequest)) : list (JsString * PendingRequest) :=
  if match pending_get requestId m with Some _ => true | None => false end
  then map (fun kv => if eqb (fst kv) requestId then (fst kv, v) else kv) m
  else m ++ [(requestId, v)].

(** what reaches [handleAsk] while it awaits [ask]: the events of the
    child, and the [cancel] message of the webview for this request *)
Inductive ChatEvent :=
| ChildStdout (data : JsString)
| ChildStderr (data : JsString)
| ChildFailed (error : ErrorObj)
| ChildClosed (exitCode : option Z)
| CancelMessage.

(** the options [handleAsk] passes: no [cwd], the token of its own
    cancellation source, and an [onData] *)
Definition chatOptions : AskOptions := mkOptions None (Some false) true.

(** the state of the request: the client's side of it and the provider *)
Record Running := mkRunning {
  invocation : Invocation;
  world : World;
  provider : Provider
}.

(** the [onData] that [handleAsk] passes *)
Definition onChunk (sessionId requestId chunk : JsString) (p : Provider)
  : Provider :=
  match pending_get requestId (pendingRequests p) with
  | None => p
  | Some pending =>
      postMessage (PostStream sessionId requestId chunk)
        (set_pending
           (pending_set requestId
              (mkPending (pending_sessionId pending)
                 (responseBuffer pending ++ chunk))
              (pendingRequests p)) p)
  end.

(** One event of the child reaches the client; the [onData] calls the
    client makes while it handles the event run the callback. *)
Definition childEvent (c : Closure) (sessionId requestId : JsString)
  (ev : Event) (r : Running) : Running :=
  let (i, w) := handle c ev (invocation r) (world r) in
  let calls := skipn (length (effects (world r))) (effects w) in
  mkRunning i w
    (fold_left (fun p chunk => onChunk sessionId requestId chunk p)
       (onDataCalls calls) (provider r)).

(** [pending.dispose?.()]: the token is cancelled, which the client sees
    as a cancellation request *)
Definition disposePending (c : Closure) (r : Running) : Running :=
  let (i, w) := handle c CancellationRequested (invocation r) (world r) in
  mkRunning i w (provider r).

(** [cancelRequest(requestId)] while the request runs *)
Definition cancelRequest (c : Closure) (requestId : JsString) (r : Running)
  : Running :=
  match pending_get requestId (pendingRequests (provider r)) with
  | None => r
  | Some _ =>
      let r1 := disposePending c r in
      mkRunning (invocation r1) (world r1)
        (set_pending (pending_delete requestId (pendingRequests (provider r1)))
           (provider r1))
  end.

Definition chatStep (c : Closure) (sessionId requestId : JsString)
  (ev : ChatEvent) (r : Running) : Running :=
  match ev with
  | ChildStdout data => childEvent c sessionId requestId (StdoutData data) r
  | ChildStderr data => childEvent c sessionId requestId (StderrData data) r
  | ChildFailed error => childEvent c sessionId requestId (ChildError error) r
  | ChildClosed code => childEvent c sessionId requestId (ChildClose code) r
  | CancelMessage => cancelRequest c requestId r
  end.

(** the [finally] clause *)
Definition finallyClause (c : Closure) (requestId : JsString) (r : Running)
  : Running :=
  let r1 :=
    match pending_get requestId (pendingRequests (provider r)) with
    | Some _ => disposePending c r
    | None => r
    end in
  mkRunning (invocation r1) (world r1)
    (set_pending (pending_delete requestId (pendingRequests (provider r1)))
       (provider r1)).

(** what follows the [await] once the promise has settled *)
Definition afterAsk (o : Oracle) (c : Closure)
  (sessionId requestId : JsString) (outcome : Outcome) (r : Running)
  : Running :=
  let p := provider r in
  let p' :=
    match outcome with
    | Resolved response =>
        let streamed :=
          match pending_get requestId (pendingRequests p) with
          | Some pending => trim (responseBuffer pending)
          | None => []
          end in
        let text :=
          if falsy streamed
          then (if falsy response then [] else trim response)
          else streamed in
        let p1 :=
          if falsy text then p
          else
            let (m, p2) := createMessage o Assistant text p in
            saveSessions (pushMessage o sessionId m p2) in
        postState (postMessage (PostDone requestId) p1)
    | Rejected error => postMessage (PostError requestId (message error)) p
    end in
  finallyClause c requestId (mkRunning (invocation r) (world r) p').

(** the events are handled one by one until the promise settles; what the
    child does after that does not reach [handleAsk] *)
Fixpoint awaitAsk (o : Oracle) (c : Closure) (sessionId requestId : JsString)
  (evs : list ChatEvent) (r : Running) : Running :=
  match settled (invocation r) with
  | Some outcome => afterAsk o c sessionId requestId outcome r
  | None =>
      match evs with
      | [] => r
      | ev :: rest =>
          awaitAsk o c sessionId requestId rest
            (chatStep c sessionId requestId ev r)
      end
  end.

(** [handleAsk] from the user message to the entry in the map of pending
    requests: the question is stored, saved and shown, and the request
    registered with an empty buffer *)
Definition recordQuestion (o : Oracle) (requestId prompt sessionId : JsString)
  (p : Provider) : Provider :=
  let (userMessage, p1) := createMessage o User prompt p in
  let p2 := postState (saveSessions (pushMessage o sessionId userMessage p1)) in
  set_pending
    (pending_set requestId (mkPending sessionId []) (pendingRequests p2)) p2.

(** [handleAsk(requestId, prompt, sessionId)] *)
Definition handleAsk (h : Host) (o : Oracle)
  (requestId prompt sessionId : JsString) (evs : list ChatEvent)
  (p : Provider) (w : World) : Provider * World :=
  match findSession sessionId (sessions p) with
  | None =>
      (post (ErrorMessage
               (lit "MeerAI: unable to locate the selected chat session.")) p,
       w)
  | Some _ =>
      let p3 := recordQuestion o requestId prompt sessionId p in
      match ask_start h prompt chatOptions w with
      | (inl error, w1) =>
          let p4 := postMessage (PostError requestId (message error)) p3 in
          (set_pending (pending_delete requestId (pendingRequests p4)) p4, w1)
      | (inr (c, i), w1) =>
          let r := awaitAsk o c sessionId requestId evs (mkRunning i w1 p3) in
          (provider r, world r)
      end
  end.

(** the messages of the session that [find] returns *)
Definition messagesOf (sessionId : JsString) (p : Provider)
  : list ChatMessage :=
  match findSession sessionId (sessions p) with
  | Some s => messages s
  | None => []
  end.

(** the chunks of the output stream among the events *)
Definition answerChunks (evs : list ChatEvent) : list JsString :=
  flat_map (fun ev => match ev with ChildStdout d => [d] | _ => [] end) evs.

(** events of a child that runs and is not cancelled *)
Definition flowing (ev : ChatEvent) : bool :=
  match ev with
  | ChildStdout _ | ChildStderr _ => true
  | _ => false
  end.

(** the events that settle the promise of [ask] *)
Definition exits (ev : ChatEvent) : bool :=
  match ev with
  | ChildFailed _ | ChildClosed _ => true
  | _ => false
  end.

(** the [stream] messages among what was posted *)
Definition streamed (l : list Posted) : list JsString :=
  flat_map (fun x => match x with PostStream _ _ chunk => [chunk] | _ => [] end)
    l.

(** the [error] messages among what was posted *)
Definition errorsPosted (l : list Posted) : list JsString :=
  flat_map (fun x => match x with PostError _ m => [m] | _ => [] end) l.

(** the provider while chunks arrive: only the buffer of the request and
    what is posted change *)
Definition streamedTo (sessionId requestId : JsString) (chunks : list JsString)
  (p p' : Provider) : Prop :=
  sessions p' = sessions p
  /\ hasView p' = hasView p
  /\ readings p' = readings p
  /\ drawn p' = drawn p
  /\ posted p'
     = posted p
       ++ (if hasView p
           then map (PostStream sessionId requestId) chunks else [])
  /\ (forall pd,
        pending_get requestId (pendingRequests p) = Some pd ->
        pending_get requestId (pendingRequests p')
        = Some (mkPending (pending_sessionId pd)
                  (responseBuffer pd ++ List.concat chunks)))
  /\ activeSessionId p' = activeSessionId p.

Definition clientEvent (ev : ChatEvent) : Event :=
  match ev with
  | ChildStdout data => StdoutData data
  | ChildStderr data => StderrData data
  | ChildFailed error => ChildError error
  | ChildClosed code => ChildClose code
  | CancelMessage => CancellationRequested
  end.

End Chat.

(* ===================================================================== *)
(** ** UTF-8: encoding and decoding agree on well-formed text *)
(* ===================================================================== *)

Module Utf8Facts.
Import Js Utf8.

(** *** Bit operations as arithmetic *)

Lemma land_high_low k y n :
  0 <= n -> 0 <= y < 2 ^ n -> Z.land (k * 2 ^ n) y = 0.
Proof.
  intros Hn Hy. apply Z.bits_inj'. intros i Hi.
  rewrite Z.land_spec, Z.bits_0.
  destruct (Z.lt_ge_cases i n) as [Hlt|Hge].
  - rewrite Z.mul_pow2_bits_low by lia. reflexivity.
  - assert (Z.testbit y i = false) as ->; [|apply andb_false_r].
    apply Z.testbit_false; [lia|].
    rewrite Z.div_small; [reflexivity|].
    split; [lia|]. apply Z.lt_le_trans with (2 ^ n); [lia|].
    apply Z.pow_le_mono_r; lia.
Qed.

(** [a | y] where [a] has no bit among the low [n] and [y] only those *)
Lemma lor_lead a y n :
  0 <= n -> a mod 2 ^ n = 0 -> 0 <= y < 2 ^ n -> Z.lor a y = a + y.
Proof.
  intros Hn Ha Hy. pose proof (Z.add_lor_land a y) as H.
  assert (a = a / 2 ^ n * 2 ^ n) as E.
  { pose proof (Z.div_mod a (2 ^ n) ltac:(lia)). lia. }
  rewrite E in H at 2. rewrite land_high_low in H by assumption. lia.
Qed.

(** [(a + y) & m] for the mask [m] of the low [n] bits *)
Lemma land_lead a y m n :
  0 <= n -> m = 2 ^ n - 1 -> a mod 2 ^ n = 0 -> 0 <= y < 2 ^ n ->
  Z.land (a + y) m = y.
Proof.
  intros Hn -> Ha Hy. replace (2 ^ n - 1) with (Z.ones n)
    by (rewrite Z.ones_equiv; lia).
  rewrite Z.land_ones by assumption.
  rewrite Z.add_mod, Ha, Z.add_0_l, Z.mod_mod by lia.
  apply Z.mod_small. assumption.
Qed.

Lemma land_mask c m n : 0 <= n -> m = 2 ^ n - 1 -> Z.land c m = c mod 2 ^ n.
Proof.
  intros Hn ->. replace (2 ^ n - 1) with (Z.ones n)
    by (rewrite Z.ones_equiv; lia).
  now apply Z.land_ones.
Qed.

Ltac pow2 :=
  change (2 ^ 3) with 8 in *; change (2 ^ 4) with 16 in *;
  change (2 ^ 5) with 32 in *; change (2 ^ 6) with 64 in *;
  change (2 ^ 10) with 1024 in *; change (2 ^ 12) with 4096 in *;
  change (2 ^ 18) with 262144 in *.

Ltac zdiv := pow2; first [ reflexivity | lia | Z.div_mod_to_equations; lia ].

(** a continuation octet [128 | y] and its payload *)
Lemma cont_byte y : 0 <= y < 64 -> Z.lor 128 y = 128 + y.
Proof. intros H. apply (lor_lead 128 y 6); zdiv. Qed.

Lemma cont_payload y : 0 <= y < 64 -> Z.land (128 + y) 63 = y.
Proof. intros H. apply (land_lead 128 y 63 6); zdiv. Qed.

(** one more continuation octet shifted into the code point *)
Lemma shift_in cp y :
  0 <= y < 64 -> Z.lor (Z.shiftl cp 6) (Z.land (128 + y) 63) = cp * 64 + y.
Proof.
  intros H. rewrite cont_payload by assumption.
  rewrite Z.shiftl_mul_pow2 by lia. apply (lor_lead (cp * 2 ^ 6) y 6).
  - lia.
  - apply Z.mod_mul. lia.
  - exact H.
Qed.

(** comparisons whose outcome follows from the hypotheses *)
Ltac decide_cmp :=
  repeat match goal with
  | |- context [?a <=? ?b] =>
      first [ rewrite (proj2 (Z.leb_le a b)) by lia
            | rewrite (proj2 (Z.leb_gt a b)) by lia ]
  | |- context [?a <? ?b] =>
      first [ rewrite (proj2 (Z.ltb_lt a b)) by lia
            | rewrite (proj2 (Z.ltb_ge a b)) by lia ]
  | |- context [?a =? ?b] =>
      first [ rewrite (proj2 (Z.eqb_eq a b)) by lia
            | rewrite (proj2 (Z.eqb_neq a b)) by lia ]
  end; cbn [andb orb negb].

(** *** The encoder, octet by octet *)

Lemma encode_bmp_1 c : c < 128 -> encode_bmp c = [c].
Proof. intros H. unfold encode_bmp. now decide_cmp. Qed.

Lemma encode_bmp_2 c :
  128 <= c < 2048 -> encode_bmp c = [192 + c / 64; 128 + c mod 64].
Proof.
  intros H. unfold encode_bmp. decide_cmp.
  rewrite Z.shiftr_div_pow2 by lia.
  rewrite (land_mask c 63 6) by zdiv. pow2.
  rewrite cont_byte by zdiv.
  rewrite (lor_lead 192 (c / 64) 5) by zdiv.
  reflexivity.
Qed.

Lemma encode_bmp_3 c :
  2048 <= c < 65536 ->
  encode_bmp c = [224 + c / 4096; 128 + (c / 64) mod 64; 128 + c mod 64].
Proof.
  intros H. unfold encode_bmp. decide_cmp.
  rewrite !Z.shiftr_div_pow2 by lia.
  rewrite !(fun x => land_mask x 63 6) by zdiv. pow2.
  rewrite !cont_byte by zdiv.
  rewrite (lor_lead 224 (c / 4096) 4) by zdiv.
  reflexivity.
Qed.

Lemma encode_supplementary_4 hi lo :
  55296 <= hi <= 56319 -> 56320 <= lo <= 57343 ->
  let cp := pair_value hi lo in
  encode_supplementary hi lo =
  [240 + cp / 262144; 128 + (cp / 4096) mod 64;
   128 + (cp / 64) mod 64; 128 + cp mod 64].
Proof.
  intros Hhi Hlo cp. unfold encode_supplementary.
  rewrite Z.shiftl_mul_pow2 by lia. pow2.
  fold (pair_value hi lo). fold cp.
  assert (65536 <= cp < 1114112) as Hcp by (unfold cp, pair_value; lia).
  rewrite !Z.shiftr_div_pow2 by lia.
  rewrite !(fun x => land_mask x 63 6) by zdiv. pow2.
  rewrite !cont_byte by zdiv.
  rewrite (lor_lead 240 (cp / 262144) 3) by zdiv.
  reflexivity.
Qed.

(** *** The decoder on well-formed sequences *)

Lemma decode_from_cons st x t :
  decode_from st (x :: t) =
  let (out, st') := decoder_step st x in out ++ decode_from st' t.
Proof. reflexivity. Qed.

Lemma decode_1 c rest :
  0 <= c < 128 ->
  decode_from decoder_init (c :: rest) = c :: decode_from decoder_init rest.
Proof.
  intros H. rewrite decode_from_cons. unfold decoder_step, lead_byte.
  cbn [bytes_needed decoder_init]. now decide_cmp.
Qed.

(** a lead octet opens a sequence *)
Lemma decode_lead b st rest :
  lead_byte b = ([], st) ->
  decode_from decoder_init (b :: rest) = decode_from st rest.
Proof.
  intros H. rewrite decode_from_cons. unfold decoder_step.
  cbn [bytes_needed decoder_init]. decide_cmp. now rewrite H.
Qed.

(** a continuation octet that does not complete the sequence *)
Lemma decode_more cp seen needed lo hi y rest :
  0 <= y < 64 -> lo <= 128 + y <= hi -> needed <> 0 -> seen + 1 <> needed ->
  decode_from (mkDecoder cp seen needed lo hi) (128 + y :: rest) =
  decode_from (mkDecoder (cp * 64 + y) (seen + 1) needed 128 191) rest.
Proof.
  intros Hy Hr Hn Hs. rewrite decode_from_cons. unfold decoder_step.
  cbn [bytes_needed lower_boundary upper_boundary code_point bytes_seen].
  decide_cmp. rewrite shift_in by assumption. reflexivity.
Qed.

(** the continuation octet that completes the sequence *)
Lemma decode_last cp seen needed lo hi y rest :
  0 <= y < 64 -> lo <= 128 + y <= hi -> needed <> 0 -> seen + 1 = needed ->
  decode_from (mkDecoder cp seen needed lo hi) (128 + y :: rest) =
  (cp * 64 + y) :: decode_from decoder_init rest.
Proof.
  intros Hy Hr Hn Hs. rewrite decode_from_cons. unfold decoder_step.
  cbn [bytes_needed lower_boundary upper_boundary code_point bytes_seen].
  decide_cmp. rewrite shift_in by assumption. reflexivity.
Qed.

Lemma lead_2 x :
  2 <= x < 32 -> lead_byte (192 + x) = ([], mkDecoder x 0 1 128 191).
Proof.
  intros H. unfold lead_byte. decide_cmp.
  now rewrite (land_lead 192 x 31 5) by zdiv.
Qed.

Lemma lead_3 x :
  0 <= x < 16 ->
  lead_byte (224 + x) =
  ([], mkDecoder x 0 2 (if x =? 0 then 160 else 128)
                       (if x =? 13 then 159 else 191)).
Proof.
  intros H. unfold lead_byte. decide_cmp.
  rewrite (land_lead 224 x 15 4) by zdiv.
  destruct (Z.eqb_spec x 0); destruct (Z.eqb_spec x 13); now decide_cmp.
Qed.

Lemma lead_4 x :
  0 <= x <= 4 ->
  lead_byte (240 + x) =
  ([], mkDecoder x 0 3 (if x =? 0 then 144 else 128)
                       (if x =? 4 then 143 else 191)).
Proof.
  intros H. unfold lead_byte. decide_cmp.
  rewrite (land_lead 240 x 7 3) by zdiv.
  destruct (Z.eqb_spec x 0); destruct (Z.eqb_spec x 4); now decide_cmp.
Qed.

Lemma decode_2 x y rest :
  2 <= x < 32 -> 0 <= y < 64 ->
  decode_from decoder_init (192 + x :: 128 + y :: rest) =
  (x * 64 + y) :: decode_from decoder_init rest.
Proof.
  intros Hx Hy. rewrite (decode_lead _ _ _ (lead_2 x Hx)).
  apply decode_last; lia.
Qed.

Lemma decode_3 x y z rest :
  0 <= x < 16 -> 0 <= y < 64 -> 0 <= z < 64 ->
  (x = 0 -> 32 <= y) -> (x = 13 -> y < 32) ->
  decode_from decoder_init (224 + x :: 128 + y :: 128 + z :: rest) =
  ((x * 64 + y) * 64 + z) :: decode_from decoder_init rest.
Proof.
  intros Hx Hy Hz H0 H13. rewrite (decode_lead _ _ _ (lead_3 x Hx)).
  rewrite decode_more;
    [apply decode_last; lia | lia | | lia | lia].
  destruct (Z.eqb_spec x 0); destruct (Z.eqb_spec x 13); lia.
Qed.

Lemma decode_4 x y z u rest :
  0 <= x <= 4 -> 0 <= y < 64 -> 0 <= z < 64 -> 0 <= u < 64 ->
  (x = 0 -> 16 <= y) -> (x = 4 -> y < 16) ->
  decode_from decoder_init
    (240 + x :: 128 + y :: 128 + z :: 128 + u :: rest) =
  (((x * 64 + y) * 64 + z) * 64 + u) :: decode_from decoder_init rest.
Proof.
  intros Hx Hy Hz Hu H0 H4. rewrite (decode_lead _ _ _ (lead_4 x Hx)).
  rewrite decode_more; [| lia | | lia | lia].
  - rewrite decode_more by lia. apply decode_last; lia.
  - destruct (Z.eqb_spec x 0); destruct (Z.eqb_spec x 4); lia.
Qed.

(** *** Well-formed strings *)

Lemma wellFormed_ind (P : JsString -> Prop) :
  P [] ->
  (forall c t, 0 <= c < 65536 -> isHighSurrogate c = false ->
     isLowSurrogate c = false -> wellFormed t = true -> P t -> P (c :: t)) ->
  (forall hi lo t, isHighSurrogate hi = true -> isLowSurrogate lo = true ->
     wellFormed t = true -> P t -> P (hi :: lo :: t)) ->
  forall s, wellFormed s = true -> P s.
Proof.
  intros Hnil Hbmp Hpair s.
  induction s as [s IH] using (induction_ltof1 _ (@length Z)).
  unfold ltof in IH. destruct s as [|c t]; [intros _; exact Hnil|].
  cbn [wellFormed]. destruct (isHighSurrogate c) eqn:Hh.
  - destruct t as [|lo t']; [discriminate|].
    intros H. apply andb_true_iff in H as [Hl Hw].
    apply Hpair; auto. apply IH; [simpl; lia | exact Hw].
  - intros H. apply andb_true_iff in H as [H Hw].
    apply andb_true_iff in H as [H Hl]. apply andb_true_iff in H as [Hlo Hhi].
    apply Hbmp;
      [lia | exact Hh | now destruct (isLowSurrogate c) | exact Hw |].
    apply IH; [simpl; lia | exact Hw].
Qed.

Lemma from_bmp c t :
  isHighSurrogate c = false -> isLowSurrogate c = false ->
  from (c :: t) = encode_bmp c ++ from t.
Proof. intros Hh Hl. cbn [from]. now rewrite Hh, Hl. Qed.

Lemma from_pair hi lo t :
  isHighSurrogate hi = true -> isLowSurrogate lo = true ->
  from (hi :: lo :: t) = encode_supplementary hi lo ++ from t.
Proof. intros Hh Hl. cbn [from]. now rewrite Hh, Hl. Qed.

(** the encoding of a well-formed string does not depend on what follows *)
Lemma from_app a b : wellFormed a = true -> from (a ++ b) = from a ++ from b.
Proof.
  intros Ha. revert b. pattern a. revert a Ha. apply wellFormed_ind.
  - reflexivity.
  - intros c t _ Hh Hl _ IH b. rewrite <- app_comm_cons.
    rewrite !from_bmp by assumption. rewrite IH. apply app_assoc.
  - intros hi lo t Hh Hl _ IH b. rewrite <- !app_comm_cons.
    rewrite !from_pair by assumption. rewrite IH. apply app_assoc.
Qed.

Lemma surrogate_ranges hi lo :
  isHighSurrogate hi = true -> isLowSurrogate lo = true ->
  55296 <= hi <= 56319 /\ 56320 <= lo <= 57343.
Proof. unfold isHighSurrogate, isLowSurrogate. lia. Qed.

Lemma utf16_of_bmp c : c < 65536 -> utf16_of c = [c].
Proof. intros H. unfold utf16_of. now decide_cmp. Qed.

Lemma utf16_of_pair hi lo :
  55296 <= hi <= 56319 -> 56320 <= lo <= 57343 ->
  utf16_of (pair_value hi lo) = [hi; lo].
Proof.
  intros Hhi Hlo. unfold utf16_of, pair_value. decide_cmp.
  rewrite Z.shiftr_div_pow2 by lia.
  rewrite (land_mask _ 1023 10) by zdiv. pow2.
  f_equal; [zdiv | f_equal; zdiv].
Qed.

(** decoding the encoding of one BMP code point *)
Lemma decode_encode_bmp c rest :
  0 <= c < 65536 -> isHighSurrogate c = false -> isLowSurrogate c = false ->
  decode_from decoder_init (encode_bmp c ++ rest) =
  c :: decode_from decoder_init rest.
Proof.
  intros Hc Hh Hl. unfold isHighSurrogate, isLowSurrogate in *.
  destruct (Z.lt_ge_cases c 128); [|destruct (Z.lt_ge_cases c 2048)].
  - rewrite encode_bmp_1 by lia. apply decode_1. lia.
  - rewrite encode_bmp_2 by lia. cbn [app].
    rewrite decode_2 by zdiv. f_equal. zdiv.
  - rewrite encode_bmp_3 by lia. cbn [app].
    rewrite decode_3 by zdiv. f_equal. zdiv.
Qed.

(** decoding the encoding of a surrogate pair *)
Lemma decode_encode_pair hi lo rest :
  55296 <= hi <= 56319 -> 56320 <= lo <= 57343 ->
  decode_from decoder_init (encode_supplementary hi lo ++ rest) =
  pair_value hi lo :: decode_from decoder_init rest.
Proof.
  intros Hhi Hlo. rewrite encode_supplementary_4 by assumption. cbn [app].
  assert (65536 <= pair_value hi lo < 1114112) by (unfold pair_value; lia).
  rewrite decode_4 by zdiv. f_equal. zdiv.
Qed.

(** [toString] undoes [from] on well-formed strings *)
Proposition toString_from s : wellFormed s = true -> toString (from s) = s.
Proof.
  intros Hs. unfold toString. pattern s. revert s Hs. apply wellFormed_ind.
  - reflexivity.
  - intros c t Hc Hh Hl _ IH. rewrite from_bmp by assumption.
    rewrite decode_encode_bmp by assumption. cbn [flat_map].
    rewrite utf16_of_bmp by lia. now rewrite IH.
  - intros hi lo t Hh Hl _ IH. rewrite from_pair by assumption.
    destruct (surrogate_ranges hi lo Hh Hl) as [Hhi Hlo].
    rewrite decode_encode_pair by assumption. cbn [flat_map].
    rewrite utf16_of_pair by assumption. now rewrite IH.
Qed.

(** ASCII text is its own encoding *)
Lemma isAscii_from s : isAscii s -> from s = s.
Proof.
  induction 1 as [|c t Hc _ IH]; [reflexivity|].
  rewrite from_bmp by (unfold isHighSurrogate, isLowSurrogate; lia).
  rewrite encode_bmp_1 by lia. cbn [app]. now rewrite IH.
Qed.

Lemma isAscii_wellFormed s : isAscii s -> wellFormed s = true.
Proof.
  induction 1 as [|c t Hc _ IH]; [reflexivity|]. cbn [wellFormed].
  unfold isHighSurrogate, isLowSurrogate. decide_cmp. exact IH.
Qed.

End Utf8Facts.

(* ===================================================================== *)
(** ** The accumulator: ceiling and suffix *)
(* ===================================================================== *)

Module AccumulatorSpec.
Import Js Utf8 Accumulator Utf8Facts.

Lemma suffix_of_refl s : suffix_of s s.
Proof. now exists []. Qed.

Lemma suffix_of_app_r t s x : suffix_of t s -> suffix_of (t ++ x) (s ++ x).
Proof. intros [k ->]. exists k. now rewrite app_assoc. Qed.

Lemma suffix_of_trans a b c : suffix_of a b -> suffix_of b c -> suffix_of a c.
Proof. intros [k ->] [k' ->]. exists (k' ++ k). now rewrite app_assoc. Qed.

Lemma appendWithLimit_empty current limitBytes :
  appendWithLimit current [] limitBytes = current.
Proof. reflexivity. Qed.

Lemma appendWithLimit_fits current incoming limitBytes :
  byteLength (from (current ++ incoming)) <= limitBytes ->
  appendWithLimit current incoming limitBytes = current ++ incoming.
Proof.
  intros H. unfold appendWithLimit. destruct incoming as [|c t].
  - cbn [falsy]. now rewrite app_nil_r.
  - cbn [falsy]. now rewrite (proj2 (Z.leb_le _ _) H).
Qed.

(** what a truncating append returns when the cut is clean *)
Lemma appendWithLimit_cut current incoming limitBytes a b :
  incoming <> [] ->
  limitBytes < byteLength (from (current ++ incoming)) ->
  current ++ incoming = a ++ b ->
  wellFormed a = true -> wellFormed b = true ->
  byteLength (from a) = byteLength (from (current ++ incoming)) - limitBytes ->
  appendWithLimit current incoming limitBytes = b.
Proof.
  intros Hne Hover E Ha Hb Hlen. unfold appendWithLimit.
  destruct incoming as [|c t]; [contradiction|]. cbn [falsy].
  rewrite (proj2 (Z.leb_gt _ _) Hover).
  rewrite Z.max_r by lia.
  rewrite <- Hlen. rewrite E, from_app by assumption.
  unfold subarray, byteLength. rewrite Nat2Z.id.
  rewrite skipn_app, skipn_all, Nat.sub_diag. cbn [skipn app].
  now apply toString_from.
Qed.

(** one append: the ceiling and the suffix property *)
Lemma appendWithLimit_step current incoming limitBytes :
  byteLength (from current) <= limitBytes ->
  cleanCut current incoming limitBytes ->
  byteLength (from (appendWithLimit current incoming limitBytes)) <= limitBytes
  /\ suffix_of (appendWithLimit current incoming limitBytes)
               (current ++ incoming).
Proof.
  intros Hcur [-> | [Hfit | (a & b & E & Ha & Hb & Hlen)]].
  - rewrite appendWithLimit_empty, app_nil_r. split; [exact Hcur|].
    apply suffix_of_refl.
  - rewrite appendWithLimit_fits by exact Hfit. split; [exact Hfit|].
    apply suffix_of_refl.
  - destruct incoming as [|c t].
    { rewrite appendWithLimit_empty, app_nil_r. split; [exact Hcur|].
      apply suffix_of_refl. }
    destruct (Z.le_gt_cases (byteLength (from (current ++ c :: t))) limitBytes)
      as [Hfit|Hover].
    { rewrite appendWithLimit_fits by exact Hfit. split; [exact Hfit|].
      apply suffix_of_refl. }
    rewrite (appendWithLimit_cut current (c :: t) limitBytes a b)
      by (assumption || discriminate || lia).
    split; [|exists a; exact E].
    rewrite E, from_app in Hlen by assumption.
    unfold byteLength in *. rewrite length_app in Hlen. lia.
Qed.

Lemma accumulate_cons limitBytes current chunk rest :
  accumulate limitBytes current (chunk :: rest) =
  accumulate limitBytes (appendWithLimit current chunk limitBytes) rest.
Proof. reflexivity. Qed.

Lemma accumulate_invariant limitBytes chunks : forall current,
  byteLength (from current) <= limitBytes ->
  cleanRun limitBytes current chunks ->
  byteLength (from (accumulate limitBytes current chunks)) <= limitBytes
  /\ suffix_of (accumulate limitBytes current chunks)
               (current ++ List.concat chunks).
Proof.
  induction chunks as [|chunk rest IH]; intros current Hcur Hrun.
  - cbn. rewrite app_nil_r. split; [exact Hcur | apply suffix_of_refl].
  - destruct Hrun as [Hcut Hrun]. rewrite accumulate_cons.
    destruct (appendWithLimit_step _ _ _ Hcur Hcut) as [Hb Hs].
    destruct (IH _ Hb Hrun) as [Hb' Hs']. split; [exact Hb'|].
    cbn [List.concat]. rewrite app_assoc.
    eapply suffix_of_trans; [exact Hs'|]. now apply suffix_of_app_r.
Qed.

Lemma cleanRun_firstn limitBytes chunks : forall current n,
  cleanRun limitBytes current chunks ->
  cleanRun limitBytes current (firstn n chunks).
Proof.
  induction chunks as [|chunk rest IH]; intros current [|n] H;
    cbn [firstn cleanRun]; try exact I.
  destruct H as [Hc Hr]. split; [exact Hc | now apply IH].
Qed.

(** ASCII streams always cut cleanly *)
Lemma isAscii_app a b : isAscii a -> isAscii b -> isAscii (a ++ b).
Proof. intros Ha Hb. apply Forall_app. now split. Qed.

Lemma isAscii_suffix t s : suffix_of t s -> isAscii s -> isAscii t.
Proof. intros [k ->] H. apply Forall_app in H. tauto. Qed.

Lemma isAscii_cleanCut current incoming limitBytes :
  0 <= limitBytes -> isAscii current -> isAscii incoming ->
  cleanCut current incoming limitBytes.
Proof.
  intros Hl Hc Hi. pose proof (isAscii_app _ _ Hc Hi) as Hall.
  unfold cleanCut. cbv zeta.
  destruct (Z.le_gt_cases (byteLength (from (current ++ incoming))) limitBytes)
    as [Hfit|Hover]; [right; left; exact Hfit|].
  right; right. revert Hall Hover.
  generalize (current ++ incoming). intros combined Hall Hover.
  rewrite (isAscii_from _ Hall) in *. unfold byteLength in *.
  pose (k := Z.to_nat (Z.of_nat (length combined) - limitBytes)).
  rewrite <- (firstn_skipn k combined) in Hall.
  apply Forall_app in Hall as [Ha Hb].
  exists (firstn k combined), (skipn k combined).
  split; [symmetry; apply firstn_skipn|].
  split; [now apply isAscii_wellFormed|].
  split; [now apply isAscii_wellFormed|].
  rewrite (isAscii_from _ Ha), length_firstn. subst k. lia.
Qed.

Lemma isAscii_cleanRun limitBytes chunks : forall current,
  0 <= limitBytes -> isAscii current -> Forall isAscii chunks ->
  cleanRun limitBytes current chunks.
Proof.
  induction chunks as [|chunk rest IH]; intros current Hl Hc Hall;
    cbn [cleanRun]; [exact I|].
  inversion Hall as [|? ? Hchunk Hrest]; subst.
  pose proof (isAscii_cleanCut current chunk limitBytes Hl Hc Hchunk) as Hcut.
  split; [exact Hcut|]. apply IH; [exact Hl | | exact Hrest].
  destruct (Z.le_gt_cases (byteLength (from current)) limitBytes) as [Hb|Hb].
  - destruct (appendWithLimit_step _ _ _ Hb Hcut) as [_ Hs].
    eapply isAscii_suffix; [exact Hs|]. now apply isAscii_app.
  - (* an oversized start: the append still returns a suffix *)
    destruct chunk as [|c t]; [now rewrite appendWithLimit_empty|].
    destruct Hcut as [E | [Hfit | (a & b & E & Ha & Hb' & Hlen)]];
      [discriminate | |].
    + rewrite appendWithLimit_fits by exact Hfit. now apply isAscii_app.
    + destruct (Z.le_gt_cases (byteLength (from (current ++ c :: t))) limitBytes)
        as [Hfit|Hover].
      * rewrite appendWithLimit_fits by exact Hfit. now apply isAscii_app.
      * rewrite (appendWithLimit_cut current (c :: t) limitBytes a b)
          by (assumption || discriminate || lia).
        apply (isAscii_suffix b (current ++ c :: t)); [now exists a|].
        now apply isAscii_app.
Qed.

(** ASCII streams from an empty buffer stay under the ceiling *)
Corollary accumulate_ascii limitBytes chunks :
  0 <= limitBytes -> Forall isAscii chunks ->
  byteLength (from (accumulate limitBytes [] chunks)) <= limitBytes
  /\ suffix_of (accumulate limitBytes [] chunks) (List.concat chunks).
Proof.
  intros Hl Hall. apply (accumulate_invariant limitBytes chunks []).
  - exact Hl.
  - apply isAscii_cleanRun; [exact Hl | constructor | exact Hall].
Qed.

(** *** A cut through a code point *)

Lemma from_accented k :
  from (accented (S k)) = 195 :: 169 :: from (accented k).
Proof. reflexivity. Qed.

Lemma length_from_accented k :
  byteLength (from (accented k)) = 2 * Z.of_nat k + 1.
Proof.
  unfold byteLength. induction k as [|k IH]; [reflexivity|].
  rewrite from_accented. cbn [length]. lia.
Qed.

Lemma wellFormed_accented k : wellFormed (accented k) = true.
Proof. induction k as [|k IH]; [reflexivity | exact IH]. Qed.

(** a stray continuation octet decodes to U+FFFD *)
Lemma toString_stray rest : toString (169 :: rest) = 65533 :: toString rest.
Proof. reflexivity. Qed.

(** With an even ceiling of [2 k] octets, the last octet of the first
    U+00E9 is kept without its lead octet.  It comes back as U+FFFD, and
    the result is two octets over the ceiling. *)
Lemma appendWithLimit_split k :
  appendWithLimit [] (accented (S k)) (2 * Z.of_nat (S k))
  = 65533 :: accented k
  /\ byteLength
       (from (appendWithLimit [] (accented (S k)) (2 * Z.of_nat (S k))))
     = 2 * Z.of_nat (S k) + 2.
Proof.
  assert (appendWithLimit [] (accented (S k)) (2 * Z.of_nat (S k))
          = 65533 :: accented k) as E.
  { unfold appendWithLimit.
    replace (falsy (accented (S k))) with false by reflexivity.
    cbn [app]. pose proof (length_from_accented (S k)) as Hlen.
    rewrite (proj2 (Z.leb_gt _ _)) by lia.
    replace (Z.max 0 (byteLength (from (accented (S k))) - 2 * Z.of_nat (S k)))
      with 1 by lia.
    rewrite from_accented. unfold subarray.
    replace (Z.to_nat 1) with 1%nat by reflexivity. cbn [skipn].
    rewrite toString_stray, toString_from; [reflexivity|].
    apply wellFormed_accented. }
  split; [exact E|]. rewrite E.
  change (from (65533 :: accented k))
    with (encode_bmp 65533 ++ from (accented k)).
  pose proof (length_from_accented k) as Hlen.
  unfold byteLength in *. rewrite length_app.
  replace (length (encode_bmp 65533)) with 3%nat by reflexivity. lia.
Qed.

(** the same at 128 KiB, the smallest ceiling [ask] ever passes *)
Corollary appendWithLimit_split_at_floor :
  byteLength
    (from (appendWithLimit [] (accented (S (Z.to_nat 65535))) 131072))
  = 131074.
Proof.
  pose proof (proj2 (appendWithLimit_split (Z.to_nat 65535))) as H.
  replace (2 * Z.of_nat (S (Z.to_nat 65535))) with 131072 in H by lia.
  exact H.
Qed.

(** *** Every cut, on well-formed text *)
















(** Encoding two strings one after the other never takes fewer octets
    than encoding their concatenation: at the seam two unpaired surrogates
    (three octets each) can become one pair (four octets). *)
Lemma byteLength_from_app a : forall b,
  byteLength (from (a ++ b)) <= byteLength (from a) + byteLength (from b).
Proof.
  unfold byteLength.
  induction a as [a IH] using (induction_ltof1 _ (@length Z)).
  unfold ltof in IH. intros b. destruct a as [|c t]; [cbn; lia|].
  rewrite <- app_comm_cons. cbn [from].
  assert (forall hi lo, length (encode_supplementary hi lo) = 4%nat) as H4
    by reflexivity.
  assert (length replacementBytes = 3%nat) as H3 by reflexivity.
  destruct (isHighSurrogate c) eqn:Hh.
  - destruct t as [|lo t'].
    + cbn [app]. destruct b as [|lo t']; [cbn; lia|].
      destruct (isLowSurrogate lo) eqn:Hl.
      * assert (isHighSurrogate lo = false) as Hn
          by (unfold isHighSurrogate, isLowSurrogate in *; lia).
        cbn [from]. rewrite Hn, Hl. rewrite !length_app, H4, H3. lia.
      * rewrite length_app. lia.
    + rewrite <- app_comm_cons. destruct (isLowSurrogate lo).
      * specialize (IH t' ltac:(cbn; lia) b).
        rewrite !length_app. lia.
      * specialize (IH (lo :: t') ltac:(cbn; lia) b).
        rewrite <- app_comm_cons in IH. rewrite !length_app. lia.
  - specialize (IH t ltac:(cbn; lia) b).
    destruct (isLowSurrogate c); rewrite !length_app; lia.
Qed.

(** C3: an append whose result fits under the ceiling is the plain
    concatenation, whether the octets are counted on the concatenation, as
    the code does, or on the two parts; and an empty chunk leaves the
    buffer as it is. *)
Theorem appendWithLimit_under_limit :
  forall current incoming limitBytes,
    (byteLength (from (current ++ incoming)) <= limitBytes ->
     appendWithLimit current incoming limitBytes = current ++ incoming)
    /\ (byteLength (from current) + byteLength (from incoming) <= limitBytes ->
        appendWithLimit current incoming limitBytes = current ++ incoming)
    /\ appendWithLimit current [] limitBytes = current.
Proof.
  intros current incoming limitBytes. split; [|split].
  - apply appendWithLimit_fits.
  - intros H. apply appendWithLimit_fits.
    pose proof (byteLength_from_app current incoming). lia.
  - apply appendWithLimit_empty.
Qed.

Lemma appendWithLimit_under_limit_witness :
  appendWithLimit [104; 105] [233; 33] 5 = [104; 105; 233; 33]
  /\ appendWithLimit [104; 55357] [56832] 7 = [104; 55357; 56832].
Proof.
  split.
  - apply (proj1 (appendWithLimit_under_limit [104; 105] [233; 33] 5)).
    vm_compute. discriminate.
  - apply (proj1 (proj2 (appendWithLimit_under_limit [104; 55357] [56832] 7))).
    vm_compute. discriminate.
Defined.

(** C1, as the code has it: from a start that is within the ceiling, and
    as long as no append cuts through a code point, after every call the
    buffer encodes to at most [limitBytes] octets and is a suffix of the
    unbounded concatenation. *)
Theorem accumulate_ceiling :
  forall limitBytes current chunks,
    byteLength (from current) <= limitBytes ->
    cleanRun limitBytes current chunks ->
    forall n,
      let buffer := accumulate limitBytes current (firstn n chunks) in
      byteLength (from buffer) <= limitBytes
      /\ suffix_of buffer (current ++ List.concat (firstn n chunks)).
Proof.
  intros limitBytes current chunks Hcur Hrun n.
  apply accumulate_invariant; [exact Hcur|]. now apply cleanRun_firstn.
Qed.

Lemma accumulate_ceiling_witness :
  let buffer := accumulate 4 [] (firstn 2 [[233; 233; 233]; [97; 98]]) in
  byteLength (from buffer) <= 4
  /\ suffix_of buffer ([] ++ List.concat (firstn 2 [[233; 233; 233]; [97; 98]])).
Proof.
  apply (accumulate_ceiling 4 [] [[233; 233; 233]; [97; 98]]).
  - vm_compute. discriminate.
  - split; [|split; [|exact I]].
    + right; right. exists [233], [233; 233].
      repeat split; reflexivity.
    + right; right. exists [233], [233; 97; 98].
      repeat split; reflexivity.
Defined.

(** C1 as stated fails in two ways.  An empty chunk returns the buffer as
    it is, also one that is over the ceiling; and a cut through a code
    point leaves stray octets that decode to U+FFFD each, three octets
    where one was, so that the result is neither within the ceiling nor a
    suffix of what was appended. *)
Lemma appendWithLimit_over_ceiling :
  (0 < 3
   /\ appendWithLimit [97; 98; 99; 100] [] 3 = [97; 98; 99; 100]
   /\ byteLength (from (appendWithLimit [97; 98; 99; 100] [] 3)) = 4)
  /\ (appendWithLimit [] [233; 233] 3 = [65533; 233]
      /\ byteLength (from (appendWithLimit [] [233; 233] 3)) = 5
      /\ ~ suffix_of (appendWithLimit [] [233; 233] 3) ([] ++ [233; 233])).
Proof.
  repeat split; try reflexivity.
  intros [k E]. vm_compute in E.
  destruct k as [|x [|y [|z k]]]; discriminate.
Qed.

End AccumulatorSpec.

(* ===================================================================== *)
(** ** The resolver: tokens of a command line *)
(* ===================================================================== *)

Module ResolverSpec.
Import Js Resolver.

Lemma match_all_eq c t :
  match_all (c :: t) =
  match match_here (c :: t) with
  | Some (m, r) => m :: match_all r
  | None => match_all t
  end.
Proof.
  funelim (match_all (c :: t));
    try (match goal with Hc : _ = match_all _ |- _ => rewrite <- Hc end);
    match goal with Hg : match_here _ = _ |- _ => now rewrite Hg end.
Qed.
















(** *** quotes are removed from a word that is one quoted segment *)










End ResolverSpec.

(* ===================================================================== *)
(** ** The client: how an invocation ends *)
(* ===================================================================== *)

Module ClientSpec.
Import Js Utf8 Accumulator Resolver Client ResolverSpec.

Section Facts.
Variable h : Host.

(** *** [parseCommand] *)

Lemma parseCommand_empty commandLine w :
  commandLine = [] ->
  parseCommand h commandLine w =
  (inl (mkError (next_oid w) (lit "MeerAI CLI command is empty.") None),
   mkWorld (S (next_oid w)) (effects w)).
Proof. intros ->. reflexivity. Qed.

Lemma parseCommand_no_token commandLine w :
  commandLine <> [] -> segmentsOf commandLine = None ->
  parseCommand h commandLine w =
  (inl (mkError (next_oid w)
          (lit "Unable to parse MeerAI CLI command: " ++ [dquote]
           ++ commandLine ++ [dquote]) None),
   mkWorld (S (next_oid w)) (effects w)).
Proof.
  intros Hne Hs. unfold parseCommand. rewrite Hs.
  destruct commandLine; [contradiction | reflexivity].
Qed.

Lemma parseCommand_ok commandLine w parts w' :
  parseCommand h commandLine w = (inr parts, w') ->
  w' = w /\ exists first, segmentsOf commandLine = Some (first :: args parts).
Proof.
  unfold parseCommand. destruct (falsy commandLine); [discriminate|].
  destruct (segmentsOf commandLine) as [[|first rest]|]; try discriminate.
  unfold ret. intros H. injection H as <- <-. split; [reflexivity|].
  now exists first.
Qed.

(** *** [ask] up to the spawn *)

Lemma ask_start_ok question options w c i w1 :
  ask_start h question options w = (inr (c, i), w1) ->
  exists parts wd,
    parseCommand h (commandLineOf h) w = (inr parts, w) /\
    c = mkClosure (executable parts) (args parts ++ [lit "ask"; question]) wd
          (commandLineOf h) (maxBufferBytesOf h) options /\
    i = mkInvocation [] [] None
          (match token options with Some b => b | None => false end)
          (match token options with Some _ => true | None => false end)
          false /\
    next_oid w1 = next_oid w /\
    exists env,
      effects w1 = effects w ++
        [EnsureConfig;
         Spawn (mkSpawn (executable parts)
                  (args parts ++ [lit "ask"; question]) wd env false)].
Proof.
  unfold ask_start. cbv zeta. unfold bind at 1.
  destruct (parseCommand h (commandLineOf h) w) as [[e|parts] w0] eqn:Hp;
    [discriminate|].
  destruct (parseCommand_ok _ _ _ _ Hp) as [-> _].
  unfold bind at 1.
  set (chosen := match cwd options with
                 | Some d => Some d
                 | None => resolveWorkspaceRoot h
                 end).
  destruct chosen as [d|]; [|discriminate].
  destruct d as [|x d]; [discriminate|]. cbn [falsy]. unfold ret at 1.
  unfold bind at 1. unfold ensureMeerConfig, bind at 1, perform at 1.
  destruct (ensureMeerConfigError h); [discriminate|].
  unfold ret at 1. unfold bind, perform, ret, call. cbn [next_oid effects].
  intros H. injection H as <- <- <-.
  exists parts, (x :: d). repeat split; try reflexivity.
  eexists. cbn [effects]. rewrite <- app_assoc. reflexivity.
Qed.

(** *** the handlers *)

Lemma handle_keeps_settled c ev i w o :
  settled i = Some o -> settled (fst (handle c ev i w)) = Some o.
Proof.
  intros H. destruct ev; cbn [handle].
  - exact H.
  - exact H.
  - unfold on_error. destruct (normalizeError _ _ _ _ _ w) as [e w'].
    unfold settle, dispose. cbn [fst settled]. now rewrite H.
  - unfold on_close, alloc, settle, dispose.
    cbn [settled isCancellationRequested]. rewrite H.
    destruct (match exitCode with Some n => n =? 0 | None => false end);
      [reflexivity|].
    destruct (isCancellationRequested i); reflexivity.
  - unfold on_cancel.
    destruct (token (cl_options c)); [|exact H]. cbn [listening killed].
    destruct (listening i && negb (killed i)); exact H.
Qed.

Lemma deliver_keeps_settled c evs : forall i w o,
  settled i = Some o -> settled (fst (deliver c evs i w)) = Some o.
Proof.
  induction evs as [|ev rest IH]; intros i w o H; [exact H|].
  cbn [deliver]. pose proof (handle_keeps_settled c ev i w o H) as H'.
  destruct (handle c ev i w) as [i' w']. now apply IH.
Qed.

Lemma deliver_app c evs1 evs2 i w :
  deliver c (evs1 ++ evs2) i w =
  let (i', w') := deliver c evs1 i w in deliver c evs2 i' w'.
Proof.
  revert i w. induction evs1 as [|ev rest IH]; intros i w; [reflexivity|].
  cbn [app deliver]. destruct (handle c ev i w) as [i' w']. apply IH.
Qed.

Lemma onDataCalls_app a b :
  onDataCalls (a ++ b) = onDataCalls a ++ onDataCalls b.
Proof. apply flat_map_app. Qed.

(** what a stretch of stream events does to an invocation *)
Lemma deliver_streaming c pre : forall i w,
  forallb streaming pre = true ->
  let (i', w') := deliver c pre i w in
  settled i' = settled i
  /\ stdoutBuffer i' =
     accumulate (cl_maxBufferBytes c) (stdoutBuffer i) (stdoutChunks pre)
  /\ stderrBuffer i' =
     accumulate (cl_maxBufferBytes c) (stderrBuffer i) (stderrChunks pre)
  /\ isCancellationRequested i' =
     isCancellationRequested i
     || (match token (cl_options c) with Some _ => true | None => false end
         && existsb isCancel pre)
  /\ onDataCalls (effects w') =
     onDataCalls (effects w)
     ++ (if onData (cl_options c) then stdoutChunks pre else [])
  /\ next_oid w' = next_oid w.
Proof.
  induction pre as [|ev rest IH]; intros i w Hs.
  - cbn. rewrite ?andb_false_r, ?orb_false_r.
    destruct (onData (cl_options c)); rewrite app_nil_r;
      repeat split; reflexivity.
  - cbn [forallb] in Hs. apply andb_true_iff in Hs as [Hev Hrest].
    cbn [deliver].
    destruct (handle c ev i w) as [i1 w1] eqn:Hh.
    specialize (IH i1 w1 Hrest). destruct (deliver c rest i1 w1) as [i' w'].
    destruct IH as (H1 & H2 & H3 & H4 & H5 & H6).
    destruct ev; try discriminate; cbn [handle] in Hh.
    + unfold on_stdout in Hh. injection Hh as <- <-.
      cbn in H1, H2, H3, H4 |- *.
      repeat split; try assumption.
      * rewrite H5. destruct (onData (cl_options c)).
        -- cbn [call effects]. rewrite onDataCalls_app. cbn.
           now rewrite <- app_assoc.
        -- reflexivity.
      * rewrite H6. now destruct (onData (cl_options c)).
    + unfold on_stderr in Hh. injection Hh as <- <-.
      cbn in H1, H2, H3, H4 |- *.
      repeat split; try assumption.
      rewrite H5. cbn [call effects]. rewrite onDataCalls_app. cbn.
      now rewrite app_nil_r.
    + unfold on_cancel in Hh. destruct (token (cl_options c)) eqn:Ht.
      * cbn [listening killed] in Hh.
        destruct (listening i && negb (killed i));
          injection Hh as <- <-; cbn in H1, H2, H3, H4 |- *;
          repeat split; try assumption;
          try (rewrite H4; now rewrite orb_true_r).
        rewrite H5. cbn [call effects]. rewrite onDataCalls_app. cbn.
        now rewrite app_nil_r.
      * injection Hh as <- <-. cbn in H4 |- *.
        repeat split; assumption.
Qed.

Lemma cancelledBy_flag options pre :
  cancelledBy options pre =
  (match token options with Some b => b | None => false end)
  || (match token options with Some _ => true | None => false end
      && existsb isCancel pre).
Proof.
  unfold cancelledBy. destruct (token options) as [b|]; [|reflexivity].
  reflexivity.
Qed.

Lemma starts_ask_start question options w :
  starts h question options w = true ->
  exists c i w1, ask_start h question options w = (inr (c, i), w1).
Proof.
  unfold starts. destruct (ask_start h question options w) as [[e|[c i]] w1];
    [discriminate|]. intros _. now exists c, i, w1.
Qed.

(** A spawned invocation, after a stretch of stream events: still pending,
    with the two buffers accumulated and the token's flag as requested. *)
Lemma ask_streaming question options w c i w1 pre :
  ask_start h question options w = (inr (c, i), w1) ->
  forallb streaming pre = true ->
  exists i' w',
    deliver c pre i w1 = (i', w')
    /\ settled i' = None
    /\ stdoutBuffer i' = accumulate (maxBufferBytesOf h) [] (stdoutChunks pre)
    /\ stderrBuffer i' = accumulate (maxBufferBytesOf h) [] (stderrChunks pre)
    /\ isCancellationRequested i' = cancelledBy options pre
    /\ onDataCalls (effects w') =
       onDataCalls (effects w)
       ++ (if onData options then stdoutChunks pre else []).
Proof.
  intros Hstart Hpre.
  destruct (ask_start_ok _ _ _ _ _ _ Hstart)
    as (parts & wd & _ & Hc & Hi & _ & env & Heff).
  pose proof (deliver_streaming c pre i w1 Hpre) as H.
  destruct (deliver c pre i w1) as [i' w']. exists i', w'.
  destruct H as (H1 & H2 & H3 & H4 & H5 & _).
  rewrite cancelledBy_flag. subst c i. cbn in *.
  repeat split; try assumption.
  rewrite H5, Heff. unfold onDataCalls. rewrite flat_map_app. cbn.
  now rewrite app_nil_r.
Qed.

Lemma ask_unfold question options evs w c i w1 :
  ask_start h question options w = (inr (c, i), w1) ->
  ask h question options evs w =
  (settled (fst (deliver c evs i w1)), snd (deliver c evs i w1)).
Proof.
  intros H. unfold ask. rewrite H. now destruct (deliver c evs i w1).
Qed.

Lemma nonzero_code exitCode :
  exitCode <> Some 0 ->
  match exitCode with Some n => n =? 0 | None => false end = false.
Proof.
  destruct exitCode as [n|]; [|reflexivity]. intros H.
  apply Z.eqb_neq. congruence.
Qed.

(** close with code 0 *)
Lemma ask_close_zero question options w pre post :
  starts h question options w = true ->
  forallb streaming pre = true ->
  fst (ask h question options (pre ++ ChildClose (Some 0) :: post) w)
  = Some (Resolved
            (trim (accumulate (maxBufferBytesOf h) [] (stdoutChunks pre)))).
Proof.
  intros Hstart Hpre.
  destruct (starts_ask_start _ _ _ Hstart) as (c & i & w1 & Hs1).
  rewrite (ask_unfold _ _ _ _ _ _ _ Hs1). cbn [fst].
  destruct (ask_streaming _ _ _ _ _ _ pre Hs1 Hpre)
    as (i' & w' & Hd & Hs & Hout & _ & _ & _).
  rewrite deliver_app, Hd. cbn [deliver handle].
  unfold on_close. cbn [Z.eqb].
  apply deliver_keeps_settled. unfold settle, dispose.
  cbn [settled stdoutBuffer]. now rewrite Hs, Hout.
Qed.

(** close with another code, or none, after cancellation was requested *)
Lemma ask_close_cancelled question options w pre exitCode post :
  starts h question options w = true ->
  forallb streaming pre = true ->
  cancelledBy options pre = true ->
  exitCode <> Some 0 ->
  exists e,
    fst (ask h question options (pre ++ ChildClose exitCode :: post) w)
    = Some (Rejected e)
    /\ message e = lit "Request cancelled.".
Proof.
  intros Hstart Hpre Hc Hcode.
  destruct (starts_ask_start _ _ _ Hstart) as (c & i & w1 & Hs1).
  rewrite (ask_unfold _ _ _ _ _ _ _ Hs1). cbn [fst].
  destruct (ask_streaming _ _ _ _ _ _ pre Hs1 Hpre)
    as (i' & w' & Hd & Hs & _ & _ & Hflag & _).
  rewrite deliver_app, Hd. cbn [deliver handle].
  unfold on_close. rewrite (nonzero_code _ Hcode).
  unfold dispose at 1. cbn [isCancellationRequested].
  rewrite Hflag, Hc. unfold alloc.
  eexists. split.
  - apply deliver_keeps_settled. unfold settle, dispose. cbn [settled].
    rewrite Hs. reflexivity.
  - reflexivity.
Qed.

End Facts.









Lemma spawnRequests_app a b :
  spawnRequests (a ++ b) = spawnRequests a ++ spawnRequests b.
Proof. apply flat_map_app. Qed.

Lemma normalizeError_effects error executable cwd originalCommand args w :
  effects (snd (normalizeError error executable cwd originalCommand args w))
  = effects w.
Proof.
  unfold normalizeError, alloc.
  repeat match goal with |- context [if ?b then _ else _] => destruct b end;
    reflexivity.
Qed.



Lemma ask_start_failed h question options w e w1 :
  ask_start h question options w = (inl e, w1) ->
  spawnRequests (effects w1) = spawnRequests (effects w).
Proof.
  unfold ask_start. unfold bind at 1.
  destruct (parseCommand h _ w) as [[e0|parts] w0] eqn:Hp.
  - intros H. injection H as <- <-. revert Hp. unfold parseCommand.
    repeat match goal with
           | |- context [if ?b then _ else _] => destruct b
           | |- context [match ?x with _ => _ end] => destruct x
           end; unfold throw_new, bind, new_Error, alloc, throw, ret;
      intros H; inversion H; reflexivity.
  - destruct (parseCommand_ok _ _ _ _ _ Hp) as [-> _].
    unfold bind at 1.
    destruct (match cwd options with
              | Some d => Some d
              | None => resolveWorkspaceRoot h
              end) as [[|x d]|]; cbn [falsy];
      try (unfold throw_new, bind, new_Error, alloc, throw;
           intros H; inversion H; reflexivity).
    unfold ret at 1. unfold bind at 1, ensureMeerConfig, bind at 1, perform at 1.
    destruct (ensureMeerConfigError h).
    + unfold throw_new, bind, new_Error, alloc, throw, call. cbn.
      intros H. inversion H. cbn. rewrite spawnRequests_app. apply app_nil_r.
    + unfold ret at 1. unfold bind, perform, ret. discriminate.
Qed.




(** C7: with an empty (or blank) command setting the promise is rejected
    with [MeerAI CLI command is empty.], and with a command line in which
    the pattern finds no token it is rejected with the message that quotes
    the command line; in both cases nothing has been called, no child
    spawned. *)
Theorem unusable_command_rejected :
  forall h question options evs w,
    (commandLineOf h = [] ->
     exists e,
       ask h question options evs w
       = (Some (Rejected e), mkWorld (S (next_oid w)) (effects w))
       /\ message e = lit "MeerAI CLI command is empty.")
    /\ (commandLineOf h <> [] -> segmentsOf (commandLineOf h) = None ->
        exists e,
          ask h question options evs w
          = (Some (Rejected e), mkWorld (S (next_oid w)) (effects w))
          /\ message e =
             lit "Unable to parse MeerAI CLI command: " ++ [dquote]
             ++ commandLineOf h ++ [dquote]).
Proof.
  intros h question options evs w. split.
  - intros He. eexists. unfold ask, ask_start. fold (commandLineOf h).
    unfold bind at 1. rewrite (parseCommand_empty h _ w He).
    split; reflexivity.
  - intros Hne Hs. eexists. unfold ask, ask_start. fold (commandLineOf h).
    unfold bind at 1. rewrite (parseCommand_no_token h _ w Hne Hs).
    split; reflexivity.
Qed.

Lemma unusable_command_rejected_witness :
  (exists e,
     ask (mkHost (Some []) None false (fun _ => None) 58 (fun _ => false)
            (fun a b => a ++ [47] ++ b) (fun _ => false) None None None)
         (lit "ping") (mkOptions (Some (lit "/work")) None false) [] world0
     = (Some (Rejected e), mkWorld 1 [])
     /\ message e = lit "MeerAI CLI command is empty.")
  /\ (exists e,
        ask (mkHost (Some (lit "'")) None false (fun _ => None) 58
               (fun _ => false) (fun a b => a ++ [47] ++ b) (fun _ => false)
               None None None)
            (lit "ping") (mkOptions (Some (lit "/work")) None false) [] world0
        = (Some (Rejected e), mkWorld 1 [])
        /\ message e = lit "Unable to parse MeerAI CLI command: " ++ [dquote]
                       ++ lit "'" ++ [dquote]).
Proof.
  split.
  - apply (proj1 (unusable_command_rejected
                    (mkHost (Some []) None false (fun _ => None) 58
                       (fun _ => false) (fun a b => a ++ [47] ++ b)
                       (fun _ => false) None None None)
                    (lit "ping") (mkOptions (Some (lit "/work")) None false)
                    [] world0)).
    reflexivity.
  - apply (proj2 (unusable_command_rejected
                    (mkHost (Some (lit "'")) None false (fun _ => None) 58
                       (fun _ => false) (fun a b => a ++ [47] ++ b)
                       (fun _ => false) None None None)
                    (lit "ping") (mkOptions (Some (lit "/work")) None false)
                    [] world0)).
    + discriminate.
    + vm_compute. reflexivity.
Defined.

(** C8: a spawn failure with code ENOENT becomes a new error whose
    message contains the executable, the setting [meerai.cliCommand] and
    the working directory; an error with any code other than ENOENT and
    EINVAL, or with none, is returned as the same object, and nothing is
    allocated. *)
Theorem normalizeError_spec :
  forall error executable cwd originalCommand args w,
    (code error = Some (lit "ENOENT") ->
     exists e,
       normalizeError error executable cwd originalCommand args w
       = (e, mkWorld (S (next_oid w)) (effects w))
       /\ oid e = next_oid w
       /\ contains (message e) executable
       /\ contains (message e) (lit "meerai.cliCommand")
       /\ contains (message e) cwd)
    /\ (code error <> Some (lit "ENOENT") ->
        code error <> Some (lit "EINVAL") ->
        normalizeError error executable cwd originalCommand args w
        = (error, w)).
Proof.
  intros error executable cwd originalCommand args w. split.
  - intros Hc. unfold normalizeError. rewrite Hc, eqb_refl.
    eexists. split; [reflexivity|]. cbn [oid message].
    split; [reflexivity|]. split; [|split].
    + exists (lit "MeerAI CLI command not found: " ++ [dquote]). eexists.
      rewrite <- !app_assoc. reflexivity.
    + exists (lit "MeerAI CLI command not found: " ++ [dquote] ++ executable
              ++ [dquote] ++ lit ". Update the " ++ [dquote]). eexists.
      rewrite <- !app_assoc. reflexivity.
    + exists (lit "MeerAI CLI command not found: " ++ [dquote] ++ executable
              ++ [dquote] ++ lit ". Update the " ++ [dquote]
              ++ lit "meerai.cliCommand" ++ [dquote]
              ++ lit " setting or ensure the MeerAI CLI is installed. (cwd: ").
      exists (lit ")"). rewrite <- !app_assoc. reflexivity.
  - intros H1 H2. unfold normalizeError.
    destruct (code error) as [c|]; [|reflexivity].
    destruct (eqb c (lit "ENOENT")) eqn:E1.
    { apply eqb_eq in E1. congruence. }
    destruct (eqb c (lit "EINVAL")) eqn:E2.
    { apply eqb_eq in E2. congruence. }
    reflexivity.
Qed.

Lemma normalizeError_spec_witness :
  (exists e,
     normalizeError (mkError 7 (lit "spawn meer ENOENT") (Some (lit "ENOENT")))
       (lit "meer") (lit "/work") (lit "meer") [lit "ask"; lit "ping"]
       (mkWorld 8 [])
     = (e, mkWorld 9 [])
     /\ oid e = 8%nat
     /\ contains (message e) (lit "meer")
     /\ contains (message e) (lit "meerai.cliCommand")
     /\ contains (message e) (lit "/work"))
  /\ normalizeError (mkError 7 (lit "spawn meer EACCES") (Some (lit "EACCES")))
       (lit "meer") (lit "/work") (lit "meer") [lit "ask"; lit "ping"]
       (mkWorld 8 [])
     = (mkError 7 (lit "spawn meer EACCES") (Some (lit "EACCES")),
        mkWorld 8 []).
Proof.
  split.
  - apply (proj1 (normalizeError_spec
                    (mkError 7 (lit "spawn meer ENOENT") (Some (lit "ENOENT")))
                    (lit "meer") (lit "/work") (lit "meer")
                    [lit "ask"; lit "ping"] (mkWorld 8 []))).
    reflexivity.
  - apply (proj2 (normalizeError_spec
                    (mkError 7 (lit "spawn meer EACCES") (Some (lit "EACCES")))
                    (lit "meer") (lit "/work") (lit "meer")
                    [lit "ask"; lit "ping"] (mkWorld 8 []))); discriminate.
Defined.


(** a run that does spawn: the default command on the POSIX host *)
Example spawn_argument_vector_example :
  map spawn_args
    (spawnRequests
       (effects (snd (ask posix_host (lit "what is 'this'?")
                        (mkOptions None None false) [] world0))))
  = [[lit "ask"; lit "what is 'this'?"]].
Proof. vm_compute. reflexivity. Qed.

(** the not-found scenario: the promise is rejected with the normalized
    error, and the close that follows changes nothing *)
Example ask_executable_not_found :
  option_map
    (fun o => match o with Rejected e => message e | Resolved v => v end)
    (fst (ask (mkHost (Some (lit "definitely-not-a-real-binary")) None false
                 (fun _ => None) 58 (fun _ => false)
                 (fun a b => a ++ [47] ++ b) (fun _ => false)
                 None (Some [lit "/work"]) None)
              (lit "ping") (mkOptions None None false)
              [ChildError (mkError 0 (lit "spawn ENOENT") (Some (lit "ENOENT")));
               ChildClose (Some (-2))] (mkWorld 1 [])))
  = Some (lit "MeerAI CLI command not found: " ++ [dquote]
          ++ lit "definitely-not-a-real-binary" ++ [dquote]
          ++ lit ". Update the " ++ [dquote] ++ lit "meerai.cliCommand"
          ++ [dquote]
          ++ lit " setting or ensure the MeerAI CLI is installed. (cwd: /work)").
Proof. vm_compute. reflexivity. Qed.

End ClientSpec.

(* ===================================================================== *)
(** ** Further properties of the resolver, the client and its callers *)
(* ===================================================================== *)

Module ResolverMore.
Import Js Resolver Client Observe ResolverSpec.

(** *** the pattern finds a token wherever there is a plain character *)

Lemma match_here_plain c t :
  isPlain c = true -> match_here (c :: t) <> None.
Proof.
  intros H. unfold match_here, group, alt_plain. cbn [span]. rewrite H.
  destruct (span isPlain t) as [a b].
  destruct (group_star b). discriminate.
Qed.

Lemma match_all_plain s : hasPlain s = true -> match_all s <> [].
Proof.
  induction s as [s IH] using (induction_ltof1 _ (@length Z)).
  unfold ltof in IH. destruct s as [|c t]; [discriminate|].
  intros H. rewrite match_all_eq.
  destruct (match_here (c :: t)) as [[m r]|] eqn:E; [discriminate|].
  apply IH; [cbn; lia|].
  cbn [hasPlain existsb] in H. apply orb_true_iff in H as [H|H]; [|exact H].
  exfalso. now apply (match_here_plain c t H).
Qed.

(** *** [hasExecutableExtension] *)

Lemma toLowerCase_app a b : toLowerCase (a ++ b) = toLowerCase a ++ toLowerCase b.
Proof. apply map_app. Qed.

Lemma toLowerCase_length a : length (toLowerCase a) = length a.
Proof. apply length_map. Qed.

Lemma endsWith_app s suffix : endsWith (s ++ suffix) suffix = true.
Proof.
  unfold endsWith. rewrite length_app.
  replace (length s + length suffix - length suffix)%nat with (length s) by lia.
  rewrite skipn_app, skipn_all, Nat.sub_diag. cbn [skipn app].
  rewrite eqb_refl, andb_true_r. apply Nat.leb_le. lia.
Qed.

Lemma endsWith_inv s suffix :
  endsWith s suffix = true -> exists pre, s = pre ++ suffix.
Proof.
  unfold endsWith. intros H. apply andb_true_iff in H as [_ H].
  apply eqb_eq in H. remember (length s - length suffix)%nat as k.
  exists (firstn k s). rewrite <- H. symmetry. apply firstn_skipn.
Qed.

Lemma app_same_length {A} (a c b d : list A) :
  length a = length c -> a ++ b = c ++ d -> a = c /\ b = d.
Proof.
  revert c. induction a as [|x a IH]; intros [|y c] Hl E; try discriminate.
  - now split.
  - injection E as -> E. injection Hl as Hl.
    destruct (IH c Hl E) as [-> ->]. now split.
Qed.

Lemma hasExecutableExtension_app name ext :
  In (toLowerCase ext) executableExtensions ->
  hasExecutableExtension (name ++ ext) = true.
Proof.
  intros Hin. unfold hasExecutableExtension. fold executableExtensions.
  apply existsb_exists. exists (toLowerCase ext).
  split; [exact Hin|]. rewrite toLowerCase_app. apply endsWith_app.
Qed.

(** [hasExecutableExtension] holds exactly of the commands that end in
    [.cmd], [.exe], [.bat] or [.com], in any mix of upper and lower case. *)
Theorem hasExecutableExtension_iff :
  forall command,
    hasExecutableExtension command = true <->
    exists name ext,
      command = name ++ ext /\ In (toLowerCase ext) executableExtensions.
Proof.
  intros command. split.
  - unfold hasExecutableExtension. fold executableExtensions.
    rewrite existsb_exists.
    intros (x & Hin & He). apply endsWith_inv in He as [pre E].
    exists (firstn (length pre) command), (skipn (length pre) command).
    split; [symmetry; apply firstn_skipn|].
    assert (length pre = length (firstn (length pre) command)) as Hl.
    { rewrite length_firstn. apply (f_equal (@length Z)) in E.
      rewrite length_app, toLowerCase_length in E. lia. }
    rewrite <- (firstn_skipn (length pre) command) in E at 1.
    rewrite toLowerCase_app in E.
    apply app_same_length in E as [_ E];
      [now rewrite E | now rewrite toLowerCase_length].
  - intros (name & ext & -> & Hin). now apply hasExecutableExtension_app.
Qed.

End ResolverMore.

Module TrimFacts.
Import Js Utf8 Utf8Facts.

(** *** [trim] on well-formed text *)







End TrimFacts.

Module ClientMore.
Import TrimFacts.
Import Js Utf8 Accumulator Resolver Client Observe AccumulatorSpec ResolverSpec
       ResolverMore
       ClientSpec.

(** *** [split] undoes [join] *)

Lemma split1_aux_run sep cur x s :
  ~ In sep x ->
  split1_aux sep cur (x ++ s) = split1_aux sep (rev x ++ cur) s.
Proof.
  revert cur. induction x as [|c x IH]; intros cur Hn; [reflexivity|].
  cbn [app split1_aux]. rewrite (proj2 (Z.eqb_neq c sep)).
  - rewrite IH; [|intros Hin; apply Hn; now right].
    cbn [rev]. now rewrite <- app_assoc.
  - intros ->. apply Hn. now left.
Qed.

Lemma split1_aux_last sep cur x :
  ~ In sep x -> split1_aux sep cur x = [rev cur ++ x].
Proof.
  intros Hn. rewrite <- (app_nil_r x) at 1.
  rewrite split1_aux_run by exact Hn. cbn [split1_aux].
  now rewrite rev_app_distr, rev_involutive.
Qed.

Lemma split1_join sep entries :
  entries <> [] -> Forall (fun e => ~ In sep e) entries ->
  split1 sep (join [sep] entries) = entries.
Proof.
  unfold split1. intros Hne Hall.
  induction Hall as [|e rest He Hrest IH]; [contradiction|].
  destruct rest as [|e' rest'].
  - cbn [join]. now rewrite split1_aux_last by exact He.
  - change (join [sep] (e :: e' :: rest'))
      with (e ++ [sep] ++ join [sep] (e' :: rest')).
    rewrite split1_aux_run by exact He. cbn [app split1_aux].
    rewrite Z.eqb_refl, app_nil_r, rev_involutive. f_equal.
    apply IH. discriminate.
Qed.

(** *** [join] keeps every element *)

Lemma contains_app_l s t x : contains s x -> contains (s ++ t) x.
Proof.
  intros (pre & post & ->). exists pre, (post ++ t). now rewrite <- !app_assoc.
Qed.

Lemma contains_app_r s t x : contains t x -> contains (s ++ t) x.
Proof.
  intros (pre & post & ->). exists (s ++ pre), post. now rewrite <- !app_assoc.
Qed.

Lemma contains_refl x : contains x x.
Proof. exists [], []. now rewrite app_nil_r. Qed.

Lemma contains_join sep l x : In x l -> contains (join sep l) x.
Proof.
  induction l as [|y l IH]; [contradiction|]. intros [-> | Hin].
  - destruct l; [apply contains_refl|]. apply contains_app_l, contains_refl.
  - destruct l as [|z l]; [contradiction|].
    change (join sep (y :: z :: l)) with (y ++ sep ++ join sep (z :: l)).
    apply contains_app_r, contains_app_r, IH, Hin.
Qed.

(** The search of [commandExists]: an absolute candidate is looked up as
    it is; any other one is looked up in every entry of PATH, and is not
    found when PATH is not set. *)
Theorem commandExists_search :
  forall h candidate,
    (isAbsolute h candidate = true ->
     commandExists h candidate = existsSync h candidate)
    /\ (isAbsolute h candidate = false ->
        process_env h (lit "PATH") = None ->
        commandExists h candidate = false)
    /\ (forall entries,
          isAbsolute h candidate = false ->
          entries <> [] ->
          Forall (fun e => ~ In (delimiter h) e) entries ->
          process_env h (lit "PATH") = Some (join [delimiter h] entries) ->
          (commandExists h candidate = true <->
           exists e, In e entries
                     /\ existsSync h (path_join h e candidate) = true)).
Proof.
  intros h candidate. unfold commandExists. split; [|split].
  - now intros ->.
  - now intros -> ->.
  - intros entries -> Hne Hall ->. rewrite split1_join by assumption.
    apply existsb_exists.
Qed.

Lemma commandExists_search_witness :
  commandExists search_host (lit "meer.cmd") = true
  /\ commandExists search_host (lit "C:\meer.cmd") = false.
Proof.
  split.
  - apply (proj2 (proj2 (commandExists_search search_host (lit "meer.cmd")))
             [lit "C:\tools"; lit "D:\bin"]).
    + reflexivity.
    + discriminate.
    + repeat constructor; vm_compute; intuition discriminate.
    + reflexivity.
    + exists (lit "D:\bin"). split; [right; left; reflexivity | reflexivity].
  - rewrite (proj1 (commandExists_search search_host (lit "C:\meer.cmd")));
      reflexivity.
Defined.

(** *** [parseCommand] *)

Lemma segmentsOf_plain s :
  hasPlain s = true -> exists first rest, segmentsOf s = Some (first :: rest).
Proof.
  intros H. unfold segmentsOf. pose proof (match_all_plain s H) as Hm.
  destruct (match_all s) as [|m ms]; [contradiction|].
  now exists (unquote m), (map unquote ms).
Qed.

Lemma hasPlain_nonempty s : hasPlain s = true -> s <> [].
Proof. now destruct s. Qed.

(** A command line with at least one character that is neither white
    space nor a quote always parses: [parseCommand] throws only on lines
    made of white space and quotes. *)
Theorem parseCommand_parses :
  forall h commandLine w,
    (hasPlain commandLine = true ->
     exists parts, parseCommand h commandLine w = (inr parts, w))
    /\ (forall e w', parseCommand h commandLine w = (inl e, w') ->
        forallb (fun c => isWhiteSpace c || (c =? dquote) || (c =? squote))
                commandLine = true).
Proof.
  intros h commandLine w.
  assert (hasPlain commandLine = true ->
          exists parts, parseCommand h commandLine w = (inr parts, w)) as H1.
  { intros H. destruct (segmentsOf_plain _ H) as (first & rest & E).
    unfold parseCommand. rewrite E.
    destruct commandLine; [discriminate|]. cbn [falsy].
    eexists. reflexivity. }
  split; [exact H1|]. intros e w' Hf.
  destruct (hasPlain commandLine) eqn:Hp.
  - destruct (H1 eq_refl) as [parts E]. congruence.
  - clear -Hp. unfold hasPlain in Hp.
    induction commandLine as [|c t IH]; [reflexivity|].
    cbn [existsb forallb] in *. apply orb_false_iff in Hp as [Hc Ht].
    rewrite (IH Ht), andb_true_r. unfold isPlain in Hc.
    destruct (isWhiteSpace c), (c =? dquote), (c =? squote);
      try reflexivity; discriminate.
Qed.

Lemma parseCommand_parses_witness :
  exists parts,
    parseCommand posix_host (lit "node /opt/meer/cli.js") world0
    = (inr parts, world0).
Proof.
  apply (proj1 (parseCommand_parses posix_host (lit "node /opt/meer/cli.js")
                  world0)).
  reflexivity.
Defined.

(** The executable is the first token as written, whatever the file
    system holds, on every platform other than win32, and on win32 when the
    token ends in [.cmd], [.exe], [.bat] or [.com] in any letter case. *)
Theorem parseCommand_keeps_first :
  forall h commandLine name ext rest w,
    commandLine <> [] ->
    segmentsOf commandLine = Some ((name ++ ext) :: rest) ->
    win32 h = false \/ In (toLowerCase ext) executableExtensions ->
    parseCommand h commandLine w = (inr (mkParts (name ++ ext) rest), w).
Proof.
  intros h commandLine name ext rest w Hne Hs Hc. unfold parseCommand.
  rewrite Hs. destruct commandLine; [contradiction|]. cbn [falsy].
  destruct Hc as [-> | Hin]; [reflexivity|].
  rewrite (hasExecutableExtension_app name ext Hin).
  cbn [negb]. now rewrite andb_false_r.
Qed.

Lemma parseCommand_keeps_first_witness :
  parseCommand windows_host (lit "Meer.EXE --fast") world0
  = (inr (mkParts (lit "Meer" ++ lit ".EXE") [lit "--fast"]), world0).
Proof.
  apply (parseCommand_keeps_first windows_host (lit "Meer.EXE --fast")
           (lit "Meer") (lit ".EXE") [lit "--fast"] world0).
  - discriminate.
  - vm_compute. reflexivity.
  - right. right. left. reflexivity.
Defined.

(** The arguments, and whether the command line parses at all, are the
    same on every host; and the executable is the first token, or, on
    win32 only, the first token with [.cmd] appended. *)
Theorem parseCommand_across_hosts :
  forall h h' commandLine w parts,
    parseCommand h commandLine w = (inr parts, w) ->
    exists first parts',
      segmentsOf commandLine = Some (first :: args parts)
      /\ parseCommand h' commandLine w = (inr parts', w)
      /\ args parts' = args parts
      /\ (executable parts = first
          \/ (win32 h = true /\ executable parts = first ++ lit ".cmd"
              /\ commandExists h (first ++ lit ".cmd") = true)).
Proof.
  intros h h' commandLine w parts. unfold parseCommand.
  destruct (falsy commandLine); [discriminate|].
  destruct (segmentsOf commandLine) as [[|first rest]|]; try discriminate.
  unfold ret. intros H. injection H as <-. cbn [args executable].
  exists first. eexists. split; [reflexivity|]. split; [reflexivity|].
  split; [reflexivity|].
  destruct (win32 h); [|now left].
  destruct (hasExecutableExtension first); [now left|]. cbn [andb negb].
  destruct (commandExists h (first ++ lit ".cmd")) eqn:E; [|now left].
  right. now repeat split.
Qed.

Lemma parseCommand_across_hosts_witness :
  exists first parts',
    segmentsOf example_command
    = Some (first :: [lit "ask"; lit "hello world"; lit "x y"])
    /\ parseCommand posix_host example_command world0 = (inr parts', world0)
    /\ args parts' = [lit "ask"; lit "hello world"; lit "x y"]
    /\ (lit "meer.cmd" = first
        \/ (win32 windows_host = true /\ lit "meer.cmd" = first ++ lit ".cmd"
            /\ commandExists windows_host (first ++ lit ".cmd") = true)).
Proof.
  apply (parseCommand_across_hosts windows_host posix_host example_command
           world0
           (mkParts (lit "meer.cmd") [lit "ask"; lit "hello world"; lit "x y"])).
  vm_compute. reflexivity.
Defined.

(** *** [normalizeError] *)

(** A failure with code EINVAL becomes a new error whose message quotes
    the configured command line, names the working directory and shows the
    command to try: the executable followed by every argument in double
    quotes. *)
Theorem normalizeError_invalid :
  forall error executable cwd originalCommand args w,
    code error = Some (lit "EINVAL") ->
    exists e,
      normalizeError error executable cwd originalCommand args w
      = (e, mkWorld (S (next_oid w)) (effects w))
      /\ oid e = next_oid w
      /\ contains (message e) (quoted originalCommand)
      /\ contains (message e)
           (executable ++ lit " " ++ join (lit " ") (map quoted args))
      /\ (forall arg, In arg args -> contains (message e) (quoted arg))
      /\ contains (message e) (lit "from a terminal in " ++ cwd ++ lit ".").
Proof.
  intros error executable cwd originalCommand args w Hc.
  unfold normalizeError. rewrite Hc.
  replace (eqb (lit "EINVAL") (lit "ENOENT")) with false by reflexivity.
  rewrite eqb_refl. unfold alloc. eexists. split; [reflexivity|].
  cbn [oid message]. split; [reflexivity|].
  change (map (fun arg => [dquote] ++ arg ++ [dquote]) args)
    with (map quoted args).
  assert (contains
            (executable ++ lit " " ++ join (lit " ") (map quoted args)
             ++ [10; 10] ++ lit "from a terminal in " ++ cwd ++ lit ".")
            (executable ++ lit " " ++ join (lit " ") (map quoted args))) as Hcmd.
  { exists [], ([10; 10] ++ lit "from a terminal in " ++ cwd ++ lit ".").
    cbn [app]. now rewrite <- !app_assoc. }
  split; [|split; [|split]].
  - do 5 apply contains_app_r. eexists [], _. unfold quoted.
    cbn [app]. rewrite <- !app_assoc. reflexivity.
  - do 10 apply contains_app_r. exact Hcmd.
  - intros arg Hin. do 12 apply contains_app_r. apply contains_app_l.
    apply contains_join. now apply in_map.
  - do 14 apply contains_app_r. apply contains_refl.
Qed.

Lemma normalizeError_invalid_witness :
  exists e,
    normalizeError (mkError 3 (lit "spawn EINVAL") (Some (lit "EINVAL")))
      (lit "meer.cmd") (lit "C:\work") (lit "meer") [lit "ask"; lit "why?"]
      (mkWorld 4 [])
    = (e, mkWorld 5 [])
    /\ contains (message e)
         (lit "meer.cmd" ++ lit " "
          ++ join (lit " ") (map quoted [lit "ask"; lit "why?"])).
Proof.
  destruct (normalizeError_invalid
              (mkError 3 (lit "spawn EINVAL") (Some (lit "EINVAL")))
              (lit "meer.cmd") (lit "C:\work") (lit "meer")
              [lit "ask"; lit "why?"] (mkWorld 4 []) eq_refl)
    as (e & He & _ & _ & Hc & _).
  exists e. split; [exact He | exact Hc].
Defined.

(** Normalizing is idempotent: what [normalizeError] returns is returned
    as it is when it is normalized again.  One call creates at most one
    error object and calls nothing. *)
Theorem normalizeError_idempotent :
  forall error executable cwd originalCommand args w,
    let result := normalizeError error executable cwd originalCommand args w in
    normalizeError (fst result) executable cwd originalCommand args (snd result)
    = result
    /\ effects (snd result) = effects w
    /\ (next_oid w <= next_oid (snd result) <= S (next_oid w))%nat.
Proof.
  intros error executable cwd originalCommand args w. cbv zeta.
  destruct (normalizeError error executable cwd originalCommand args w)
    as [e w'] eqn:E.
  cbn [fst snd]. unfold normalizeError in E.
  destruct (match code error with
            | Some c => eqb c (lit "ENOENT") | None => false end) eqn:E1;
    [unfold alloc in E; injection E as <- <-; cbn [effects next_oid];
     repeat split; lia|].
  destruct (match code error with
            | Some c => eqb c (lit "EINVAL") | None => false end) eqn:E2;
    [unfold alloc in E; injection E as <- <-; cbn [effects next_oid];
     repeat split; lia|].
  injection E as <- <-. unfold normalizeError. rewrite E1, E2.
  repeat split; lia.
Qed.

(** *** [ask]: before the child is spawned *)

Section Start.
Variable h : Host.

(** [ask_start] when nothing throws *)
Lemma ask_start_spawns question options w parts wd :
  parseCommand h (commandLineOf h) w = (inr parts, w) ->
  workingDirectoryOf h options = Some wd ->
  wd <> [] ->
  ensureMeerConfigError h = None ->
  ask_start h question options w =
  (inr (mkClosure (executable parts) (args parts ++ [lit "ask"; question]) wd
          (commandLineOf h) (maxBufferBytesOf h) options,
        mkInvocation [] [] None
          (match token options with Some b => b | None => false end)
          (match token options with Some _ => true | None => false end)
          false),
   mkWorld (next_oid w)
     (effects w ++
      [EnsureConfig;
       Spawn (mkSpawn (executable parts) (args parts ++ [lit "ask"; question])
                wd (setenv (lit "FORCE_COLOR") (lit "0")
                      (setenv (lit "NO_COLOR") (lit "1") (process_env h)))
                false)])).
Proof.
  intros Hp Hwd Hne Hc. unfold ask_start. cbv zeta. unfold bind at 1.
  rewrite Hp. unfold bind at 1. unfold workingDirectoryOf in Hwd. rewrite Hwd.
  destruct wd as [|x d]; [contradiction|]. cbn [falsy]. unfold ret at 1.
  unfold bind at 1. unfold ensureMeerConfig, bind at 1, perform at 1.
  rewrite Hc. unfold ret at 1. unfold bind, perform, ret, call.
  cbn [next_oid effects]. now rewrite <- app_assoc.
Qed.

Lemma parses_parseCommand w :
  parses h = true ->
  exists parts, parseCommand h (commandLineOf h) w = (inr parts, w).
Proof.
  unfold parses, parseCommand. intros H. apply andb_true_iff in H as [H1 H2].
  apply negb_true_iff in H1. rewrite H1.
  destruct (segmentsOf (commandLineOf h)) as [[|first rest]|];
    try discriminate.
  eexists. reflexivity.
Qed.

Lemma parseCommand_parses_host w parts w' :
  parseCommand h (commandLineOf h) w = (inr parts, w') -> parses h = true.
Proof.
  unfold parses, parseCommand. destruct (falsy (commandLineOf h));
    [discriminate|].
  destruct (segmentsOf (commandLineOf h)) as [[|first rest]|];
    try discriminate.
  reflexivity.
Qed.

Lemma ask_start_no_directory question options w :
  parses h = true ->
  workingDirectoryOf h options = None \/ workingDirectoryOf h options = Some [] ->
  ask_start h question options w =
  (inl (mkError (next_oid w)
          (lit "MeerAI requires an open workspace folder.") None),
   mkWorld (S (next_oid w)) (effects w)).
Proof.
  intros Hp Hwd. destruct (parses_parseCommand w Hp) as [parts E].
  unfold ask_start. cbv zeta. unfold bind at 1. rewrite E. unfold bind at 1.
  unfold workingDirectoryOf in Hwd. destruct Hwd as [-> | ->]; reflexivity.
Qed.

Lemma ask_start_config_failure question options w wd msg :
  parses h = true ->
  workingDirectoryOf h options = Some wd ->
  wd <> [] ->
  ensureMeerConfigError h = Some msg ->
  ask_start h question options w =
  (inl (mkError (next_oid w) msg None),
   mkWorld (S (next_oid w)) (effects w ++ [EnsureConfig])).
Proof.
  intros Hp Hwd Hne Hc. destruct (parses_parseCommand w Hp) as [parts E].
  unfold ask_start. cbv zeta. unfold bind at 1. rewrite E. unfold bind at 1.
  unfold workingDirectoryOf in Hwd. rewrite Hwd.
  destruct wd as [|x d]; [contradiction|]. cbn [falsy]. unfold ret at 1.
  unfold bind at 1. unfold ensureMeerConfig, bind at 1, perform at 1.
  rewrite Hc. reflexivity.
Qed.

End Start.

(** Without a working directory nothing is started: when [options.cwd] is
    absent and no workspace folder is found, or the chosen directory is the
    empty string (an empty [options.cwd] does not fall back to the
    workspace), [ask] rejects with its own message, and neither
    [ensureMeerConfig] nor [spawn] is called. *)
Theorem ask_requires_working_directory :
  forall h question options evs w,
    parses h = true ->
    workingDirectoryOf h options = None
    \/ workingDirectoryOf h options = Some [] ->
    ask h question options evs w =
    (Some (Rejected (mkError (next_oid w)
                       (lit "MeerAI requires an open workspace folder.") None)),
     mkWorld (S (next_oid w)) (effects w)).
Proof.
  intros h question options evs w Hp Hwd. unfold ask.
  now rewrite (ask_start_no_directory h question options w Hp Hwd).
Qed.

Lemma ask_requires_working_directory_witness :
  ask posix_host (lit "ping") (mkOptions (Some []) None false)
    [ChildClose (Some 0)] world0
  = (Some (Rejected (mkError 0
                       (lit "MeerAI requires an open workspace folder.") None)),
     mkWorld 1 []).
Proof.
  apply (ask_requires_working_directory posix_host (lit "ping")
           (mkOptions (Some []) None false) [ChildClose (Some 0)] world0).
  - vm_compute. reflexivity.
  - right. reflexivity.
Defined.

(** When [ensureMeerConfig] fails, [ask] rejects with that failure; the
    configuration was asked for once and no child is spawned, whatever
    happens afterwards. *)
Theorem ask_configuration_failure :
  forall h question options evs w wd msg,
    parses h = true ->
    workingDirectoryOf h options = Some wd ->
    wd <> [] ->
    ensureMeerConfigError h = Some msg ->
    exists e w',
      ask h question options evs w = (Some (Rejected e), w')
      /\ message e = msg
      /\ effects w' = effects w ++ [EnsureConfig].
Proof.
  intros h question options evs w wd msg Hp Hwd Hne Hc. unfold ask.
  rewrite (ask_start_config_failure h question options w wd msg
             Hp Hwd Hne Hc).
  eexists. eexists. split; [reflexivity|]. split; reflexivity.
Qed.

Lemma ask_configuration_failure_witness :
  exists e w',
    ask readonly_host (lit "ping") (mkOptions None None false)
      [ChildClose (Some 0)] world0 = (Some (Rejected e), w')
    /\ message e
       = lit "Unable to read MeerAI config (/home/dev/.meer/config.yaml): EACCES"
    /\ effects w' = effects world0 ++ [EnsureConfig].
Proof.
  apply (ask_configuration_failure readonly_host (lit "ping")
           (mkOptions None None false) [ChildClose (Some 0)] world0
           (lit "/work")).
  - vm_compute. reflexivity.
  - reflexivity.
  - discriminate.
  - reflexivity.
Defined.

Lemma starts_inv h question options w :
  starts h question options w = true ->
  parses h = true
  /\ (exists wd, workingDirectoryOf h options = Some wd /\ wd <> [])
  /\ ensureMeerConfigError h = None.
Proof.
  intros H. destruct (starts_ask_start h question options w H)
    as (c & i & w1 & E).
  destruct (ask_start_ok h question options w c i w1 E)
    as (parts & wd & Hp & _).
  pose proof (parseCommand_parses_host h w parts w Hp) as Hparses.
  split; [exact Hparses|].
  destruct (workingDirectoryOf h options) as [[|x d]|] eqn:Hwd.
  - rewrite (ask_start_no_directory h question options w Hparses) in E
      by (now right). discriminate.
  - split; [now exists (x :: d)|].
    destruct (ensureMeerConfigError h) as [msg|] eqn:Hc; [|reflexivity].
    rewrite (ask_start_config_failure h question options w (x :: d) msg
               Hparses Hwd) in E by (discriminate || assumption).
    discriminate.
  - rewrite (ask_start_no_directory h question options w Hparses) in E
      by (now left). discriminate.
Qed.


(** The child is started once, after the configuration was ensured, with
    the resolved executable, in the chosen working directory, without a
    shell, and in the environment of the extension host with [NO_COLOR]
    set to 1 and [FORCE_COLOR] set to 0. *)
Theorem spawn_request :
  forall h question options w parts wd,
    parseCommand h (commandLineOf h) w = (inr parts, w) ->
    workingDirectoryOf h options = Some wd ->
    wd <> [] ->
    ensureMeerConfigError h = None ->
    exists req,
      effects (snd (ask h question options [] w))
      = effects w ++ [EnsureConfig; Spawn req]
      /\ spawn_file req = executable parts
      /\ spawn_args req = args parts ++ [lit "ask"; question]
      /\ spawn_cwd req = wd
      /\ spawn_shell req = false
      /\ spawn_env req (lit "NO_COLOR") = Some (lit "1")
      /\ spawn_env req (lit "FORCE_COLOR") = Some (lit "0")
      /\ (forall name,
            name <> lit "NO_COLOR" -> name <> lit "FORCE_COLOR" ->
            spawn_env req name = process_env h name).
Proof.
  intros h question options w parts wd Hp Hwd Hne Hc. unfold ask.
  rewrite (ask_start_spawns h question options w parts wd Hp Hwd Hne Hc).
  cbn [deliver snd effects]. eexists. split; [reflexivity|].
  cbn [spawn_file spawn_args spawn_cwd spawn_shell spawn_env].
  repeat split.
  intros name H1 H2. unfold setenv.
  destruct (eqb name (lit "FORCE_COLOR")) eqn:E1;
    [apply eqb_eq in E1; contradiction|].
  destruct (eqb name (lit "NO_COLOR")) eqn:E2;
    [apply eqb_eq in E2; contradiction|].
  reflexivity.
Qed.

Lemma spawn_request_witness :
  exists req,
    effects (snd (ask windows_host (lit "ping")
                    (mkOptions None None false) [] world0))
    = effects world0 ++ [EnsureConfig; Spawn req]
    /\ spawn_file req = lit "meer.cmd"
    /\ spawn_cwd req = lit "C:\work"
    /\ spawn_env req (lit "PATH") = Some (lit "C:\tools;C:\bin").
Proof.
  destruct (spawn_request windows_host (lit "ping")
              (mkOptions None None false) world0
              (mkParts (lit "meer.cmd") []) (lit "C:\work"))
    as (req & H1 & H2 & _ & H4 & _ & _ & _ & H8).
  - vm_compute. reflexivity.
  - reflexivity.
  - discriminate.
  - reflexivity.
  - exists req. repeat split; try assumption.
    rewrite H8 by discriminate. reflexivity.
Defined.

(** *** [ask]: the handlers, for any sequence of events *)

Lemma outputAppends_app a b :
  outputAppends (a ++ b) = outputAppends a ++ outputAppends b.
Proof. apply flat_map_app. Qed.

Lemma killCalls_app a b : killCalls (a ++ b) = (killCalls a + killCalls b)%nat.
Proof. unfold killCalls. now rewrite filter_app, length_app. Qed.

(** what one handler appends to the effects *)
Lemma handle_effects c ev i w :
  effects (snd (handle c ev i w)) = effects w ++ emitted c ev i.
Proof.
  destruct ev; cbn [handle emitted].
  - unfold on_stdout, call. cbn [snd].
    destruct (onData (cl_options c)); [reflexivity|]. now rewrite app_nil_r.
  - reflexivity.
  - unfold on_error.
    pose proof (normalizeError_effects error (cl_executable c)
                  (cl_workingDirectory c) (cl_commandLine c) (cl_spawnArgs c) w)
      as He.
    destruct (normalizeError _ _ _ _ _ w) as [e w']. cbn [snd] in *.
    now rewrite He, app_nil_r.
  - unfold on_close, alloc. rewrite app_nil_r.
    repeat match goal with |- context [if ?b then _ else _] => destruct b end;
      reflexivity.
  - unfold on_cancel, call.
    destruct (token (cl_options c)); [|now rewrite app_nil_r].
    cbn [listening killed].
    destruct (listening i && negb (killed i)); cbn [snd effects];
      [reflexivity | now rewrite app_nil_r].
Qed.

Lemma emitted_outputs c ev i :
  outputAppends (emitted c ev i) = stderrChunks [ev]
  /\ onDataCalls (emitted c ev i)
     = (if onData (cl_options c) then stdoutChunks [ev] else []).
Proof.
  destruct ev; cbn [emitted stderrChunks stdoutChunks flat_map app];
    repeat match goal with |- context [if ?b then _ else _] => destruct b end;
    split; reflexivity.
Qed.

Lemma stdoutChunks_cons ev evs :
  stdoutChunks (ev :: evs) = stdoutChunks [ev] ++ stdoutChunks evs.
Proof. unfold stdoutChunks. cbn [flat_map]. now rewrite app_nil_r. Qed.

Lemma stderrChunks_cons ev evs :
  stderrChunks (ev :: evs) = stderrChunks [ev] ++ stderrChunks evs.
Proof. unfold stderrChunks. cbn [flat_map]. now rewrite app_nil_r. Qed.

Lemma deliver_outputs c evs : forall i w,
  outputAppends (effects (snd (deliver c evs i w)))
  = outputAppends (effects w) ++ stderrChunks evs
  /\ onDataCalls (effects (snd (deliver c evs i w)))
     = onDataCalls (effects w)
       ++ (if onData (cl_options c) then stdoutChunks evs else []).
Proof.
  induction evs as [|ev rest IH]; intros i w.
  - cbn. destruct (onData (cl_options c)); now rewrite !app_nil_r.
  - cbn [deliver]. pose proof (handle_effects c ev i w) as Hh.
    destruct (handle c ev i w) as [i' w']. cbn [snd] in Hh.
    destruct (IH i' w') as [H1 H2]. rewrite H1, H2, Hh.
    rewrite outputAppends_app, onDataCalls_app.
    destruct (emitted_outputs c ev i) as [-> ->].
    rewrite (stdoutChunks_cons ev rest), (stderrChunks_cons ev rest).
    rewrite <- !app_assoc.
    destruct (onData (cl_options c)); split; reflexivity.
Qed.

Lemma ask_start_outputs h question options w r w1 :
  ask_start h question options w = (r, w1) ->
  outputAppends (effects w1) = outputAppends (effects w)
  /\ onDataCalls (effects w1) = onDataCalls (effects w)
  /\ killCalls (effects w1) = killCalls (effects w).
Proof.
  destruct r as [e|[c i]].
  - unfold ask_start. unfold bind at 1.
    destruct (parseCommand h _ w) as [[e0|parts] w0] eqn:Hp.
    + intros H. injection H as <- <-. revert Hp. unfold parseCommand.
      repeat match goal with
             | |- context [if ?b then _ else _] => destruct b
             | |- context [match ?x with _ => _ end] => destruct x
             end; unfold throw_new, bind, new_Error, alloc, throw, ret;
        intros H; inversion H; repeat split; reflexivity.
    + destruct (parseCommand_ok _ _ _ _ _ Hp) as [-> _].
      unfold bind at 1.
      destruct (match cwd options with
                | Some d => Some d
                | None => resolveWorkspaceRoot h
                end) as [[|x d]|]; cbn [falsy];
        try (unfold throw_new, bind, new_Error, alloc, throw;
             intros H; inversion H; repeat split; reflexivity).
      unfold ret at 1. unfold bind at 1, ensureMeerConfig, bind at 1,
        perform at 1.
      destruct (ensureMeerConfigError h).
      * unfold throw_new, bind, new_Error, alloc, throw, call. cbn.
        intros H. inversion H. cbn [effects].
        rewrite outputAppends_app, onDataCalls_app, killCalls_app.
        cbn. rewrite !app_nil_r. repeat split; lia.
      * unfold ret at 1. unfold bind, perform, ret. discriminate.
  - intros E. destruct (ask_start_ok h question options w c i w1 E)
      as (parts & wd & _ & _ & _ & _ & env & ->).
    rewrite outputAppends_app, onDataCalls_app, killCalls_app. cbn.
    rewrite !app_nil_r. repeat split; lia.
Qed.

(** Every chunk the child writes is passed on as it arrives, whatever
    else happens: the chunks of the error stream go to the output channel,
    those of the output stream to [onData] when the caller gave one, each
    in the order of arrival; nothing else is written to either. *)
Theorem ask_passes_chunks_on :
  forall h question options evs w,
    starts h question options w = true ->
    let after := effects (snd (ask h question options evs w)) in
    outputAppends after = outputAppends (effects w) ++ stderrChunks evs
    /\ onDataCalls after
       = onDataCalls (effects w)
         ++ (if onData options then stdoutChunks evs else []).
Proof.
  intros h question options evs w Hs.
  destruct (starts_ask_start h question options w Hs) as (c & i & w1 & E).
  cbv zeta. rewrite (ask_unfold h question options evs w c i w1 E).
  cbn [snd]. destruct (deliver_outputs c evs i w1) as [H1 H2].
  destruct (ask_start_outputs h question options w _ w1 E) as (H3 & H4 & _).
  destruct (ask_start_ok h question options w c i w1 E)
    as (parts & wd & _ & -> & _).
  cbn [cl_options] in *. now rewrite H1, H2, H3, H4.
Qed.

Lemma ask_passes_chunks_on_witness :
  let after :=
    effects (snd (ask posix_host (lit "ping") (mkOptions None None true)
                    [StderrData (lit "loading"); StdoutData (lit "po");
                     StderrData (lit "..."); StdoutData (lit "ng");
                     ChildClose (Some 0)] world0)) in
  outputAppends after = [lit "loading"; lit "..."]
  /\ onDataCalls after = [lit "po"; lit "ng"].
Proof.
  apply (ask_passes_chunks_on posix_host (lit "ping")
           (mkOptions None None true)
           [StderrData (lit "loading"); StdoutData (lit "po");
            StderrData (lit "..."); StdoutData (lit "ng");
            ChildClose (Some 0)] world0).
  vm_compute. reflexivity.
Defined.

(** *** [ask]: killing the child *)

Lemma handle_kills c ev i w :
  let i' := fst (handle c ev i w) in
  (killCalls (emitted c ev i) + killedCount i = killedCount i')%nat
  /\ (listening i = false -> listening i' = false)
  /\ (streaming ev = false -> listening i' = false)
  /\ (isCancel ev = false -> killed i' = killed i)
  /\ (streaming ev = true -> isCancel ev = false ->
      listening i' = listening i).
Proof.
  unfold killedCount.
  destruct ev; cbn [handle emitted streaming isCancel].
  - unfold on_stdout. destruct (onData (cl_options c)); cbn;
      repeat split; auto; discriminate.
  - unfold on_stderr. cbn. repeat split; auto; discriminate.
  - unfold on_error. destruct (normalizeError _ _ _ _ _ w) as [e w'].
    unfold settle, dispose. cbn [fst settled].
    destruct (settled i); cbn; repeat split; auto; discriminate.
  - unfold on_close, alloc, settle, dispose.
    cbn [settled isCancellationRequested stdoutBuffer stderrBuffer].
    destruct (match exitCode with Some n => n =? 0 | None => false end);
      [|destruct (isCancellationRequested i)];
      destruct (settled i); cbn; repeat split; auto; discriminate.
  - unfold on_cancel. destruct (token (cl_options c));
      [|cbn; repeat split; auto; discriminate].
    cbn [listening killed].
    destruct (listening i) eqn:El, (killed i) eqn:Ek; cbn;
      rewrite ?El, ?Ek; repeat split; auto; discriminate.
Qed.

Lemma deliver_kills c evs : forall i w,
  let r := deliver c evs i w in
  (killCalls (effects (snd r)) + killedCount i
   = killCalls (effects w) + killedCount (fst r))%nat
  /\ (killedCount i <= killedCount (fst r))%nat
  /\ (listening i = false ->
      listening (fst r) = false
      /\ killCalls (effects (snd r)) = killCalls (effects w))
  /\ (forallb streaming evs = true -> existsb isCancel evs = false ->
      listening (fst r) = listening i /\ killed (fst r) = killed i).
Proof.
  induction evs as [|ev rest IH]; intros i w; cbv zeta.
  - cbn. repeat split; auto.
  - cbn [deliver]. pose proof (handle_effects c ev i w) as He.
    pose proof (handle_kills c ev i w) as Hk. cbv zeta in Hk.
    destruct (handle c ev i w) as [i' w']. cbn [fst snd] in He, Hk.
    destruct Hk as (K1 & K2 & K3 & K4 & K5).
    specialize (IH i' w'). cbv zeta in IH.
    destruct IH as (I1 & I0 & I2 & I3).
    rewrite He, killCalls_app in I1, I2.
    split; [lia|]. split; [lia|]. split.
    + intros Hl. destruct (I2 (K2 Hl)) as [L1 L2]. split; [exact L1|].
      assert (killCalls (emitted c ev i) = 0)%nat as Hz.
      { destruct ev; cbn [emitted]; try reflexivity.
        - now destruct (onData (cl_options c)).
        - rewrite Hl. now destruct (token (cl_options c)). }
      lia.
    + cbn [forallb existsb]. intros Hs Hc.
      apply andb_true_iff in Hs as [Hs1 Hs2].
      apply orb_false_iff in Hc as [Hc1 Hc2].
      destruct (I3 Hs2 Hc2) as [-> ->]. split; auto.
Qed.

Lemma deliver_app_fst c evs1 evs2 i w :
  deliver c (evs1 ++ evs2) i w
  = deliver c evs2 (fst (deliver c evs1 i w)) (snd (deliver c evs1 i w)).
Proof. rewrite deliver_app. now destruct (deliver c evs1 i w). Qed.

(** The child is killed at most once, and only by a cancellation: there
    is no [kill] for a caller without a token, nor while no cancellation
    is requested. *)
Theorem kill_only_on_cancellation :
  forall h question options evs w,
    let after := effects (snd (ask h question options evs w)) in
    (killCalls after <= S (killCalls (effects w)))%nat
    /\ (token options = None \/ existsb isCancel evs = false ->
        killCalls after = killCalls (effects w)).
Proof.
  intros h question options evs w. cbv zeta. unfold ask.
  destruct (ask_start h question options w) as [[e|[c i]] w1] eqn:E;
    destruct (ask_start_outputs h question options w _ w1 E) as (_ & _ & Hk).
  - cbn [snd]. split; [lia | intros _; exact Hk].
  - destruct (ask_start_ok h question options w c i w1 E)
      as (parts & wd & _ & Hc & Hi & _).
    pose proof (deliver_kills c evs i w1) as D. cbv zeta in D.
    destruct (deliver c evs i w1) as [i' w'] eqn:Ed. cbn [fst snd] in *.
    destruct D as (D1 & _ & D2 & D3).
    assert (killedCount i = 0)%nat as Hi0 by (now rewrite Hi).
    assert (killedCount i' <= 1)%nat as Hi1
      by (unfold killedCount; destruct (killed i'); lia).
    split; [lia|]. intros [Ht | Hn].
    + rewrite <- Hk. apply D2. rewrite Hi, Ht. reflexivity.
    + clear D2 D3 Hi1. revert i w1 i' w' Hi0 Ed D1 E Hk Hi.
      intros i w1 i' w' Hi0 Ed D1 _ Hk _. rewrite <- Hk. clear Hk.
      revert i w1 i' w' Hi0 Ed D1. induction evs as [|ev rest IH];
        intros i w1 i' w' Hi0 Ed D1.
      * cbn in Ed. now injection Ed as <- <-.
      * cbn [existsb] in Hn. apply orb_false_iff in Hn as [Hn1 Hn2].
        cbn [deliver] in Ed. pose proof (handle_effects c ev i w1) as He.
        pose proof (handle_kills c ev i w1) as Hh. cbv zeta in Hh.
        destruct (handle c ev i w1) as [i1 w2]. cbn [fst snd] in He, Hh.
        destruct Hh as (K1 & _ & _ & K4 & _).
        assert (killedCount i1 = 0)%nat as Hi10
          by (unfold killedCount in *; now rewrite (K4 Hn1)).
        pose proof (deliver_kills c rest i1 w2) as D. cbv zeta in D.
        rewrite Ed in D. cbn [fst snd] in D. destruct D as (D1' & _).
        rewrite (IH Hn2 i1 w2 i' w' Hi10 Ed D1').
        rewrite He, killCalls_app. lia.
Qed.

Lemma kill_only_on_cancellation_witness :
  killCalls
    (effects (snd (ask posix_host (lit "ping") (mkOptions None None true)
                     [CancellationRequested; StdoutData (lit "pong");
                      CancellationRequested; ChildClose (Some 0)] world0)))
  = killCalls (effects world0).
Proof.
  apply (kill_only_on_cancellation posix_host (lit "ping")
           (mkOptions None None true)
           [CancellationRequested; StdoutData (lit "pong");
            CancellationRequested; ChildClose (Some 0)] world0).
  left. reflexivity.
Defined.

Lemma ask_cancel_kills h question options w b pre post :
  starts h question options w = true ->
  token options = Some b ->
  forallb streaming pre = true ->
  existsb isCancel pre = false ->
  killCalls
    (effects (snd (ask h question options
                     (pre ++ CancellationRequested :: post) w)))
  = S (killCalls (effects w)).
Proof.
  intros Hs Ht Hpre Hnc.
  destruct (starts_ask_start h question options w Hs) as (c & i & w1 & E).
  rewrite (ask_unfold h question options _ w c i w1 E). cbn [snd].
  destruct (ask_start_outputs h question options w _ w1 E) as (_ & _ & Hk).
  destruct (ask_start_ok h question options w c i w1 E)
    as (parts & wd & _ & Hc & Hi & _).
  rewrite deliver_app_fst.
  pose proof (deliver_kills c pre i w1) as D. cbv zeta in D.
  destruct (deliver c pre i w1) as [i1 w2]. cbn [fst snd] in *.
  destruct D as (D1 & _ & _ & D3). destruct (D3 Hpre Hnc) as [Hl Hkd].
  assert (listening i = true) as Li by (now rewrite Hi, Ht).
  assert (killed i = false) as Ki by (now rewrite Hi).
  rewrite Li in Hl. rewrite Ki in Hkd. unfold killedCount in D1.
  rewrite Ki, Hkd in D1.
  cbn [deliver handle]. unfold on_cancel.
  assert (token (cl_options c) = Some b) as Htc by (now rewrite Hc).
  rewrite Htc. cbn [listening killed]. rewrite Hl, Hkd. cbn [andb negb].
  match goal with
  | |- context [deliver c post ?i2 ?w3] =>
      pose proof (deliver_kills c post i2 w3) as P;
      cbv zeta in P; destruct P as (P1 & P2 & _);
      destruct (deliver c post i2 w3) as [i3 w4]
  end.
  unfold killedCount, call in P1, P2. cbn [killed fst snd effects] in *.
  rewrite killCalls_app in P1. cbn [killCalls filter List.length] in P1.
  destruct (killed i3); lia.
Qed.

(** A cancellation requested while the child runs kills it, once: the
    first request calls [kill], and no later event does. *)
Theorem cancellation_kills_child :
  forall h question options w b pre post,
    starts h question options w = true ->
    token options = Some b ->
    forallb streaming pre = true ->
    existsb isCancel pre = false ->
    killCalls
      (effects (snd (ask h question options
                       (pre ++ CancellationRequested :: post) w)))
    = S (killCalls (effects w)).
Proof. intros. eapply ask_cancel_kills; eassumption. Qed.

Lemma cancellation_kills_child_witness :
  killCalls
    (effects (snd (ask posix_host (lit "ping")
                     (mkOptions None (Some false) true)
                     ([StdoutData (lit "po")]
                      ++ CancellationRequested
                      :: [CancellationRequested; ChildClose None]) world0)))
  = S (killCalls (effects world0)).
Proof.
  apply (cancellation_kills_child posix_host (lit "ping")
           (mkOptions None (Some false) true) world0 false
           [StdoutData (lit "po")] [CancellationRequested; ChildClose None]).
  - vm_compute. reflexivity.
  - reflexivity.
  - reflexivity.
  - reflexivity.
Defined.

(** Once the child has closed or failed the cancellation listener is
    gone: no event that follows kills anything. *)
Theorem no_kill_after_exit :
  forall h question options w pre ev post,
    streaming ev = false ->
    killCalls
      (effects (snd (ask h question options (pre ++ ev :: post) w)))
    = killCalls (effects (snd (ask h question options pre w))).
Proof.
  intros h question options w pre ev post Hev. unfold ask.
  destruct (ask_start h question options w) as [[e|[c i]] w1];
    [reflexivity|].
  rewrite deliver_app_fst.
  destruct (deliver c pre i w1) as [i1 w2]. cbn [fst snd deliver].
  pose proof (handle_effects c ev i1 w2) as He.
  pose proof (handle_kills c ev i1 w2) as Hh. cbv zeta in Hh.
  destruct (handle c ev i1 w2) as [i2 w3]. cbn [fst snd] in He, Hh.
  destruct Hh as (_ & _ & K3 & _).
  pose proof (deliver_kills c post i2 w3) as D. cbv zeta in D.
  destruct (deliver c post i2 w3) as [i3 w4]. cbn [fst snd] in *.
  destruct D as (_ & _ & D2 & _). destruct (D2 (K3 Hev)) as [_ ->].
  rewrite He, killCalls_app.
  destruct ev; try discriminate; cbn; lia.
Qed.

Lemma no_kill_after_exit_witness :
  killCalls
    (effects (snd (ask posix_host (lit "ping")
                     (mkOptions None (Some false) true)
                     ([StdoutData (lit "pong")]
                      ++ ChildClose (Some 0) :: [CancellationRequested])
                     world0)))
  = killCalls
      (effects (snd (ask posix_host (lit "ping")
                       (mkOptions None (Some false) true)
                       [StdoutData (lit "pong")] world0))).
Proof.
  apply (no_kill_after_exit posix_host (lit "ping")
           (mkOptions None (Some false) true) world0
           [StdoutData (lit "pong")] (ChildClose (Some 0))
           [CancellationRequested]).
  reflexivity.
Defined.

(** *** [ask]: how the promise settles *)

Lemma handle_streaming_settled c ev i w :
  streaming ev = true -> settled (fst (handle c ev i w)) = settled i.
Proof.
  destruct ev; try discriminate; intros _; cbn [handle].
  - reflexivity.
  - reflexivity.
  - unfold on_cancel. destruct (token (cl_options c)); [|reflexivity].
    cbn [listening killed].
    destruct (listening i && negb (killed i)); reflexivity.
Qed.

Lemma handle_exit_settles c ev i w :
  streaming ev = false -> settled (fst (handle c ev i w)) <> None.
Proof.
  destruct ev; try discriminate; intros _; cbn [handle].
  - unfold on_error. destruct (normalizeError _ _ _ _ _ w) as [e w'].
    unfold settle, dispose. cbn [fst settled].
    destruct (settled i) eqn:E; cbn [settled]; congruence.
  - unfold on_close, alloc, settle, dispose.
    cbn [settled isCancellationRequested stdoutBuffer stderrBuffer].
    destruct (match exitCode with Some n => n =? 0 | None => false end);
      [|destruct (isCancellationRequested i)];
      destruct (settled i) eqn:E; cbn [fst settled]; congruence.
Qed.




Lemma normalizeError_fst error executable cwd originalCommand args w w' :
  next_oid w' = next_oid w ->
  fst (normalizeError error executable cwd originalCommand args w')
  = fst (normalizeError error executable cwd originalCommand args w).
Proof.
  intros H. unfold normalizeError, alloc. rewrite H.
  repeat match goal with |- context [if ?b then _ else _] => destruct b end;
    reflexivity.
Qed.

(** When the child fails to start or to run, the [error] event rejects
    the promise with the normalized error, whatever was streamed before
    and whether or not cancellation was requested. *)
Theorem error_event_rejects :
  forall h question options w parts wd pre error post,
    starts h question options w = true ->
    parseCommand h (commandLineOf h) w = (inr parts, w) ->
    workingDirectoryOf h options = Some wd ->
    forallb streaming pre = true ->
    fst (ask h question options (pre ++ ChildError error :: post) w)
    = Some (Rejected
              (fst (normalizeError error (executable parts) wd
                      (commandLineOf h) (args parts ++ [lit "ask"; question])
                      w))).
Proof.
  intros h question options w parts wd pre error post Hs Hp Hwd Hpre.
  destruct (starts_inv h question options w Hs)
    as (_ & (wd0 & Hwd0 & Hne) & Hcfg).
  assert (wd0 = wd) as -> by congruence.
  pose proof (ask_start_spawns h question options w parts wd Hp Hwd Hne Hcfg)
    as E.
  rewrite (ask_unfold h question options _ w _ _ _ E). cbn [fst].
  rewrite deliver_app_fst.
  match goal with
  | |- context [deliver ?c pre ?i ?w1] =>
      pose proof (deliver_streaming c pre i w1 Hpre) as D;
      destruct (deliver c pre i w1) as [i1 w2]
  end.
  cbn [fst snd deliver handle settled next_oid] in *.
  destruct D as (D1 & _ & _ & _ & _ & D6).
  unfold on_error.
  cbn [cl_executable cl_workingDirectory cl_commandLine cl_spawnArgs].
  rewrite <- (normalizeError_fst error (executable parts) wd (commandLineOf h)
                (args parts ++ [lit "ask"; question]) w w2 D6).
  destruct (normalizeError error (executable parts) wd (commandLineOf h)
              (args parts ++ [lit "ask"; question]) w2) as [e w3].
  cbn [fst].
  assert (settled (settle (Rejected e) (dispose i1)) = Some (Rejected e))
    as Hse.
  { unfold settle, dispose. cbn [settled]. now rewrite D1. }
  now rewrite (deliver_keeps_settled _ post _ w3 _ Hse).
Qed.

Lemma error_event_rejects_witness :
  fst (ask posix_host (lit "ping") (mkOptions None (Some true) false)
         ([CancellationRequested]
          ++ ChildError (mkError 0 (lit "spawn meer EACCES")
                           (Some (lit "EACCES")))
          :: [ChildClose (Some (-13))]) (mkWorld 1 []))
  = Some (Rejected
            (fst (normalizeError
                    (mkError 0 (lit "spawn meer EACCES") (Some (lit "EACCES")))
                    (lit "meer") (lit "/work") (lit "meer")
                    ([] ++ [lit "ask"; lit "ping"]) (mkWorld 1 [])))).
Proof.
  apply (error_event_rejects posix_host (lit "ping")
           (mkOptions None (Some true) false) (mkWorld 1 [])
           (mkParts (lit "meer") []) (lit "/work") [CancellationRequested]
           (mkError 0 (lit "spawn meer EACCES") (Some (lit "EACCES")))
           [ChildClose (Some (-13))]).
  - vm_compute. reflexivity.
  - vm_compute. reflexivity.
  - reflexivity.
  - reflexivity.
Defined.

(** *** [ask]: the size of the answer *)




End ClientMore.

Module ExtensionSpec.
Import Js Utf8 Accumulator Resolver Client Observe Extension ResolverSpec
       ClientSpec ClientMore.

(** *** the events a command sees *)

Lemma untilSettled_exit pre ev post :
  forallb streaming pre = true -> streaming ev = false ->
  untilSettled (pre ++ ev :: post) = pre ++ [ev].
Proof.
  intros Hpre Hev. induction pre as [|x pre IH].
  - cbn. now rewrite Hev.
  - cbn [forallb] in Hpre. apply andb_true_iff in Hpre as [Hx Hpre].
    cbn [app untilSettled]. rewrite Hx. now rewrite IH.
Qed.

Lemma dataChunks_app a b : dataChunks (a ++ b) = dataChunks a ++ dataChunks b.
Proof. apply flat_map_app. Qed.

(** *** what the client writes to the channel *)

Lemma channelText_app a b : channelText (a ++ b) = channelText a ++ channelText b.
Proof. apply flat_map_app. Qed.

Lemma errorMessages_app a b :
  errorMessages (a ++ b) = errorMessages a ++ errorMessages b.
Proof. apply flat_map_app. Qed.

Lemma shows_app a b : shows (a ++ b) = (shows a + shows b)%nat.
Proof. unfold shows. now rewrite filter_app, length_app. Qed.

Lemma clientCalls_app a b : clientCalls (a ++ b) = clientCalls a ++ clientCalls b.
Proof. apply flat_map_app. Qed.

Lemma clientCalls_client effs : clientCalls (map FromClient effs) = effs.
Proof.
  induction effs as [|e t IH]; [reflexivity|]. cbn. now rewrite <- IH at 2.
Qed.

Lemma errorMessages_client effs : errorMessages (map FromClient effs) = [].
Proof. induction effs as [|e t IH]; [reflexivity | exact IH]. Qed.

Lemma shows_client effs : shows (map FromClient effs) = 0%nat.
Proof. induction effs as [|e t IH]; [reflexivity | exact IH]. Qed.

Lemma channelText_emitted c ev i :
  onData (cl_options c) = true ->
  channelText (map FromClient (emitted c ev i)) = List.concat (dataChunks [ev]).
Proof.
  intros H. destruct ev; cbn [emitted]; rewrite ?H; cbn;
    rewrite ?app_nil_r; try reflexivity.
  destruct (token (cl_options c)); [|reflexivity].
  destruct (listening i && negb (killed i)); reflexivity.
Qed.

Lemma channelText_deliver c evs : forall i w,
  onData (cl_options c) = true ->
  channelText (map FromClient (effects (snd (deliver c evs i w))))
  = channelText (map FromClient (effects w)) ++ List.concat (dataChunks evs).
Proof.
  induction evs as [|ev rest IH]; intros i w H.
  - cbn. now rewrite app_nil_r.
  - cbn [deliver]. pose proof (handle_effects c ev i w) as He.
    destruct (handle c ev i w) as [i' w']. cbn [snd] in He.
    rewrite (IH i' w' H), He, map_app, channelText_app.
    rewrite (channelText_emitted c ev i H).
    change (ev :: rest) with ([ev] ++ rest).
    rewrite dataChunks_app, concat_app. now rewrite app_assoc.
Qed.

(** the trace of a command whose child is spawned, up to the event that
    settles the promise *)
Lemma askInChannel_spawned h title location prompt folder evs c i w1 :
  ask_start h prompt (commandOptions folder) world0 = (inr (c, i), w1) ->
  let r := deliver c (untilSettled evs) i w1 in
  askInChannel h title location prompt folder evs
  = (WithProgress title location
     :: AppendLine ([10] ++ lit "> " ++ prompt)
     :: map FromClient (effects (snd r)))
    ++ match settled (fst r) with
       | None => []
       | Some (Resolved _) => [AppendLine []; ChannelShow]
       | Some (Rejected error) =>
           [ShowErrorMessage (lit "MeerAI: " ++ message error)]
       end.
Proof.
  intros E. cbv zeta. unfold askInChannel.
  rewrite (ask_unfold h prompt (commandOptions folder) _ world0 c i w1 E).
  destruct (settled (fst (deliver c (untilSettled evs) i w1))) as [[v|e]|];
    [reflexivity | reflexivity | now rewrite app_nil_r].
Qed.

Lemma channelText_spawned h prompt folder evs c i w1 :
  ask_start h prompt (commandOptions folder) world0 = (inr (c, i), w1) ->
  channelText (map FromClient (effects (snd (deliver c evs i w1))))
  = List.concat (dataChunks evs).
Proof.
  intros E. destruct (ask_start_ok h prompt (commandOptions folder) world0
                        c i w1 E)
    as (parts & wd & _ & Hc & _ & _ & env & He).
  rewrite channelText_deliver by (now rewrite Hc). now rewrite He.
Qed.

(** *** [meerai.askWorkspace] *)

(** When the child exits with code 0 the output channel holds the echoed
    question, then every chunk of both streams in the order it arrived,
    then an empty line; the channel is shown, and no error message is. *)
Theorem askWorkspace_transcript :
  forall h question folder pre post,
    question <> [] ->
    resolveWorkspaceFolder h = Some folder ->
    starts h question (commandOptions folder) world0 = true ->
    forallb streaming pre = true ->
    let trace :=
      askWorkspace h (Some question) (pre ++ ChildClose (Some 0) :: post) in
    channelText trace
    = [10] ++ lit "> " ++ question ++ [10]
      ++ List.concat (dataChunks pre) ++ [10]
    /\ (exists body, trace = body ++ [ChannelShow])
    /\ shows trace = 1%nat
    /\ errorMessages trace = [].
Proof.
  intros h question folder pre post Hq Hf Hs Hpre. cbv zeta.
  unfold askWorkspace. rewrite Hf.
  destruct question as [|q0 qt]; [contradiction|]. cbn [falsy].
  destruct (starts_ask_start h _ _ _ Hs) as (c & i & w1 & E).
  rewrite (askInChannel_spawned h _ _ _ folder _ c i w1 E).
  rewrite (untilSettled_exit pre (ChildClose (Some 0)) post Hpre eq_refl).
  pose proof (ask_close_zero h _ _ world0 pre [] Hs Hpre) as Hz.
  rewrite (ask_unfold h _ _ _ world0 c i w1 E) in Hz. cbn [fst] in Hz.
  change (pre ++ [ChildClose (Some 0)])
    with (pre ++ ChildClose (Some 0) :: []).
  rewrite Hz.
  pose proof (channelText_spawned h _ folder
                (pre ++ ChildClose (Some 0) :: []) c i w1 E) as Ht.
  set (effs := effects (snd (deliver c (pre ++ ChildClose (Some 0) :: []) i w1)))
    in *.
  repeat split.
  - rewrite channelText_app. cbn [channelText flat_map].
    fold (channelText (map FromClient effs)). rewrite Ht.
    rewrite dataChunks_app. cbn [dataChunks flat_map app].
    rewrite !app_nil_r. cbn [app]. rewrite <- !app_assoc. reflexivity.
  - eexists (_ ++ [_]). rewrite <- app_assoc. reflexivity.
  - rewrite shows_app. unfold shows at 1. cbn [filter].
    fold (shows (map FromClient effs)). now rewrite shows_client.
  - rewrite errorMessages_app. cbn [errorMessages flat_map].
    fold (errorMessages (map FromClient effs)).
    now rewrite errorMessages_client.
Qed.

Lemma askWorkspace_transcript_witness :
  channelText
    (askWorkspace posix_host (Some (lit "why?"))
       ([StderrData (lit "thinking "); StdoutData (lit "because")]
        ++ ChildClose (Some 0) :: []))
  = [10] ++ lit "> " ++ lit "why?" ++ [10]
    ++ List.concat
         (dataChunks [StderrData (lit "thinking "); StdoutData (lit "because")])
    ++ [10].
Proof.
  apply (askWorkspace_transcript posix_host (lit "why?") (lit "/work")
           [StderrData (lit "thinking "); StdoutData (lit "because")] []).
  - discriminate.
  - reflexivity.
  - vm_compute. reflexivity.
  - reflexivity.
Defined.

Lemma split_first_cancel pre :
  existsb isCancel pre = true ->
  exists p1 p2, pre = p1 ++ CancellationRequested :: p2
                /\ existsb isCancel p1 = false.
Proof.
  induction pre as [|ev rest IH]; [discriminate|]. cbn [existsb].
  destruct (isCancel ev) eqn:E.
  - intros _. exists [], rest. destruct ev; try discriminate. now split.
  - cbn [orb]. intros H. destruct (IH H) as (p1 & p2 & -> & Hp).
    exists (ev :: p1), p2. split; [reflexivity|]. cbn [existsb].
    now rewrite E.
Qed.

(** When the user cancels from the progress notification and the child
    then exits with a code other than 0, the child has been killed once,
    the only message shown is that the request was cancelled, and the
    channel is not brought to the front. *)
Theorem askWorkspace_cancelled :
  forall h question folder pre exitCode post,
    question <> [] ->
    resolveWorkspaceFolder h = Some folder ->
    starts h question (commandOptions folder) world0 = true ->
    forallb streaming pre = true ->
    existsb isCancel pre = true ->
    exitCode <> Some 0 ->
    let trace :=
      askWorkspace h (Some question) (pre ++ ChildClose exitCode :: post) in
    errorMessages trace = [lit "MeerAI: Request cancelled."]
    /\ shows trace = 0%nat
    /\ killCalls (clientCalls trace) = 1%nat.
Proof.
  intros h question folder pre exitCode post Hq Hf Hs Hpre Hc Hx. cbv zeta.
  unfold askWorkspace. rewrite Hf.
  destruct question as [|q0 qt]; [contradiction|]. cbn [falsy].
  set (question := q0 :: qt) in *.
  destruct (starts_ask_start h _ _ _ Hs) as (c & i & w1 & E).
  rewrite (askInChannel_spawned h _ _ _ folder _ c i w1 E).
  rewrite (untilSettled_exit pre (ChildClose exitCode) post Hpre eq_refl).
  assert (cancelledBy (commandOptions folder) pre = true) as Hcb
    by (unfold cancelledBy; cbn; exact Hc).
  destruct (ask_close_cancelled h question _ world0 pre exitCode [] Hs Hpre
              Hcb Hx) as (e & He & Hm).
  rewrite (ask_unfold h _ _ _ world0 c i w1 E) in He. cbn [fst] in He.
  change (pre ++ [ChildClose exitCode]) with (pre ++ ChildClose exitCode :: []).
  rewrite He, Hm.
  assert (killCalls
            (effects (snd (deliver c (pre ++ ChildClose exitCode :: []) i w1)))
          = 1%nat) as Hk.
  { destruct (split_first_cancel pre Hc) as (p1 & p2 & Hp & Hn).
    assert (forallb streaming p1 = true) as Hp1.
    { rewrite Hp, forallb_app in Hpre. now apply andb_true_iff in Hpre. }
    pose proof (ask_cancel_kills h question (commandOptions folder) world0
                  false p1 (p2 ++ ChildClose exitCode :: []) Hs eq_refl
                  Hp1 Hn) as K.
    rewrite (ask_unfold h _ _ _ world0 c i w1 E) in K. cbn [snd] in K.
    rewrite Hp, <- app_assoc, <- app_comm_cons. exact K. }
  set (effs := effects (snd (deliver c (pre ++ ChildClose exitCode :: []) i w1)))
    in *.
  repeat split.
  - rewrite errorMessages_app. cbn [errorMessages flat_map].
    fold (errorMessages (map FromClient effs)).
    now rewrite errorMessages_client.
  - rewrite shows_app. unfold shows at 1. cbn [filter].
    fold (shows (map FromClient effs)). now rewrite shows_client.
  - rewrite clientCalls_app. cbn [clientCalls flat_map].
    fold (clientCalls (map FromClient effs)).
    now rewrite clientCalls_client, app_nil_r.
Qed.

Lemma askWorkspace_cancelled_witness :
  let trace :=
    askWorkspace posix_host (Some (lit "why?"))
      ([StdoutData (lit "be"); CancellationRequested]
       ++ ChildClose None :: []) in
  errorMessages trace = [lit "MeerAI: Request cancelled."]
  /\ shows trace = 0%nat
  /\ killCalls (clientCalls trace) = 1%nat.
Proof.
  apply (askWorkspace_cancelled posix_host (lit "why?") (lit "/work")
           [StdoutData (lit "be"); CancellationRequested] None []).
  - discriminate.
  - reflexivity.
  - vm_compute. reflexivity.
  - reflexivity.
  - reflexivity.
  - discriminate.
Defined.

Lemma channelText_silent effs :
  onDataCalls effs = [] -> outputAppends effs = [] ->
  channelText (map FromClient effs) = [].
Proof.
  induction effs as [|e t IH]; [reflexivity|].
  destruct e; cbn; try exact IH; discriminate.
Qed.

(** When the child cannot be started (the command line does not parse,
    the folder has no path, or the configuration cannot be ensured) the
    channel holds the echoed question and nothing else, no child is
    spawned, one error message is shown and the channel is not. *)
Theorem askWorkspace_cannot_start :
  forall h question folder evs,
    question <> [] ->
    resolveWorkspaceFolder h = Some folder ->
    starts h question (commandOptions folder) world0 = false ->
    let trace := askWorkspace h (Some question) evs in
    channelText trace = [10] ++ lit "> " ++ question ++ [10]
    /\ spawnRequests (clientCalls trace) = []
    /\ shows trace = 0%nat
    /\ exists reason, errorMessages trace = [lit "MeerAI: " ++ reason].
Proof.
  intros h question folder evs Hq Hf Hs. cbv zeta.
  unfold askWorkspace. rewrite Hf.
  destruct question as [|q0 qt]; [contradiction|]. cbn [falsy].
  set (question := q0 :: qt) in *.
  unfold askInChannel, ask. unfold starts in Hs.
  destruct (ask_start h question (commandOptions folder) world0)
    as [[e|[c i]] w1] eqn:E; [|discriminate].
  destruct (ask_start_outputs h _ _ _ _ _ E) as (H1 & H2 & _).
  pose proof (ask_start_failed h _ _ _ _ _ E) as H3.
  cbn [effects world0] in H1, H2, H3.
  repeat split.
  - rewrite channelText_app. cbn [channelText flat_map].
    fold (channelText (map FromClient (effects w1))).
    rewrite (channelText_silent _ H2 H1). cbn [app].
    rewrite <- !app_assoc. reflexivity.
  - rewrite clientCalls_app. cbn [clientCalls flat_map].
    fold (clientCalls (map FromClient (effects w1))).
    now rewrite clientCalls_client, app_nil_r.
  - rewrite shows_app. unfold shows at 1. cbn [filter].
    fold (shows (map FromClient (effects w1))). now rewrite shows_client.
  - exists (message e). rewrite errorMessages_app.
    cbn [errorMessages flat_map].
    fold (errorMessages (map FromClient (effects w1))).
    now rewrite errorMessages_client.
Qed.

Lemma askWorkspace_cannot_start_witness :
  let trace := askWorkspace readonly_host (Some (lit "why?")) [] in
  channelText trace = [10] ++ lit "> " ++ lit "why?" ++ [10]
  /\ spawnRequests (clientCalls trace) = []
  /\ shows trace = 0%nat
  /\ exists reason, errorMessages trace = [lit "MeerAI: " ++ reason].
Proof.
  apply (askWorkspace_cannot_start readonly_host (lit "why?") (lit "/work") []).
  - discriminate.
  - reflexivity.
  - vm_compute. reflexivity.
Defined.

(** *** [meerai.explainSelection] *)




End ExtensionSpec.

Module ConfigSpec.
Import Js Config.

(** *** records *)

Lemma eqb_neq a b : a <> b -> eqb a b = false.
Proof.
  intros H. destruct (eqb a b) eqn:E; [|reflexivity].
  apply eqb_eq in E. contradiction.
Qed.





(** *** [deepMerge], one entry of the override at a time *)

Lemma deepMerge_nil base : deepMerge base [] = base.
Proof. reflexivity. Qed.












(** *** [ensureMeerConfig] *)

(** A configuration file that cannot be used is reported and left alone:
    when reading fails for another reason than a missing file, when the
    YAML does not parse, and when it parses to something that is not a
    record, [ensureMeerConfig] rejects with a message that names the path
    and the cause, and neither creates the directory nor writes the file. *)
Theorem ensureMeerConfig_unreadable :
  forall d cause,
    (exists error,
       isEnoent error = false /\ cause = thrown_message error
       /\ (readFile d = inl error
           \/ exists content,
                readFile d = inr content /\ parse d content = inl error))
    \/ (cause = lit "MeerAI config must be a YAML object."
        /\ exists content value,
             readFile d = inr content /\ parse d content = inr value
             /\ match value with
                | VUndefined | VNull | VObject _ => False
                | _ => True
                end) ->
    ensureMeerConfig d
    = (inl (mkThrown (lit "Unable to read MeerAI config (" ++ CONFIG_PATH d
                      ++ lit "): " ++ cause) None), []).
Proof.
  intros d cause [(error & He & -> & [Hr | (content & Hr & Hp)])
                 | (-> & content & value & Hr & Hp & Hv)];
    unfold ensureMeerConfig; rewrite Hr.
  - unfold recover. now rewrite He.
  - rewrite Hp. unfold recover. now rewrite He.
  - rewrite Hp. destruct value; try contradiction; reflexivity.
Qed.

Lemma ensureMeerConfig_unreadable_witness :
  ensureMeerConfig (disk_with (VArray [text "ollama"]))
  = (inl (mkThrown (lit "Unable to read MeerAI config ("
                    ++ CONFIG_PATH (disk_with (VArray [text "ollama"]))
                    ++ lit "): " ++ lit "MeerAI config must be a YAML object.")
            None), []).
Proof.
  apply (ensureMeerConfig_unreadable (disk_with (VArray [text "ollama"]))).
  right. split; [reflexivity|].
  exists (lit "provider: openai"), (VArray [text "ollama"]).
  repeat split.
Defined.




Example ensureMeerConfig_first_run :
  ensureMeerConfig disk_without
  = (inr DEFAULT_CONFIG,
     [Mkdir (lit "/home/dev/.meer");
      WriteFile (lit "/home/dev/.meer/config.yaml")
        (lit "provider: ollama" ++ [10])]).
Proof. reflexivity. Qed.

End ConfigSpec.

Module ChatSpec.
Import Js Utf8 Accumulator Resolver Client Observe Chat ClientSpec ClientMore.

(** *** the map of pending requests *)

Lemma pending_get_delete requestId m :
  pending_get requestId (pending_delete requestId m) = None.
Proof.
  induction m as [|[k v] rest IH]; [reflexivity|]. cbn [pending_delete].
  destruct (eqb k requestId) eqn:E; [exact IH|].
  cbn [pending_get]. now rewrite E.
Qed.

Lemma pending_get_set requestId v m :
  pending_get requestId (pending_set requestId v m) = Some v.
Proof.
  unfold pending_set.
  destruct (pending_get requestId m) as [old|] eqn:E.
  - induction m as [|[k x] rest IH]; [discriminate|].
    cbn [pending_get map fst] in *. destruct (eqb k requestId) eqn:Ek.
    + cbn [pending_get fst]. now rewrite Ek.
    + cbn [pending_get]. rewrite Ek. now apply IH.
  - induction m as [|[k x] rest IH].
    + cbn. now rewrite eqb_refl.
    + cbn [pending_get app] in *. destruct (eqb k requestId); [discriminate|].
      now apply IH.
Qed.

(** *** the sessions *)

Lemma findSession_update sessionId f l :
  (forall s, session_id (f s) = session_id s) ->
  findSession sessionId (update sessionId f l)
  = option_map f (findSession sessionId l).
Proof.
  intros Hf. unfold findSession.
  induction l as [|item rest IH]; [reflexivity|]. cbn [update find].
  destruct (eqb (session_id item) sessionId) eqn:E; cbn [find].
  - now rewrite Hf, E.
  - now rewrite E.
Qed.

(** *** one event of a running child *)

Lemma skipn_app_exact {A} (l x : list A) : skipn (length l) (l ++ x) = x.
Proof. induction l as [|a l IH]; [reflexivity | exact IH]. Qed.

Lemma childEvent_calls c sessionId requestId ev r :
  childEvent c sessionId requestId ev r
  = mkRunning (fst (handle c ev (invocation r) (world r)))
      (snd (handle c ev (invocation r) (world r)))
      (fold_left (fun p chunk => onChunk sessionId requestId chunk p)
         (onDataCalls (emitted c ev (invocation r))) (provider r)).
Proof.
  unfold childEvent. pose proof (handle_effects c ev (invocation r) (world r)) as H.
  destruct (handle c ev (invocation r) (world r)) as [i w]. cbn [fst snd] in *.
  now rewrite H, skipn_app_exact.
Qed.

Lemma streamedTo_refl sessionId requestId p :
  streamedTo sessionId requestId [] p p.
Proof.
  unfold streamedTo. repeat split.
  - destruct (hasView p); cbn; now rewrite app_nil_r.
  - intros [sid buf] H. cbn. now rewrite app_nil_r.
Qed.

Lemma streamedTo_trans sessionId requestId a b p1 p2 p3 :
  (exists pd, pending_get requestId (pendingRequests p1) = Some pd) ->
  streamedTo sessionId requestId a p1 p2 ->
  streamedTo sessionId requestId b p2 p3 ->
  streamedTo sessionId requestId (a ++ b) p1 p3.
Proof.
  intros [pd0 H0] (A1 & A2 & A3 & A4 & A5 & A6 & A7)
    (B1 & B2 & B3 & B4 & B5 & B6 & B7).
  unfold streamedTo. repeat split; try congruence.
  - rewrite B5, A5, A2. destruct (hasView p1); rewrite <- app_assoc;
      [now rewrite map_app | reflexivity].
  - intros pd Hpd. rewrite (B6 _ (A6 pd Hpd)). cbn.
    now rewrite concat_app, app_assoc.
Qed.

Lemma onChunk_streamed sessionId requestId chunk p pd :
  pending_get requestId (pendingRequests p) = Some pd ->
  streamedTo sessionId requestId [chunk] p (onChunk sessionId requestId chunk p).
Proof.
  intros H. unfold onChunk. rewrite H. unfold postMessage, set_pending, post.
  cbn [hasView]. unfold streamedTo.
  destruct (hasView p) eqn:Ev; cbn; rewrite ?app_nil_r; repeat split;
    try assumption;
    intros pd' H'; rewrite pending_get_set; congruence.
Qed.

(** a chunk of either stream, while the request is pending *)
Lemma chatStep_flowing c sessionId requestId ev r pd :
  onData (cl_options c) = true ->
  flowing ev = true ->
  pending_get requestId (pendingRequests (provider r)) = Some pd ->
  let r' := chatStep c sessionId requestId ev r in
  invocation r' = fst (handle c (clientEvent ev) (invocation r) (world r))
  /\ world r' = snd (handle c (clientEvent ev) (invocation r) (world r))
  /\ streamedTo sessionId requestId (answerChunks [ev]) (provider r)
       (provider r').
Proof.
  intros Hd Hf Hp. cbv zeta.
  destruct ev; try discriminate; cbn [chatStep clientEvent];
    rewrite childEvent_calls; cbn [invocation world provider emitted];
    rewrite ?Hd; cbn [onDataCalls flat_map app fold_left answerChunks];
    (split; [reflexivity|]); (split; [reflexivity|]).
  - now apply onChunk_streamed with (pd := pd).
  - apply streamedTo_refl.
Qed.

Lemma awaitAsk_flowing o c sessionId requestId pre : forall rest r pd,
  onData (cl_options c) = true ->
  forallb flowing pre = true ->
  settled (invocation r) = None ->
  pending_get requestId (pendingRequests (provider r)) = Some pd ->
  exists r',
    awaitAsk o c sessionId requestId (pre ++ rest) r
    = awaitAsk o c sessionId requestId rest r'
    /\ (invocation r', world r')
       = deliver c (map clientEvent pre) (invocation r) (world r)
    /\ settled (invocation r') = None
    /\ streamedTo sessionId requestId (answerChunks pre) (provider r)
         (provider r').
Proof.
  induction pre as [|ev pre IH]; intros rest r pd Hd Hpre Hs Hp.
  - exists r. split; [reflexivity|]. split; [reflexivity|].
    split; [exact Hs | apply streamedTo_refl].
  - cbn [forallb] in Hpre. apply andb_true_iff in Hpre as [Hev Hpre].
    cbn [app awaitAsk]. rewrite Hs.
    destruct (chatStep_flowing c sessionId requestId ev r pd Hd Hev Hp)
      as (E1 & E2 & E3).
    set (r1 := chatStep c sessionId requestId ev r) in *.
    assert (settled (invocation r1) = None) as Hs1.
    { rewrite E1, handle_streaming_settled; [exact Hs|].
      destruct ev; try discriminate; reflexivity. }
    destruct E3 as (A1 & A2 & A3 & A4 & A5 & A6 & A7).
    destruct (IH rest r1 _ Hd Hpre Hs1 (A6 pd Hp)) as (r' & R1 & R2 & R3 & R4).
    exists r'. split; [exact R1|]. split; [|split; [exact R3|]].
    + cbn [map deliver]. rewrite R2, E1, E2.
      now destruct (handle c (clientEvent ev) (invocation r) (world r)).
    + change (ev :: pre) with ([ev] ++ pre). unfold answerChunks.
      rewrite flat_map_app. fold (answerChunks [ev]) (answerChunks pre).
      apply (streamedTo_trans _ _ _ _ _ (provider r1)); [now exists pd| |exact R4].
      unfold streamedTo. repeat split; assumption.
Qed.

(** *** the question is recorded *)

Lemma recordQuestion_spec o requestId prompt sessionId p :
  let question :=
    mkMessage (randomUUID o (drawn p)) User prompt (dateNow o (readings p)) in
  let p3 := recordQuestion o requestId prompt sessionId p in
  sessions p3
  = update sessionId (pushed question (dateNow o (S (readings p))))
      (sessions p)
  /\ hasView p3 = hasView p
  /\ readings p3 = S (S (readings p))
  /\ drawn p3 = S (drawn p)
  /\ posted p3
     = posted p ++ Saved (sessions p3)
                   :: (if hasView p then [PostState (sessions p3) (activeSessionId p)] else [])
  /\ pending_get requestId (pendingRequests p3)
     = Some (mkPending sessionId [])
  /\ activeSessionId p3 = activeSessionId p.
Proof.
  cbv zeta. unfold recordQuestion, createMessage, generateId, now, pushMessage,
    saveSessions, postState, postMessage, post, set_sessions, set_pending, now.
  cbn [sessions activeSessionId pendingRequests hasView readings drawn posted].
  destruct (hasView p) eqn:Ev;
    cbn [sessions activeSessionId pendingRequests hasView readings drawn posted];
    rewrite pending_get_set; repeat split; try reflexivity.
  now rewrite <- app_assoc.
Qed.

Lemma messagesOf_update sessionId m t l s0 :
  findSession sessionId l = Some s0 ->
  option_map messages (findSession sessionId (update sessionId (pushed m t) l))
  = Some (messages s0 ++ [m]).
Proof.
  intros H. rewrite findSession_update by reflexivity. now rewrite H.
Qed.

(** *** the promise resolves *)

Lemma finallyClause_provider c requestId r :
  let p' := provider (finallyClause c requestId r) in
  sessions p' = sessions (provider r)
  /\ hasView p' = hasView (provider r)
  /\ posted p' = posted (provider r)
  /\ pending_get requestId (pendingRequests p') = None.
Proof.
  cbv zeta. unfold finallyClause, disposePending.
  destruct (pending_get requestId (pendingRequests (provider r)));
    [destruct (handle c CancellationRequested (invocation r) (world r))|];
    cbn [provider set_pending sessions hasView posted pendingRequests];
    rewrite pending_get_delete; repeat split.
Qed.

Lemma afterAsk_resolved o c sessionId requestId response r pd :
  pending_get requestId (pendingRequests (provider r)) = Some pd ->
  trim (responseBuffer pd) <> [] ->
  let p := provider r in
  let answer :=
    mkMessage (randomUUID o (drawn p)) Assistant (trim (responseBuffer pd))
      (dateNow o (readings p)) in
  let p' := provider (afterAsk o c sessionId requestId (Resolved response) r) in
  sessions p'
  = update sessionId (pushed answer (dateNow o (S (readings p)))) (sessions p)
  /\ posted p'
     = posted p ++ Saved (sessions p')
                   :: (if hasView p
                       then [PostDone requestId; PostState (sessions p') (activeSessionId p)]
                       else [])
  /\ pending_get requestId (pendingRequests p') = None.
Proof.
  intros Hp Ht. cbv zeta. unfold afterAsk.
  match goal with
  | |- context [finallyClause c requestId ?x] =>
      destruct (finallyClause_provider c requestId x) as (F1 & F2 & F3 & F4)
  end.
  rewrite F1, F3, F4. cbn [provider]. rewrite Hp.
  destruct (trim (responseBuffer pd)) as [|x t] eqn:E; [contradiction|].
  cbn [falsy].
  unfold createMessage, generateId, now, pushMessage, saveSessions, postState,
    postMessage, post, set_sessions, now.
  cbn [sessions activeSessionId pendingRequests hasView readings drawn posted].
  destruct (hasView (provider r)) eqn:Ev;
    cbn [sessions activeSessionId pendingRequests hasView readings drawn posted];
    repeat split; try reflexivity; rewrite <- ?app_assoc; reflexivity.
Qed.

Lemma chatOptions_closure h prompt w c i w1 :
  ask_start h prompt chatOptions w = (inr (c, i), w1) ->
  onData (cl_options c) = true
  /\ token (cl_options c) = Some false
  /\ settled i = None /\ listening i = true /\ killed i = false.
Proof.
  intros E. destruct (ask_start_ok h prompt chatOptions w c i w1 E)
    as (parts & wd & _ & -> & -> & _). repeat split.
Qed.

Lemma handleAsk_spawned h o requestId prompt sessionId evs p w s0 c i w1 :
  findSession sessionId (sessions p) = Some s0 ->
  ask_start h prompt chatOptions w = (inr (c, i), w1) ->
  handleAsk h o requestId prompt sessionId evs p w
  = (provider (awaitAsk o c sessionId requestId evs
                 (mkRunning i w1
                    (recordQuestion o requestId prompt sessionId p))),
     world (awaitAsk o c sessionId requestId evs
              (mkRunning i w1
                 (recordQuestion o requestId prompt sessionId p)))).
Proof. intros Hf E. unfold handleAsk. now rewrite Hf, E. Qed.

(** the child closes while the promise is pending *)
Lemma awaitAsk_closed o c sessionId requestId code rest r :
  settled (invocation r) = None ->
  exists outcome i w,
    handle c (ChildClose code) (invocation r) (world r) = (i, w)
    /\ settled i = Some outcome
    /\ awaitAsk o c sessionId requestId (ChildClosed code :: rest) r
       = afterAsk o c sessionId requestId outcome (mkRunning i w (provider r)).
Proof.
  intros Hs. cbn [awaitAsk]. rewrite Hs. cbn [chatStep].
  rewrite childEvent_calls. cbn [emitted onDataCalls flat_map fold_left].
  pose proof (handle_exit_settles c (ChildClose code) (invocation r) (world r)
                eq_refl) as H.
  destruct (handle c (ChildClose code) (invocation r) (world r)) as [i w].
  cbn [fst snd] in *. destruct (settled i) as [outcome|] eqn:E; [|now elim H].
  exists outcome, i, w. split; [reflexivity|]. split; [exact E|].
  destruct rest; cbn [awaitAsk invocation]; now rewrite E.
Qed.

(** *** [handleAsk] *)

(** When the child exits with code 0 and what it wrote is not blank, the
    session gains two messages: the question, and an answer that is the
    whole output of the child, trimmed.  This is the text that was
    streamed, not the value [ask] resolves with, so the [maxBuffer]
    setting does not bound it.  The sessions are saved, and posted when
    there is a view, and the request is no longer pending. *)
Theorem handleAsk_stores_answer :
  forall h o requestId prompt sessionId pre post p w,
    findSession sessionId (sessions p) <> None ->
    starts h prompt chatOptions w = true ->
    forallb flowing pre = true ->
    trim (List.concat (answerChunks pre)) <> [] ->
    let p' :=
      fst (handleAsk h o requestId prompt sessionId
             (pre ++ ChildClosed (Some 0) :: post) p w) in
    exists question answer,
      messagesOf sessionId p' = messagesOf sessionId p ++ [question; answer]
      /\ role question = User /\ content question = prompt
      /\ role answer = Assistant
      /\ content answer = trim (List.concat (answerChunks pre))
      /\ (exists before,
            posted p'
            = before ++ Saved (sessions p')
                        :: (if hasView p
                            then [PostDone requestId; PostState (sessions p') (activeSessionId p)]
                            else []))
      /\ pending_get requestId (pendingRequests p') = None.
Proof.
  intros h o requestId prompt sessionId pre post p w Hf Hs Hpre Ht. cbv zeta.
  destruct (findSession sessionId (sessions p)) as [s0|] eqn:Es;
    [clear Hf | now elim Hf].
  destruct (starts_ask_start h prompt chatOptions w Hs) as (c & i & w1 & E).
  destruct (chatOptions_closure h prompt w c i w1 E) as (Hd & _ & Hi & _).
  rewrite (handleAsk_spawned h o requestId prompt sessionId _ p w s0 c i w1 Es E).
  cbn [fst].
  destruct (recordQuestion_spec o requestId prompt sessionId p)
    as (Q1 & Q2 & Q3 & Q4 & Q5 & Q6 & Q7). cbv zeta in Q1, Q5.
  set (p3 := recordQuestion o requestId prompt sessionId p) in *.
  destruct (awaitAsk_flowing o c sessionId requestId pre
              (ChildClosed (Some 0) :: post) (mkRunning i w1 p3)
              (mkPending sessionId []) Hd Hpre Hi Q6)
    as (r' & R1 & _ & R3 & (S1 & S2 & S3 & S4 & S5 & S6 & S7)).
  cbn [provider] in *. rewrite R1.
  destruct (awaitAsk_closed o c sessionId requestId (Some 0) post r' R3)
    as (outcome & i2 & w2 & Hh & Ho & ->).
  assert (exists response, outcome = Resolved response) as [response ->].
  { revert Hh Ho. cbn [handle]. unfold on_close, settle, dispose.
    cbn [Z.eqb settled stdoutBuffer]. rewrite R3.
    intros H. injection H as <- _. cbn [settled]. intros H.
    injection H as <-. eexists. reflexivity. }
  pose proof (S6 _ Q6) as Hpd. cbn [pending_sessionId responseBuffer app] in Hpd.
  destruct (afterAsk_resolved o c sessionId requestId response
              (mkRunning i2 w2 (provider r')) _ Hpd Ht) as (A1 & A2 & A3).
  cbn [provider responseBuffer] in A1, A2, A3. cbv zeta in A1, A2.
  set (p' := provider (afterAsk o c sessionId requestId (Resolved response)
                         (mkRunning i2 w2 (provider r')))) in *.
  eexists. eexists. split; [|split; [|split; [|split; [|split; [|split]]]]].
  7: exact A3.
  - unfold messagesOf. rewrite A1, S1, Q1, Es.
    rewrite findSession_update by reflexivity.
    rewrite findSession_update by reflexivity. rewrite Es.
    cbn [option_map pushed messages]. rewrite <- app_assoc. reflexivity.
  - reflexivity.
  - reflexivity.
  - reflexivity.
  - reflexivity.
  - exists (posted (provider r')). rewrite A2, S2, Q2, S7, Q7. reflexivity.
Qed.

Lemma handleAsk_stores_answer_witness :
  let p :=
    mkProvider [mkSession (lit "s1") (lit "Chat 1") 10 10 []]
                 (Some (lit "s1")) [] true 0 0 [] in
  let p' :=
    fst (handleAsk posix_host (mkOracle (fun n => 100 + Z.of_nat n)
                                 (fun n => lit "id-" ++ ofZ (Z.of_nat n)))
           (lit "r1") (lit "why?") (lit "s1")
           ([ChildStdout (lit " be"); ChildStderr (lit "..."); ChildStdout (lit "cause ")]
            ++ ChildClosed (Some 0) :: []) p world0) in
  exists question answer,
    messagesOf (lit "s1") p' = messagesOf (lit "s1") p ++ [question; answer]
    /\ content question = lit "why?"
    /\ content answer = lit "because".
Proof.
  cbv zeta.
  destruct (handleAsk_stores_answer posix_host
              (mkOracle (fun n => 100 + Z.of_nat n)
                 (fun n => lit "id-" ++ ofZ (Z.of_nat n)))
              (lit "r1") (lit "why?") (lit "s1")
              [ChildStdout (lit " be"); ChildStderr (lit "...");
               ChildStdout (lit "cause ")] []
              (mkProvider [mkSession (lit "s1") (lit "Chat 1") 10 10 []]
                 (Some (lit "s1")) []
                 true 0 0 []) world0)
    as (question & answer & H1 & _ & H3 & _ & H5 & _).
  - discriminate.
  - vm_compute. reflexivity.
  - reflexivity.
  - vm_compute. discriminate.
  - exists question, answer. split; [exact H1|]. split; [exact H3|].
    rewrite H5. vm_compute. reflexivity.
Defined.

Lemma afterAsk_forgets o c sessionId requestId outcome r :
  pending_get requestId
    (pendingRequests (provider (afterAsk o c sessionId requestId outcome r)))
  = None.
Proof.
  unfold afterAsk.
  match goal with
  | |- context [finallyClause c requestId ?x] =>
      destruct (finallyClause_provider c requestId x) as (_ & _ & _ & F)
  end.
  exact F.
Qed.

Lemma chatStep_keeps_settled c sessionId requestId ev r outcome :
  settled (invocation r) = Some outcome ->
  settled (invocation (chatStep c sessionId requestId ev r)) = Some outcome.
Proof.
  intros H.
  assert (forall e, settled (invocation (childEvent c sessionId requestId e r))
                    = Some outcome) as Hc.
  { intros e. rewrite childEvent_calls. cbn [invocation].
    now apply handle_keeps_settled. }
  destruct ev; cbn [chatStep]; try apply Hc.
  unfold cancelRequest, disposePending.
  destruct (pending_get requestId (pendingRequests (provider r))); [|exact H].
  pose proof (handle_keeps_settled c CancellationRequested (invocation r)
                (world r) outcome H) as Hk.
  destruct (handle c CancellationRequested (invocation r) (world r)).
  exact Hk.
Qed.

Lemma chatStep_exits c sessionId requestId ev r :
  exits ev = true ->
  settled (invocation (chatStep c sessionId requestId ev r)) <> None.
Proof.
  destruct ev; try discriminate; intros _; cbn [chatStep];
    rewrite childEvent_calls; cbn [invocation];
    now apply handle_exit_settles.
Qed.

Lemma awaitAsk_forgets o c sessionId requestId evs : forall r,
  settled (invocation r) <> None \/ existsb exits evs = true ->
  pending_get requestId
    (pendingRequests (provider (awaitAsk o c sessionId requestId evs r)))
  = None.
Proof.
  induction evs as [|ev rest IH]; intros r H.
  - cbn [awaitAsk]. destruct (settled (invocation r)) as [outcome|].
    + apply afterAsk_forgets.
    + destruct H as [H|H]; [now elim H | discriminate].
  - cbn [awaitAsk]. destruct (settled (invocation r)) as [outcome|] eqn:E.
    + apply afterAsk_forgets.
    + apply IH. destruct H as [H|H]; [now elim H|].
      cbn [existsb] in H. destruct (exits ev) eqn:Ee; [|now right].
      left. now apply chatStep_exits.
Qed.

(** A request does not stay in the map of pending requests: once [ask]
    has failed to start the child, or the child has closed or failed,
    [handleAsk] has removed it, whatever the outcome and whether or not it
    was cancelled on the way. *)
Theorem handleAsk_forgets_request :
  forall h o requestId prompt sessionId evs p w,
    findSession sessionId (sessions p) <> None ->
    starts h prompt chatOptions w = false \/ existsb exits evs = true ->
    pending_get requestId
      (pendingRequests
         (fst (handleAsk h o requestId prompt sessionId evs p w)))
    = None.
Proof.
  intros h o requestId prompt sessionId evs p w Hf Hend.
  unfold handleAsk, starts in *.
  destruct (findSession sessionId (sessions p)) as [s0|];
    [clear Hf | now elim Hf].
  destruct (ask_start h prompt chatOptions w) as [[e|[c i]] w1];
    cbn [fst snd] in *.
  - unfold set_pending. cbn [pendingRequests]. apply pending_get_delete.
  - apply awaitAsk_forgets. right. destruct Hend as [H|H];
      [discriminate | exact H].
Qed.

Lemma handleAsk_forgets_request_witness :
  pending_get (lit "r1")
    (pendingRequests
       (fst (handleAsk posix_host (mkOracle (fun _ => 0) (fun _ => lit "id"))
               (lit "r1") (lit "why?") (lit "s1")
               [ChildStdout (lit "be"); CancelMessage; ChildClosed None]
               (mkProvider [mkSession (lit "s1") (lit "Chat 1") 10 10 []]
                 (Some (lit "s1")) []
                  true 0 0 []) world0)))
  = None.
Proof.
  apply (handleAsk_forgets_request posix_host
           (mkOracle (fun _ => 0) (fun _ => lit "id"))
           (lit "r1") (lit "why?") (lit "s1")
           [ChildStdout (lit "be"); CancelMessage; ChildClosed None]
           (mkProvider [mkSession (lit "s1") (lit "Chat 1") 10 10 []]
                 (Some (lit "s1")) []
              true 0 0 []) world0).
  - discriminate.
  - right. reflexivity.
Defined.

(** *** a request that is cancelled *)

Lemma chatStep_unlisted c sessionId requestId ev r :
  flowing ev = true ->
  pending_get requestId (pendingRequests (provider r)) = None ->
  let r' := chatStep c sessionId requestId ev r in
  (invocation r', world r')
  = handle c (clientEvent ev) (invocation r) (world r)
  /\ provider r' = provider r.
Proof.
  intros Hf Hp. cbv zeta.
  assert (forall l, fold_left
                      (fun p chunk => onChunk sessionId requestId chunk p) l
                      (provider r) = provider r) as Hfold.
  { induction l as [|x l IH]; [reflexivity|]. cbn [fold_left].
    unfold onChunk at 2. now rewrite Hp. }
  destruct ev; try discriminate; cbn [chatStep clientEvent];
    rewrite childEvent_calls; cbn [invocation world provider];
    rewrite Hfold; (split; [|reflexivity]);
    now destruct (handle c _ (invocation r) (world r)).
Qed.

Lemma awaitAsk_unlisted o c sessionId requestId pre : forall rest r,
  forallb flowing pre = true ->
  settled (invocation r) = None ->
  pending_get requestId (pendingRequests (provider r)) = None ->
  exists r',
    awaitAsk o c sessionId requestId (pre ++ rest) r
    = awaitAsk o c sessionId requestId rest r'
    /\ (invocation r', world r')
       = deliver c (map clientEvent pre) (invocation r) (world r)
    /\ settled (invocation r') = None
    /\ provider r' = provider r.
Proof.
  induction pre as [|ev pre IH]; intros rest r Hpre Hs Hp.
  - exists r. repeat split; assumption.
  - cbn [forallb] in Hpre. apply andb_true_iff in Hpre as [Hev Hpre].
    cbn [app awaitAsk]. rewrite Hs.
    destruct (chatStep_unlisted c sessionId requestId ev r Hev Hp) as [E1 E2].
    set (r1 := chatStep c sessionId requestId ev r) in *.
    assert (settled (invocation r1) = None) as Hs1.
    { replace (invocation r1)
        with (fst (handle c (clientEvent ev) (invocation r) (world r)))
        by (now rewrite <- E1).
      rewrite handle_streaming_settled; [exact Hs|].
      destruct ev; try discriminate; reflexivity. }
    rewrite <- E2 in Hp.
    destruct (IH rest r1 Hpre Hs1 Hp) as (r' & R1 & R2 & R3 & R4).
    exists r'. split; [exact R1|]. split; [|split; [exact R3|congruence]].
    cbn [map deliver]. rewrite <- E1. exact R2.
Qed.

Lemma deliver_pair c evs1 evs2 i w i1 w1 :
  (i1, w1) = deliver c evs1 i w ->
  deliver c evs2 i1 w1 = deliver c (evs1 ++ evs2) i w.
Proof. intros H. rewrite deliver_app, <- H. reflexivity. Qed.

Lemma streamed_app a b : streamed (a ++ b) = streamed a ++ streamed b.
Proof. apply flat_map_app. Qed.

Lemma errorsPosted_app a b :
  errorsPosted (a ++ b) = errorsPosted a ++ errorsPosted b.
Proof. apply flat_map_app. Qed.

Lemma streamed_stream sessionId requestId chunks :
  streamed (map (PostStream sessionId requestId) chunks) = chunks.
Proof.
  induction chunks as [|x l IH]; [reflexivity|]. cbn. now rewrite <- IH at 2.
Qed.

Lemma errorsPosted_stream sessionId requestId chunks :
  errorsPosted (map (PostStream sessionId requestId) chunks) = [].
Proof. induction chunks as [|x l IH]; [reflexivity | exact IH]. Qed.

Lemma flowing_streaming l :
  forallb flowing l = true ->
  forallb streaming (map clientEvent l) = true
  /\ existsb isCancel (map clientEvent l) = false
  /\ stdoutChunks (map clientEvent l) = answerChunks l.
Proof.
  induction l as [|ev l IH]; [now repeat split|]. cbn [forallb].
  intros H. apply andb_true_iff in H as [Hev Hl].
  destruct (IH Hl) as (I1 & I2 & I3).
  destruct ev; try discriminate;
    cbn [map clientEvent forallb existsb streaming isCancel andb orb
           stdoutChunks answerChunks flat_map app];
    fold (stdoutChunks (map clientEvent l)); fold (answerChunks l);
    rewrite I3; repeat split; assumption.
Qed.

(** When the webview cancels the request while the child runs and the
    child then closes with a code other than 0: the child has been killed,
    once; the question stays in the session and no answer is added; and
    the webview received the chunks that came before the cancellation, none
    of those that came after it, and one error, that the request was
    cancelled. *)
Theorem handleAsk_cancelled :
  forall h o requestId prompt sessionId pre mid code post p w,
    findSession sessionId (sessions p) <> None ->
    starts h prompt chatOptions w = true ->
    forallb flowing pre = true ->
    forallb flowing mid = true ->
    code <> Some 0 ->
    let result :=
      handleAsk h o requestId prompt sessionId
        (pre ++ CancelMessage :: mid ++ ChildClosed code :: post) p w in
    (exists question,
       messagesOf sessionId (fst result)
       = messagesOf sessionId p ++ [question]
       /\ role question = User /\ content question = prompt)
    /\ killCalls (effects (snd result)) = S (killCalls (effects w))
    /\ (hasView p = true ->
        streamed (posted (fst result))
        = streamed (posted p) ++ answerChunks pre
        /\ errorsPosted (posted (fst result))
           = errorsPosted (posted p) ++ [lit "Request cancelled."]).
Proof.
  intros h o requestId prompt sessionId pre mid code post p w
    Hf Hs Hpre Hmid Hcode. cbv zeta.
  destruct (findSession sessionId (sessions p)) as [s0|] eqn:Es;
    [clear Hf | now elim Hf].
  destruct (starts_ask_start h prompt chatOptions w Hs) as (c & i & w1 & E).
  destruct (chatOptions_closure h prompt w c i w1 E)
    as (Hd & Htok & Hi & Hl & Hk).
  rewrite (handleAsk_spawned h o requestId prompt sessionId _ p w s0 c i w1 Es E).
  cbn [fst snd].
  destruct (recordQuestion_spec o requestId prompt sessionId p)
    as (Q1 & Q2 & Q3 & Q4 & Q5 & Q6 & Q7). cbv zeta in Q1, Q5.
  set (p3 := recordQuestion o requestId prompt sessionId p) in *.
  (* the chunks before the cancellation *)
  destruct (awaitAsk_flowing o c sessionId requestId pre
              (CancelMessage :: mid ++ ChildClosed code :: post)
              (mkRunning i w1 p3) (mkPending sessionId []) Hd Hpre Hi Q6)
    as (r1 & R1 & D1 & N1 & (S1 & S2 & S3 & S4 & S5 & S6 & S7)).
  cbn [provider invocation world] in *. rewrite R1. clear R1.
  pose proof (S6 _ Q6) as P1.
  (* the cancellation *)
  cbn [awaitAsk]. rewrite N1. cbn [chatStep]. unfold cancelRequest.
  rewrite P1. unfold disposePending.
  pose proof (handle_streaming_settled c CancellationRequested (invocation r1)
                (world r1) eq_refl) as N2.
  destruct (handle c CancellationRequested (invocation r1) (world r1))
    as [i2 w2] eqn:H2.
  cbn [fst invocation world provider] in *. rewrite N1 in N2.
  assert ((i2, w2) = deliver c (map clientEvent (pre ++ [CancelMessage])) i w1)
    as D2.
  { rewrite map_app, <- (deliver_pair c _ _ i w1 _ _ D1).
    cbn [map clientEvent deliver]. now rewrite H2. }
  (* the chunks after it *)
  destruct (awaitAsk_unlisted o c sessionId requestId mid
              (ChildClosed code :: post)
              (mkRunning i2 w2
                 (set_pending
                    (pending_delete requestId (pendingRequests (provider r1)))
                    (provider r1))) Hmid N2 (pending_get_delete _ _))
    as (r3 & R3 & D3 & N3 & P3).
  cbn [provider invocation world] in *. rewrite R3. clear R3.
  rewrite (deliver_pair c _ _ i w1 _ _ D2) in D3.
  (* the child closes *)
  destruct (awaitAsk_closed o c sessionId requestId code post r3 N3)
    as (outcome & i4 & w4 & H4 & O4 & ->).
  assert ((i4, w4)
          = deliver c (map clientEvent
                         (pre ++ CancelMessage :: mid ++ [ChildClosed code]))
              i w1) as D4.
  { replace (map clientEvent
               (pre ++ CancelMessage :: mid ++ [ChildClosed code]))
      with ((map clientEvent (pre ++ [CancelMessage]) ++ map clientEvent mid)
            ++ [ChildClose code])
      by (rewrite !map_app; cbn [map clientEvent]; rewrite !map_app;
          cbn [map clientEvent]; rewrite <- !app_assoc; reflexivity).
    rewrite <- (deliver_pair c _ _ i w1 _ _ D3).
    cbn [deliver]. now rewrite H4. }
  destruct (flowing_streaming pre Hpre) as (Fp1 & Fp2 & _).
  destruct (flowing_streaming mid Hmid) as (Fm1 & Fm2 & _).
  assert (exists e, outcome = Rejected e
                    /\ message e = lit "Request cancelled.") as (e & -> & Hm).
  { destruct (ask_close_cancelled h prompt chatOptions w
                (map clientEvent (pre ++ CancelMessage :: mid)) code [] Hs)
      as (e & He & Hm).
    - rewrite map_app, forallb_app, Fp1. cbn. exact Fm1.
    - unfold cancelledBy. cbn [token chatOptions orb].
      rewrite map_app, existsb_app. cbn. apply orb_true_r.
    - exact Hcode.
    - exists e. split; [|exact Hm].
      rewrite (ask_unfold h prompt chatOptions _ w c i w1 E) in He.
      cbn [fst] in He.
      replace (map clientEvent (pre ++ CancelMessage :: mid)
               ++ ChildClose code :: [])
        with (map clientEvent
                (pre ++ CancelMessage :: mid ++ [ChildClosed code])) in He
        by (rewrite !map_app; cbn [map clientEvent]; rewrite map_app;
            cbn [map clientEvent]; now rewrite <- app_assoc).
      rewrite <- D4 in He. cbn [fst] in He. congruence. }
  assert (killCalls (effects w4) = S (killCalls (effects w))) as Hkill.
  { pose proof (ask_cancel_kills h prompt chatOptions w false
                  (map clientEvent pre)
                  (map clientEvent (mid ++ [ChildClosed code]))
                  Hs eq_refl Fp1 Fp2) as K.
    rewrite (ask_unfold h prompt chatOptions _ w c i w1 E) in K.
    cbn [snd] in K.
    replace (map clientEvent pre
             ++ CancellationRequested
                :: map clientEvent (mid ++ [ChildClosed code]))
      with (map clientEvent
              (pre ++ CancelMessage :: mid ++ [ChildClosed code])) in K
      by (now rewrite map_app).
    now rewrite <- D4 in K. }
  (* what follows the rejection *)
  unfold afterAsk. cbn [provider invocation world].
  set (p5 := postMessage (PostError requestId (message e)) (provider r3)).
  assert (pending_get requestId (pendingRequests p5) = None) as P5.
  { unfold p5, postMessage.
    destruct (hasView (provider r3)); [unfold Chat.post; cbn [pendingRequests]|];
      rewrite P3; cbn [set_pending pendingRequests]; apply pending_get_delete. }
  unfold finallyClause. cbn [provider invocation world]. rewrite P5.
  cbn [provider invocation world set_pending sessions posted].
  split; [|split; [exact Hkill|]].
  - assert (sessions p5 = sessions p3) as Hs5.
    { unfold p5, postMessage.
      destruct (hasView (provider r3)); [unfold Chat.post; cbn [sessions]|];
        rewrite P3; cbn [set_pending sessions]; congruence. }
    eexists. split.
    + unfold messagesOf, set_pending. cbn [sessions]. rewrite Hs5, Q1, Es.
      rewrite findSession_update by reflexivity. rewrite Es.
      cbn [option_map pushed messages]. reflexivity.
    + split; reflexivity.
  - intros Hv.
    assert (posted p5
            = posted p ++ Saved (sessions p3) :: [PostState (sessions p3) (activeSessionId p)]
              ++ map (PostStream sessionId requestId) (answerChunks pre)
              ++ [PostError requestId (lit "Request cancelled.")]) as Hp.
    { unfold p5, postMessage. rewrite P3.
      unfold set_pending at 1. cbn [hasView]. rewrite S2, Q2, Hv.
      unfold Chat.post, set_pending. cbn [posted].
      rewrite S5, Q5, Q2, Hv, Hm. rewrite <- !app_assoc. reflexivity. }
    rewrite Hp. rewrite !streamed_app, !errorsPosted_app.
    change (Saved (sessions p3) :: [PostState (sessions p3) (activeSessionId p)]
            ++ map (PostStream sessionId requestId) (answerChunks pre)
            ++ [PostError requestId (lit "Request cancelled.")])
      with ([Saved (sessions p3); PostState (sessions p3) (activeSessionId p)]
            ++ map (PostStream sessionId requestId) (answerChunks pre)
            ++ [PostError requestId (lit "Request cancelled.")]).
    rewrite !streamed_app, !errorsPosted_app.
    rewrite streamed_stream, errorsPosted_stream. cbn.
    rewrite !app_nil_r. split; reflexivity.
Qed.

Lemma handleAsk_cancelled_witness :
  let result :=
    handleAsk posix_host (mkOracle (fun _ => 0) (fun _ => lit "id"))
      (lit "r1") (lit "why?") (lit "s1")
      ([ChildStdout (lit "be")]
       ++ CancelMessage :: [ChildStdout (lit "cause")]
       ++ ChildClosed None :: [])
      (mkProvider [mkSession (lit "s1") (lit "Chat 1") 10 10 []]
                 (Some (lit "s1")) []
         true 0 0 []) world0 in
  killCalls (effects (snd result)) = 1%nat
  /\ streamed (posted (fst result)) = [lit "be"].
Proof.
  cbv zeta.
  destruct (handleAsk_cancelled posix_host
              (mkOracle (fun _ => 0) (fun _ => lit "id"))
              (lit "r1") (lit "why?") (lit "s1")
              [ChildStdout (lit "be")] [ChildStdout (lit "cause")] None []
              (mkProvider [mkSession (lit "s1") (lit "Chat 1") 10 10 []]
                 (Some (lit "s1")) []
                 true 0 0 []) world0)
    as (_ & H2 & H3).
  - discriminate.
  - vm_compute. reflexivity.
  - reflexivity.
  - reflexivity.
  - discriminate.
  - split; [exact H2|]. destruct (H3 eq_refl) as [H _]. exact H.
Defined.

End ChatSpec.
